(** * CryptoAttacks: CBC padding-oracle engine and RSA attack suite

    A shallow embedding of [Block/cbc.py] and [CryptoAttacks/PublicKey/rsa.py]
    (Python 2) together with the properties of their specification.

    Conventions of the embedding:
    - a Python byte string is a [list Z] of octets (values in [0, 256));
    - Python integers are [Z]; on integers [/] and [//] are floor division
      ([Z.div]), [%] is [Z.modulo], [**] is [Z.pow], [&], [|], [<<] are
      [Z.land], [Z.lor], [Z.shiftl];
    - [log.critical_error] aborts the run: functions that can reach it return
      a [result]; [log.error], [log.info] and [log.debug] only print;
    - mutable dictionaries (the text pairs of a key) live in a store, and a
      key holds the list of their addresses. *)

From Stdlib Require Import ZArith List Lia Bool Znumtheory Zpow_facts String.
From Stdlib Require ZmodInv.
From stdpp Require Import base list.
Import ListNotations.

Local Open Scope Z_scope.

(* ===================================================================== *)
(** * Part I: the embedding                                               *)
(* ===================================================================== *)

(** ** Python primitives *)

Module Py.

(** Errors that end a run. The first group are the messages passed to
    [log.critical_error]; [PyException] stands for an uncaught Python
    exception ([IndexError], [KeyError], [ValueError], [ZeroDivisionError]);
    [Diverges] is not a Python error but the model's account of a loop
    that has not ended. *)
Inductive error : Type :=
| InvalidLength        (* "Incorrect ciphertext length" / "Incorrect new plaintext length" *)
| InvalidIv            (* "Incorrect iv length" *)
| InvalidAmount        (* "Incorrect amount of blocks to decrypt" *)
| KnownTooLong         (* "Too long known plaintext" *)
| BadPadding           (* "Found bad padding value" *)
| OracleExhausted      (* "Can't find correct padding (oracle function return False 256 times)" *)
| InvalidArgument      (* the remaining critical errors *)
| PyException
| Diverges.            (* the run needs more turns or random draws than the model was given *)

Inductive result (A : Type) : Type :=
| Ok (a : A)
| Err (e : error).
Arguments Ok {A} a.
Arguments Err {A} e.

Definition bind {A B} (r : result A) (k : A -> result B) : result B :=
  match r with
  | Ok a => k a
  | Err e => Err e
  end.

Definition len {A} (l : list A) : Z := Z.of_nat (length l).

(** [range(a, b)] *)
Definition range (a b : Z) : list Z :=
  map (fun i => a + Z.of_nat i) (seq 0 (Z.to_nat (b - a))).

(** Position of a slice bound: negative bounds count from the end and are
    clipped at the start of the sequence. *)
Definition bound {A} (l : list A) (k : Z) : nat :=
  Z.to_nat (if k <? 0 then Z.max 0 (len l + k) else k).

(** [l[:k]] *)
Definition slice_to {A} (l : list A) (k : Z) : list A := firstn (bound l k) l.

(** [l[k:]] *)
Definition slice_from {A} (l : list A) (k : Z) : list A := skipn (bound l k) l.

(** [l[i]]: [None] is [IndexError]. *)
Definition index {A} (l : list A) (i : Z) : option A :=
  let j := if i <? 0 then len l + i else i in
  if (0 <=? j) && (j <? len l) then nth_error l (Z.to_nat j) else None.

(** [l[i] = x]: [None] is [IndexError]. *)
Definition set_index {A} (l : list A) (i : Z) (x : A) : option (list A) :=
  let j := if i <? 0 then len l + i else i in
  if (0 <=? j) && (j <? len l) then Some (<[Z.to_nat j := x]> l) else None.

(** [chr(x)]: a [ValueError] outside [range(256)]. *)
Definition chr (x : Z) : result Z :=
  if (0 <=? x) && (x <? 256) then Ok x else Err PyException.

Definition of_option {A} (o : option A) : result A :=
  match o with
  | Some a => Ok a
  | None => Err PyException
  end.

End Py.

Import Py.

Notation "'let*' x ':=' c1 'in' c2" := (Py.bind c1 (fun x => c2))
  (at level 10, x name, c1 at level 100, c2 at level 200).

(** ** The byte substrate ([Utils], not part of the sources) *)

Module Utils.

(** Modelled from the spec: [chunks(s, B)] of the absent [Utils] module:
    "partition into ceil(|s|/B) blocks; last block may be shorter". *)
Fixpoint chunks_fuel (fuel : nat) (s : list Z) (B : nat) : list (list Z) :=
  match fuel with
  | O => []
  | S fuel' =>
      match s with
      | [] => []
      | _ => firstn B s :: chunks_fuel fuel' (skipn B s) B
      end
  end.

Definition chunks (s : list Z) (B : Z) : list (list Z) :=
  chunks_fuel (length s) s (Z.to_nat B).

(** Modelled from the spec: an operand of [xor] of the absent [Utils]
    module "cyclically extended" to [n] bytes. *)
Definition extend (n : nat) (a : list Z) : list Z :=
  map (fun i => nth (i mod length a)%nat a 0) (seq 0 n).

(** Modelled from the spec: [xor(a, b, ...)] of the absent [Utils] module:
    "variadic XOR. Shorter operands are cyclically extended to the longest
    operand's length." *)
Definition xor (args : list (list Z)) : list Z :=
  let n := fold_right Nat.max 0%nat (map (@length Z) args) in
  fold_left (fun acc a => map (fun p => Z.lxor (fst p) (snd p)) (combine acc (extend n a)))
            args (repeat 0 n).

(** Modelled from the spec: [b2i] of the absent [Utils] module: big-endian,
    unsigned. *)
Definition b2i (s : list Z) : Z := fold_left (fun acc x => acc * 256 + x) s 0.

(** Little-endian digits of [x] in base 256, [fuel] of them at most. *)
Fixpoint digits (fuel : nat) (x : Z) : list Z :=
  match fuel with
  | O => []
  | S fuel' => if x <=? 0 then [] else (x mod 256) :: digits fuel' (x / 256)
  end.

(** Modelled from the spec: [i2b(x)] of the absent [Utils] module: the
    big-endian bytes of [x], without leading zero bytes. *)
Definition i2b (x : Z) : list Z := rev (digits (S (Z.to_nat (Z.log2 x))) x).

(** Modelled from the spec: [i2b(x, size)] "left-pads to size/8 bytes when
    size is given". *)
Definition i2b_size (x : Z) (size : Z) : list Z :=
  let s := i2b x in
  repeat 0 (Z.to_nat (size / 8) - length s) ++ s.

End Utils.

Import Utils.

(** ** [Block/cbc.py]: the padding-oracle engine *)

Module CBC.

(** [class PaddingOracle]: the only attribute is the block size. *)
Record PaddingOracle : Type := { block_size : Z }.

(** [PaddingOracle.__init__] *)
Definition init (block_size : Z) : result PaddingOracle :=
  if negb (block_size mod 8 =? 0) then Err InvalidArgument
  else Ok {| block_size := block_size |}.

(** Truth value of an optional byte string ([if iv:]). *)
Definition truthy (o : option (list Z)) : bool :=
  match o with
  | Some (_ :: _) => true
  | _ => false
  end.

Definition is_None {A} (o : option A) : bool :=
  match o with
  | None => true
  | Some _ => false
  end.

Definition bytes_of (o : option (list Z)) : list Z :=
  match o with
  | Some s => s
  | None => []
  end.

(** [xrange(a, b, -1)] *)
Definition range_down (a b : Z) : list Z :=
  map (fun i => a - Z.of_nat i) (seq 0 (Z.to_nat (a - b))).

Section Engine.

(** The type of what [oracle] returns besides its verdict, with the
    value [None] that [decrypt] passes to the first call. *)
Variable R : Type.
Variable none : R.

(** [self.oracle(payload, iv, previous_resp)], implemented by the user. *)
Variable oracle : list Z -> list Z -> R -> bool * R.

Variable self : PaddingOracle.

Let B : Z := block_size self.

(** The local variables of [decrypt] that its loops update. *)
Record state : Type := {
  payload_modify : list Z;
  position : Z;
  plaintext : list Z;
  is_correct : bool;
  resp : R
}.

Definition set_resp (s : state) (r : R) : state :=
  {| payload_modify := payload_modify s; position := position s;
     plaintext := plaintext s; is_correct := is_correct s; resp := r |}.

(** The query built from the current guess (lines 101-105): returns
    [(iv, payload)]. *)
Definition query (payload_prefix payload_decrypt : list Z) (s : state) (guess_char : Z)
  : list Z * list Z :=
  let modified := slice_to (payload_modify s) (position s) ++ [guess_char]
                  ++ slice_from (payload_modify s) (position s + 1) in
  let payload := payload_prefix ++ modified ++ payload_decrypt in
  (slice_to payload B, slice_from payload B).

(** The second query of the first-byte check (lines 139-142). *)
Definition recheck_query (iv payload : list Z) : list Z * list Z :=
  let payload := iv ++ payload in
  let payload := slice_to payload (- B - 2) ++ [65] ++ slice_from payload (- B - 1) in
  (slice_to payload B, slice_from payload B).

(** What one iteration of [for guess_char in xrange(256)] does. *)
Inductive guess_result : Type :=
| Continue (r : R)       (* next guess *)
| Break (s : state).     (* [found_correct_char = True; break] *)

(** The body of the guess loop (lines 101-155). *)
Definition guess_body (blocks : list (list Z)) (payload_prefix payload_decrypt : list Z)
           (s : state) (guess_char : Z) : result guess_result :=
  let '(iv, payload) := query payload_prefix payload_decrypt s guess_char in
  let '(correct, resp1) := oracle payload iv (resp s) in
  if correct then
    let padding := B - position s in
    let* c := of_option (index (payload_modify s) (position s)) in
    let* decrypted_char := chr (Z.lxor (Z.lxor c guess_char) padding) in
    if is_correct s then
      let* b2 := of_option (index blocks (-2)) in
      let* last_char := of_option (index b2 (-1)) in
      if guess_char =? last_char then Ok (Continue resp1)
      else
        let dc := decrypted_char in
        if (dc =? 0) || (dc >? B) then Err BadPadding
        else
          let* c1 := chr (dc + 1) in
          Ok (Break {|
            payload_modify := slice_to (payload_modify s) (- dc)
                              ++ xor [slice_from (payload_modify s) (- dc); [decrypted_char]; [c1]];
            position := position s - dc + 1;
            plaintext := repeat decrypted_char (Z.to_nat dc);
            is_correct := false;
            resp := resp1 |})
    else
      let accept (r : R) : result guess_result :=
        let* cp := chr padding in
        let* cp1 := chr (padding + 1) in
        Ok (Break {|
          payload_modify := slice_to (payload_modify s) (position s)
                            ++ xor [[guess_char] ++ slice_from (payload_modify s) (position s + 1);
                                    [cp]; [cp1]];
          position := position s;
          plaintext := decrypted_char :: plaintext s;
          is_correct := false;
          resp := r |}) in
      if position s =? B - 1 then
        let '(iv2, payload2) := recheck_query iv payload in
        let '(correct2, resp2) := oracle payload2 iv2 resp1 in
        if negb correct2 then Ok (Continue resp2) else accept resp2
      else accept resp1
  else Ok (Continue resp1).

(** [for guess_char in xrange(256)]: the flag [found_correct_char] and
    the state after the loop. *)
Fixpoint guess_loop (guesses : list Z) (blocks : list (list Z))
         (payload_prefix payload_decrypt : list Z) (s : state) : result (bool * state) :=
  match guesses with
  | [] => Ok (false, s)
  | guess_char :: rest =>
      let* r := guess_body blocks payload_prefix payload_decrypt s guess_char in
      match r with
      | Continue r' => guess_loop rest blocks payload_prefix payload_decrypt (set_resp s r')
      | Break s' => Ok (true, s')
      end
  end.

(** Lines 156-164: the end of one turn of [while position >= 0]. *)
Definition after_guesses (found_correct_char : bool) (s : state) : result state :=
  let position := position s - 1 in
  if found_correct_char then
    Ok {| payload_modify := payload_modify s; position := position;
          plaintext := plaintext s; is_correct := is_correct s; resp := resp s |}
  else if is_correct s then
    let padding := 1 in
    let* cp := chr padding in
    let* cp1 := chr (padding + 1) in
    Ok {| payload_modify := slice_to (payload_modify s) (position + 1)
                            ++ xor [slice_from (payload_modify s) (position + 1); [cp]; [cp1]];
          position := position;
          plaintext := [1];
          is_correct := false;
          resp := resp s |}
  else Err OracleExhausted.

(** [while position >= 0]. Every turn lowers [position], so
    [position + 1] turns are enough; [fuel] counts them. *)
Fixpoint position_loop (fuel : nat) (blocks : list (list Z))
         (payload_prefix payload_decrypt : list Z) (s : state) : result state :=
  if position s <? 0 then Ok s
  else
    match fuel with
    | O => Err Diverges
    | S fuel' =>
        let* r := guess_loop (range 0 256) blocks payload_prefix payload_decrypt s in
        let* s' := after_guesses (fst r) (snd r) in
        position_loop fuel' blocks payload_prefix payload_decrypt s'
    end.

(** The variables that survive from one block to the next. *)
Record carry : Type := {
  c_plaintext : list Z;
  c_is_correct : bool;
  c_resp : R;
  c_position_known : Z
}.

(** The body of [for count_block in xrange(len(blocks)-1, amount, -1)]. *)
Definition block_body (blocks : list (list Z)) (c : carry) (count_block : Z) : result carry :=
  let payload_prefix := concat (slice_to blocks (count_block - 1)) in
  let* pm := of_option (index blocks (count_block - 1)) in
  let* payload_decrypt := of_option (index blocks count_block) in
  let position := B - 1 - c_position_known c in
  let* s := position_loop (Z.to_nat (position + 1)) blocks payload_prefix payload_decrypt
            {| payload_modify := pm; position := position; plaintext := c_plaintext c;
               is_correct := c_is_correct c; resp := c_resp c |} in
  Ok {| c_plaintext := plaintext s; c_is_correct := is_correct s; c_resp := resp s;
        c_position_known := 0 |}.

Fixpoint block_loop (blocks : list (list Z)) (counts : list Z) (c : carry) : result carry :=
  match counts with
  | [] => Ok c
  | count_block :: rest =>
      let* c' := block_body blocks c count_block in
      block_loop blocks rest c'
  end.

(** [PaddingOracle.decrypt] *)
Definition decrypt (ciphertext : list Z) (iv : option (list Z)) (is_correct : bool)
           (amount : Z) (known_plaintext : option (list Z)) : result (list Z) :=
  if negb (len ciphertext mod B =? 0) then Err InvalidLength
  else
    let blocks := chunks ciphertext B in
    let resp := none in
    let* blocks := (if truthy iv then
                    if negb (len (bytes_of iv) mod B =? 0) then Err InvalidIv
                    else Ok (bytes_of iv :: blocks)
                  else Ok blocks) in
    let amount := if negb (amount =? 0) then len blocks - amount - 1 else amount in
    if (amount <? 0) || (amount >=? len blocks) then Err InvalidAmount
    else
      let run (blocks : list (list Z)) (c : carry) : result (list Z) :=
        let* c' := block_loop blocks (range_down (len blocks - 1) amount) c in
        Ok (c_plaintext c') in
      if truthy known_plaintext then
        let plaintext := bytes_of known_plaintext in
        let blocks_decoded := len plaintext / B in
        let chars_decoded := len plaintext mod B in
        if blocks_decoded =? len blocks then Ok plaintext
        else if blocks_decoded >? len blocks - 1 then Err KnownTooLong
        else
          let blocks := if negb (blocks_decoded =? 0)
                        then slice_to blocks (- blocks_decoded) else blocks in
          let* blocks := (if negb (chars_decoded =? 0) then
                          let* b2 := of_option (index blocks (-2)) in
                          let* c1 := chr (chars_decoded + 1) in
                          of_option (set_index blocks (-2)
                            (slice_to b2 (- chars_decoded)
                             ++ xor [slice_to plaintext chars_decoded;
                                     slice_from b2 (- chars_decoded); [c1]]))
                        else Ok blocks) in
          run blocks {| c_plaintext := plaintext; c_is_correct := false; c_resp := resp;
                        c_position_known := chars_decoded |}
      else
        run blocks {| c_plaintext := []; c_is_correct := is_correct; c_resp := resp;
                      c_position_known := 0 |}.

(** The body of [for count_block in xrange(len(blocks)-1, 0, -1)] of
    [fake_ciphertext]; returns the new value of [new_ct_blocks]. *)
Definition fake_body (blocks new_pl_blocks new_ct_blocks : list (list Z))
           (original_plaintext original_ciphertext : option (list Z)) (count_block : Z)
  : result (list (list Z)) :=
  let ct := concat (slice_to new_ct_blocks (count_block + 1)) in
  let* original_plaintext :=
    (if is_None original_plaintext && is_None original_ciphertext then
       decrypt ct None false 1 None
     else if truthy original_plaintext && truthy original_ciphertext then
       decrypt ct None true 1 original_plaintext
     else
       decrypt ct None true 1 None) in
  let* b := of_option (index blocks (count_block - 1)) in
  let* npl := of_option (index new_pl_blocks (count_block - 1)) in
  of_option (set_index new_ct_blocks (count_block - 1) (xor [b; original_plaintext; npl])).

Fixpoint fake_loop (counts : list Z) (blocks new_pl_blocks new_ct_blocks : list (list Z))
         (original_plaintext original_ciphertext : option (list Z))
  : result (list (list Z)) :=
  match counts with
  | [] => Ok new_ct_blocks
  | count_block :: rest =>
      let* new_ct_blocks' :=
        fake_body blocks new_pl_blocks new_ct_blocks
                  original_plaintext original_ciphertext count_block in
      fake_loop rest blocks new_pl_blocks new_ct_blocks' None None
  end.

(** [PaddingOracle.fake_ciphertext] *)
Definition fake_ciphertext (new_plaintext : list Z)
           (original_ciphertext iv original_plaintext : option (list Z))
  : result (list Z) :=
  let* ciphertext :=
    (if is_None original_ciphertext then
       if truthy original_plaintext then Err InvalidArgument
       else if truthy iv then Err InvalidArgument
       else Ok (repeat 65 (Z.to_nat (len new_plaintext + B)))
     else Ok (bytes_of original_ciphertext)) in
  if truthy original_ciphertext && negb (len (bytes_of original_ciphertext) mod B =? 0)
  then Err InvalidLength
  else if negb (len new_plaintext mod B =? 0) then Err InvalidLength
  else
    let blocks := chunks ciphertext B in
    let new_pl_blocks := chunks new_plaintext B in
    let blocks := if truthy iv then bytes_of iv :: blocks else blocks in
    if negb (len new_pl_blocks =? len blocks - 1) then Err InvalidLength
    else
      let new_ct_blocks := blocks in
      (* [original_plaintext > self.block_size] compares a string with an
         integer, which Python 2 always answers with True *)
      let original_plaintext :=
        if truthy original_plaintext
        then Some (slice_from (bytes_of original_plaintext) (- B))
        else original_plaintext in
      let* new_ct_blocks :=
        fake_loop (range_down (len blocks - 1) 0) blocks new_pl_blocks new_ct_blocks
                  original_plaintext original_ciphertext in
      Ok (concat new_ct_blocks).

End Engine.

Arguments Build_state {R}.
Arguments payload_modify {R}.
Arguments position {R}.
Arguments plaintext {R}.
Arguments is_correct {R}.
Arguments resp {R}.
Arguments set_resp {R}.
Arguments query {R}.
Arguments Continue {R}.
Arguments Break {R}.
Arguments guess_body {R}.
Arguments guess_loop {R}.
Arguments after_guesses {R}.
Arguments position_loop {R}.
Arguments Build_carry {R}.
Arguments c_plaintext {R}.
Arguments c_is_correct {R}.
Arguments c_resp {R}.
Arguments c_position_known {R}.
Arguments block_body {R}.
Arguments block_loop {R}.
Arguments decrypt {R}.
Arguments fake_body {R}.
Arguments fake_loop {R}.
Arguments fake_ciphertext {R}.

(** *** CBC mode and PKCS#7, as the oracle's contract describes them *)

(** CBC decryption of the blocks after [prev] with the block function [D]. *)
Fixpoint cbc_blocks (D : list Z -> list Z) (prev : list Z) (blocks : list (list Z)) : list Z :=
  match blocks with
  | [] => []
  | c :: rest => xor [D c; prev] ++ cbc_blocks D c rest
  end.

Definition cbc_decrypt (D : list Z -> list Z) (B : Z) (iv payload : list Z) : list Z :=
  match chunks (iv ++ payload) B with
  | [] => []
  | c0 :: rest => cbc_blocks D c0 rest
  end.

(** Valid PKCS#7 padding: the last byte is some [k] in [1, B] and the last
    [k] bytes all are [k]. *)
Definition pkcs7_valid (B : Z) (pt : list Z) : bool :=
  match index pt (-1) with
  | None => false
  | Some k => (1 <=? k) && (k <=? B) && (k <=? len pt) && forallb (Z.eqb k) (slice_from pt (- k))
  end.

(** The padding oracle of a key whose block decryption is [D]: "returns
    whether iv || payload decrypts to something with valid PKCS#7 padding".
    It keeps no state. *)
Definition padding_oracle (D : list Z -> list Z) (B : Z)
           (payload iv : list Z) (previous_resp : unit) : bool * unit :=
  (pkcs7_valid B (cbc_decrypt D B iv payload), tt).

(** A toy block cipher: decryption of a block is XOR with the key. *)
Definition xor_cipher (key : list Z) (block : list Z) : list Z := xor [block; key].

End CBC.

(** ** The math substrate ([CryptoAttacks.Math] and [gmpy2], not part of the sources) *)

Module MathLib.

(** [pow(a, b, m)] by square and multiply over the bits of [b]. *)
Fixpoint pow_mod_pos (a : Z) (b : positive) (m : Z) : Z :=
  match b with
  | xH => a mod m
  | xO b' => let r := pow_mod_pos a b' m in (r * r) mod m
  | xI b' => let r := pow_mod_pos a b' m in (r * r * a) mod m
  end.

Definition pow_mod (a b m : Z) : Z :=
  match b with
  | Z0 => 1 mod m
  | Zpos b' => pow_mod_pos a b' m
  | Zneg _ => 0
  end.

(** [gmpy2.iroot(x, n)]: the floor of the [n]-th root of [x] and whether it
    is exact. The root is built from its highest bit down. *)
Fixpoint iroot_bits (bits : nat) (x n r : Z) : Z :=
  match bits with
  | O => r
  | S bits' =>
      let r' := r + 2 ^ Z.of_nat bits' in
      iroot_bits bits' x n (if r' ^ n <=? x then r' else r)
  end.

Definition iroot (x n : Z) : Z * bool :=
  let r := iroot_bits (S (Z.to_nat (Z.log2 x / n))) x n 0 in
  (r, r ^ n =? x).

(** [gmpy2.isqrt] *)
Definition isqrt (x : Z) : Z := Z.sqrt x.

(** Extended Euclid: [egcd fuel a b = (g, x, y)] with [a*x + b*y = g]. *)
Fixpoint egcd (fuel : nat) (a b : Z) : Z * Z * Z :=
  match fuel with
  | O => (a, 1, 0)
  | S fuel' =>
      if b =? 0 then (a, 1, 0)
      else
        let '(g, x, y) := egcd fuel' b (a mod b) in
        (g, y, x - (a / b) * y)
  end.

(** Euclid's algorithm on [(a, b)] ends within [euclid_fuel b] divisions. *)
Definition euclid_fuel (b : Z) : nat := S (S (2 * Z.to_nat (Z.log2 (Z.abs b)))).

(** Modelled from the spec: [invmod(a, m)] of the absent [Math] module,
    which "fails on non-coprime inputs". *)
Definition invmod (a m : Z) : result Z :=
  let '(g, x, _) := egcd (euclid_fuel m) a m in
  if Z.abs g =? 1 then Ok ((x * g) mod m) else Err PyException.

(** Modelled from the spec: [crt(residues, moduli)] of the absent [Math]
    module: "given coprime moduli and residues, reconstruct the unique
    residue mod their product"; it fails like [invmod] when a modulus is
    not coprime to the others. *)
Definition crt (residues moduli : list Z) : result Z :=
  let N := fold_right Z.mul 1 moduli in
  let* s := fold_right
              (fun (rm : Z * Z) (acc : result Z) =>
                 let* t := acc in
                 let Ni := N / snd rm in
                 let* inv := invmod Ni (snd rm) in
                 Ok (t + fst rm * Ni * inv))
              (Ok 0) (combine residues moduli) in
  Ok (s mod N).

(** Modelled from the spec: [continued_fractions(a, b)] of the absent
    [Math] module, the "finite sequence" of partial quotients of [a/b]. *)
Fixpoint cf_fuel (fuel : nat) (a b : Z) : list Z :=
  match fuel with
  | O => []
  | S fuel' => if b =? 0 then [] else (a / b) :: cf_fuel fuel' b (a mod b)
  end.

Definition continued_fractions (a b : Z) : list Z := cf_fuel (euclid_fuel b) a b.

(** The convergents after [h1/k1], which itself follows [h2/k2]. *)
Fixpoint convergents_from (cf : list Z) (h1 k1 h2 k2 : Z) : list (Z * Z) :=
  match cf with
  | [] => []
  | a :: rest =>
      let h := a * h1 + h2 in
      let k := a * k1 + k2 in
      (h, k) :: convergents_from rest h k h1 k1
  end.

(** Modelled from the spec: [convergents(cf)] of the absent [Math] module,
    the "sequence of (h_k, k_k)" of numerators and denominators. *)
Definition convergents (cf : list Z) : list (Z * Z) := convergents_from cf 1 0 0 1.

(** Modelled from the spec: [power_of_two(x)] of the absent [Math] module,
    the "largest v with 2^v | x". *)
Fixpoint power_of_two_fuel (fuel : nat) (x : Z) : Z :=
  match fuel with
  | O => 0
  | S fuel' => if (x =? 0) || Z.odd x then 0 else 1 + power_of_two_fuel fuel' (x / 2)
  end.

Definition power_of_two (x : Z) : Z := power_of_two_fuel (S (Z.to_nat (Z.log2 (Z.abs x)))) x.

End MathLib.

Import MathLib.

(** ** [CryptoAttacks/PublicKey/rsa.py]: keys and attacks *)

Module RSA.

(** A text pair: a dictionary with the optional entries ['cipher'] and
    ['plain']. *)
Record text_pair : Type := { cipher : option Z; plain : option Z }.

Definition set_cipher (t : text_pair) (c : Z) : text_pair :=
  {| cipher := Some c; plain := plain t |}.

Definition set_plain (t : text_pair) (m : Z) : text_pair :=
  {| cipher := cipher t; plain := Some m |}.

(** The dictionaries are objects: a store holds them, and [texts] of a key
    is the list of their addresses. *)
Abbreviation store := (list text_pair).

(** [class RSAKey] *)
Record RSAKey : Type := {
  key_n : Z;
  key_e : Z;
  key_d : option Z;
  key_p : option Z;
  key_q : option Z;
  key_size : Z;
  identifier : string;
  texts : list nat
}.

Definition set_texts (key : RSAKey) (ts : list nat) : RSAKey :=
  {| key_n := key_n key; key_e := key_e key; key_d := key_d key; key_p := key_p key;
     key_q := key_q key; key_size := key_size key; identifier := identifier key;
     texts := ts |}.

(** Truth value of an optional integer ([if d:]). *)
Definition nonzero (o : option Z) : bool :=
  match o with
  | Some z => negb (z =? 0)
  | None => false
  end.

Definition int_of (o : option Z) : Z :=
  match o with
  | Some z => z
  | None => 0
  end.

(** [a // b] *)
Definition floordiv (a b : Z) : result Z :=
  if b =? 0 then Err PyException else Ok (a / b).

(** The inner loop [while b < k] of [factors_from_d] for one [g]. *)
Fixpoint factors_try (fuel : nat) (n g k b : Z) : option (Z * Z) :=
  match fuel with
  | O => None
  | S fuel' =>
      if b <? k then
        let gb := pow_mod g b n in
        if negb (gb =? 1) && negb (gb =? n - 1) && (pow_mod gb 2 n =? 1) then
          let p := if negb (Z.gcd (gb - 1) n =? 1) then Z.gcd (gb - 1) n
                   else Z.gcd (gb + 1) n in
          Some (p, n / p)
        else factors_try fuel' n g k (b * 2)
      else None
  end.

(** [factors_from_d(n, e, d)]. [draws] are the values that the successive
    calls of [random.randint(2, n - 2)] return; the result comes with the
    draws that are left. The loop [while True] only ends on a good draw:
    when the draws run out the model answers [Diverges]. *)
Fixpoint factors_from_d (draws : list Z) (n e d : Z) : result (Z * Z * list Z) :=
  match draws with
  | [] => Err Diverges
  | g :: rest =>
      let k := e * d - 1 in
      let b := k / 2 ^ power_of_two k in
      match factors_try (S (Z.to_nat (power_of_two k))) n g k b with
      | Some pq => Ok (pq, rest)
      | None => factors_from_d rest n e d
      end
  end.

(** [RSAKey.__init__] (and [RSAKey.construct], which only calls it).
    [obj_id] is [str(id(self))]. [size] is computed by the source in floating
    point; the model takes its exact value, the least multiple of 8 that is
    at least [log2 n]. The [PyRSA] object is left out. *)
Definition init (obj_id : string) (draws : list Z) (n e : Z) (d p q : option Z)
           (texts : list nat) (identifier : string) : result (RSAKey * list Z) :=
  let identifier := if String.eqb identifier EmptyString then obj_id else identifier in
  let* r :=
    (if nonzero d || nonzero p || nonzero q then
       if negb (nonzero d) then
         let* q1 := (if nonzero p then floordiv n (int_of p) else Ok (int_of q)) in
         let* p1 := floordiv n q1 in
         let* d1 := invmod e ((p1 - 1) * (q1 - 1)) in
         Ok (Some d1, Some p1, Some q1, draws)
       else if nonzero p || nonzero q then
         let* q1 := (if nonzero p then floordiv n (int_of p) else Ok (int_of q)) in
         let* p1 := floordiv n q1 in
         Ok (d, Some p1, Some q1, draws)
       else
         let* f := factors_from_d draws n e (int_of d) in
         Ok (d, Some (fst (fst f)), Some (snd (fst f)), snd f)
     else Ok (d, p, q, draws)) in
  let '(d', p', q', draws') := r in
  if n <=? 0 then Err PyException
  else Ok ({| key_n := n; key_e := e; key_d := d'; key_p := p'; key_q := q';
              key_size := 8 * ((Z.log2_up n + 7) / 8);
              identifier := identifier; texts := texts |}, draws').

Definition construct := init.

(** [RSAKey.has_private] *)
Definition has_private (key : RSAKey) : bool :=
  nonzero (key_d key) || nonzero (key_p key) || nonzero (key_q key).

(** [RSAKey.encrypt] on an integer: [pow(plaintext, e, n)]. *)
Definition encrypt (key : RSAKey) (plaintext : Z) : Z :=
  pow_mod plaintext (key_e key) (key_n key).

(** The arguments that the [add_*] methods accept. *)
Inductive value : Type :=
| VNone
| VInt (z : Z)
| VStr (s : list Z).

(** [isinstance(v, Number)] *)
Definition is_Number (v : value) : bool :=
  match v with
  | VInt _ => true
  | _ => false
  end.

(** Truth value of an argument: [None], [0] and [''] are false. *)
Definition is_true (v : value) : bool :=
  match v with
  | VNone => false
  | VInt z => negb (z =? 0)
  | VStr s => negb (len s =? 0)
  end.

(** The conversion at the head of [add_ciphertext] and [add_plaintext]:
    numbers pass, strings go through [b2i], anything else is a critical
    error. *)
Definition to_number (v : value) : result Z :=
  match v with
  | VInt z => Ok z
  | VStr s => Ok (b2i s)
  | VNone => Err InvalidArgument
  end.

(** [self.texts[position][field] = x], on the store. *)
Definition update_pair (st : store) (key : RSAKey) (position : Z)
           (f : text_pair -> text_pair) : result store :=
  let* a := of_option (index (texts key) position) in
  let* t := of_option (st !! a) in
  Ok (<[a := f t]> st).

(** [self.texts.append(t)]: the new dictionary gets a new address. *)
Definition append_pair (st : store) (key : RSAKey) (t : text_pair) : store * RSAKey :=
  (st ++ [t], set_texts key (texts key ++ [length st])).

(** [RSAKey.add_ciphertext] *)
Definition add_ciphertext (st : store) (key : RSAKey) (ciphertext : value)
           (position : option Z) : result (store * RSAKey) :=
  let* ciphertext := to_number ciphertext in
  match position with
  | None => Ok (append_pair st key {| cipher := Some ciphertext; plain := None |})
  | Some pos =>
      let* st' := update_pair st key pos (fun t => set_cipher t ciphertext) in
      Ok (st', key)
  end.

(** [RSAKey.add_plaintext] *)
Definition add_plaintext (st : store) (key : RSAKey) (plaintext : value)
           (position : option Z) : result (store * RSAKey) :=
  let* plaintext := to_number plaintext in
  match position with
  | None => Ok (append_pair st key {| cipher := None; plain := Some plaintext |})
  | Some pos =>
      let* st' := update_pair st key pos (fun t => set_plain t plaintext) in
      Ok (st', key)
  end.

(** [RSAKey.add_text_pair]; [log.error] only prints. *)
Definition add_text_pair (st : store) (key : RSAKey) (ciphertext plaintext : value)
  : store * RSAKey :=
  if negb (is_true ciphertext) && negb (is_true plaintext) then (st, key)
  else
    let text_pair := {| cipher := None; plain := None |} in
    let text_pair :=
      if is_true ciphertext then
        match ciphertext with
        | VInt c => set_cipher text_pair c
        | _ => text_pair
        end
      else text_pair in
    let text_pair :=
      if is_true plaintext then
        match plaintext with
        | VInt m => set_plain text_pair m
        | _ => text_pair
        end
      else text_pair in
    append_pair st key text_pair.

(** The dictionaries of a key, in order. *)
Definition pairs_of (st : store) (key : RSAKey) : result (list text_pair) :=
  fold_right (fun a acc => let* l := acc in let* t := of_option (st !! a) in Ok (t :: l))
             (Ok []) (texts key).

(** [get_mutable_texts(key, None)] *)
Definition get_mutable_texts (st : store) (key : RSAKey) : result (list Z) :=
  let* ps := pairs_of st key in
  Ok (omap (fun t => match cipher t, plain t with
                     | Some c, None => Some c
                     | _, _ => None
                     end) ps).

(** The loop [for k in range(max_times)] of [small_e_msg]. *)
Fixpoint small_e_search (max_times : nat) (key : RSAKey) (ciphertext times : Z) : option Z :=
  match max_times with
  | O => None
  | S max_times' =>
      let '(msg, is_correct) := iroot (ciphertext + times) (key_e key) in
      if is_correct && (pow_mod msg (key_e key) (key_n key) =? ciphertext) then Some msg
      else small_e_search max_times' key ciphertext (times + key_n key)
  end.

(** [small_e_msg(key)] with the default [max_times=100]. *)
Definition small_e_msg (st : store) (key : RSAKey) : result (list Z) :=
  let* ciphertexts := get_mutable_texts st key in
  Ok (omap (fun c => small_e_search 100 key c 0) ciphertexts).

(** [itertools.combinations(l, 2)] *)
Fixpoint combinations2 {A} (l : list A) : list (A * A) :=
  match l with
  | [] => []
  | x :: rest => map (pair x) rest ++ combinations2 rest
  end.

(** Lines 291-294 of [common_primes]: the private key derived from [key]
    and a factor [prime] of its modulus. [new_key.texts = key.texts[:]]
    makes a new list of the same dictionaries. *)
Definition derive_private (obj_id : string) (draws : list Z) (key : RSAKey) (prime : Z)
  : result (RSAKey * list Z) :=
  let* cofactor := floordiv (key_n key) prime in
  let* d := invmod (key_e key) ((prime - 1) * (cofactor - 1)) in
  let* r := construct obj_id draws (key_n key) (key_e key) (Some d) None None []
                      (identifier key ++ "-private") in
  Ok (set_texts (fst r) (texts key), snd r).

(** The loop of [common_primes] over the pairs of keys. The test
    [pair[key_no] not in priv_keys] compares a given key with the keys
    made here, which are other objects (the class defines no equality):
    it always holds. *)
Fixpoint common_primes_loop (obj_id : string) (draws : list Z)
         (pairs : list (RSAKey * RSAKey)) (priv_keys : list RSAKey)
  : result (list RSAKey) :=
  match pairs with
  | [] => Ok priv_keys
  | (k0, k1) :: rest =>
      let prime := Z.gcd (key_n k0) (key_n k1) in
      if negb (prime =? 1) then
        let* r0 := derive_private obj_id draws k0 prime in
        let* r1 := derive_private obj_id (snd r0) k1 prime in
        common_primes_loop obj_id (snd r1) rest (priv_keys ++ [fst r0; fst r1])
      else common_primes_loop obj_id draws rest priv_keys
  end.

(** [common_primes(keys)] *)
Definition common_primes (obj_id : string) (draws : list Z) (keys : list RSAKey)
  : result (list RSAKey) :=
  common_primes_loop obj_id draws (combinations2 keys) [].

(** The test that [wiener] applies to a convergent [(k, d)]. *)
Definition wiener_test (key : RSAKey) (k d : Z) : bool :=
  if negb (k =? 0) && ((key_e key * d - 1) mod k =? 0) then
    let phi := (key_e key * d - 1) / k in
    let b := key_n key - phi + 1 in
    let delta := b * b - 4 * key_n key in
    if delta >? 0 then
      let sqrt_delta := isqrt delta in
      (sqrt_delta * sqrt_delta =? delta) && (sqrt_delta mod 2 =? 0)
    else false
  else false.

(** The loop of [wiener]: the [d] of the first convergent that passes. *)
Fixpoint wiener_search (key : RSAKey) (convs : list (Z * Z)) : option Z :=
  match convs with
  | [] => None
  | (k, d) :: rest => if wiener_test key k d then Some d else wiener_search key rest
  end.

(** [wiener(key)] *)
Definition wiener (obj_id : string) (draws : list Z) (key : RSAKey) : result (option RSAKey) :=
  let en_fractions := continued_fractions (key_e key) (key_n key) in
  match wiener_search key (convergents en_fractions) with
  | Some d =>
      let* r := construct obj_id draws (key_n key) (key_e key) (Some d) None None []
                          (identifier key ++ "-private") in
      Ok (Some (set_texts (fst r) (texts key)))
  | None => Ok None
  end.

(** [key.texts[0]] *)
Definition first_pair (st : store) (key : RSAKey) : result text_pair :=
  let* a := of_option (index (texts key) 0) in
  of_option (st !! a).

Definition mem (x : Z) (l : list Z) : bool := existsb (Z.eqb x) l.

(** Lines 347-351 of [hastad]: every key has a first ciphertext. *)
Fixpoint hastad_check (st : store) (keys : list RSAKey) : result unit :=
  match keys with
  | [] => Ok tt
  | key :: rest =>
      let* t := first_pair st key in
      match cipher t with
      | None => Err InvalidArgument
      | Some _ => hastad_check st rest
      end
  end.

(** Lines 354-363 of [hastad]: keep the keys with a new modulus, a new
    ciphertext and the exponent [e]. *)
Fixpoint hastad_collect (st : store) (e : Z) (keys : list RSAKey)
         (ciphertexts modules : list Z) (correct_keys : list RSAKey)
  : result (list Z * list Z * list RSAKey) :=
  match keys with
  | [] => Ok (ciphertexts, modules, correct_keys)
  | key :: rest =>
      let* t := first_pair st key in
      let* c := of_option (cipher t) in
      if negb (mem (key_n key) modules) && negb (mem c ciphertexts) then
        if key_e key =? e then
          hastad_collect st e rest (ciphertexts ++ [c]) (modules ++ [key_n key])
                         (correct_keys ++ [key])
        else hastad_collect st e rest ciphertexts modules correct_keys
      else hastad_collect st e rest ciphertexts modules correct_keys
  end.

(** Lines 374-378 of [hastad]: the first plaintext that [small_e_msg]
    recovers for one of the keys. *)
Fixpoint hastad_small (st : store) (correct_keys : list RSAKey) : result (option Z) :=
  match correct_keys with
  | [] => Ok None
  | one_key :: rest =>
      let* recovered_plaintexts := small_e_msg st one_key in
      match recovered_plaintexts with
      | m :: _ => Ok (Some m)
      | [] => hastad_small st rest
      end
  end.

(** Lines 391-392 of [hastad]: [one_key.texts[0]['plain'] = plaintext]. *)
Fixpoint hastad_write (st : store) (correct_keys : list RSAKey) (plaintext : Z)
  : result store :=
  match correct_keys with
  | [] => Ok st
  | one_key :: rest =>
      let* st' := update_pair st one_key 0 (fun t => set_plain t plaintext) in
      hastad_write st' rest plaintext
  end.

(** [hastad(keys, ciphertexts)]: the value returned and the store. *)
Definition hastad (st : store) (keys : list RSAKey) (ciphertexts : option (list Z))
  : result (option Z * store) :=
  let* key0 := of_option (index keys 0) in
  let e := key_e key0 in
  if len keys <? e then Err InvalidArgument
  else
    let* r :=
      match ciphertexts with
      | None =>
          let* _u := hastad_check st keys in
          hastad_collect st e keys [] [] []
      | Some cs =>
          if negb (len cs =? len keys) then Err InvalidArgument
          else Ok (cs, map key_n keys, keys)
      end in
    let '(ciphertexts, modules, correct_keys) := r in
    let* found := (if len modules <? e then hastad_small st correct_keys else Ok None) in
    match found with
    | Some m => Ok (Some m, st)
    | None =>
        let '(modules, ciphertexts) :=
          if len modules >? e then (slice_to modules e, slice_to ciphertexts e)
          else (modules, ciphertexts) in
        let* result := crt ciphertexts modules in
        let '(plaintext, correct) := iroot result e in
        if correct then
          let* st' := hastad_write st correct_keys plaintext in
          Ok (Some plaintext, st')
        else Ok (None, st)
    end.

(** The local variables of the loop of [parity]; [calls] lists the
    arguments of the calls of the oracle, the last call first. *)
Record parity_state : Type := {
  p_cipher : Z;
  numerator : Z;
  denominator : Z;
  lower_bound : Z;
  upper_bound : Z;
  counter : Z;
  calls : list Z
}.

(** [while lower_bound + 1 < upper_bound] of [parity]. *)
Fixpoint parity_loop (fuel : nat) (parity_oracle : Z -> Z) (n two_encrypted : Z)
         (s : parity_state) : result parity_state :=
  if lower_bound s + 1 <? upper_bound s then
    match fuel with
    | O => Err Diverges
    | S fuel' =>
        let cipher := (two_encrypted * p_cipher s) mod n in
        let denominator := denominator s * 2 in
        let numerator := numerator s * 2 in
        let counter := counter s + 1 in
        let is_odd := parity_oracle cipher in
        let numerator := if negb (is_odd =? 0) then numerator + 1 else numerator in
        parity_loop fuel' parity_oracle n two_encrypted
          {| p_cipher := cipher; numerator := numerator; denominator := denominator;
             lower_bound := (n * numerator) / denominator;
             upper_bound := (n * (numerator + 1)) / denominator;
             counter := counter; calls := cipher :: calls s |}
    end
  else Ok s.

(** The body of [for text_no in range(len(key.texts))] of [parity]. *)
Definition parity_body (parity_oracle : Z -> Z) (key : RSAKey)
           (acc : list (nat * Z) * store * list Z) (text_no : nat)
  : result (list (nat * Z) * store * list Z) :=
  let '(recovered, st, calls0) := acc in
  let* a := of_option (texts key !! text_no) in
  let* t := of_option (st !! a) in
  match cipher t, plain t with
  | Some c, None =>
      let two_encrypted := encrypt key 2 in
      let* s := parity_loop (Z.to_nat (Z.log2_up (key_n key))) parity_oracle (key_n key)
                  two_encrypted
                  {| p_cipher := c; numerator := 0; denominator := 1; lower_bound := 0;
                     upper_bound := key_n key; counter := 0; calls := calls0 |} in
      Ok (recovered ++ [(text_no, upper_bound s)],
          <[a := set_plain t (upper_bound s)]> st, calls s)
  | _, _ => Ok acc
  end.

(** [parity(parity_oracle, key)]: the dictionary [recovered] (as the list
    of its items), the store, and the arguments of all the calls of the
    oracle in order, beginning with the probe [parity_oracle(1)]. *)
Definition parity (parity_oracle : Z -> Z) (st : store) (key : RSAKey)
  : result (list (nat * Z) * store * list Z) :=
  let* r := fold_left (fun acc text_no => let* a := acc in parity_body parity_oracle key a text_no)
                      (seq 0 (length (texts key))) (Ok ([], st, [1])) in
  let '(recovered, st', calls) := r in
  Ok (recovered, st', rev calls).

(** The table [hash_asn1] of [bleichenbacher_signature_forgery]. *)
Definition hash_asn1 (hash_function : string) : option (list Z) :=
  if String.eqb hash_function "md5" then
    Some [48; 32; 48; 12; 6; 8; 42; 134; 72; 134; 247; 13; 2; 5; 5; 0; 4; 16]
  else if String.eqb hash_function "sha1" then
    Some [48; 33; 48; 9; 6; 5; 43; 14; 3; 2; 26; 5; 0; 4; 20]
  else if String.eqb hash_function "sha256" then
    Some [48; 49; 48; 13; 6; 9; 96; 134; 72; 1; 101; 3; 4; 2; 1; 5; 0; 4; 32]
  else if String.eqb hash_function "sha384" then
    Some [48; 65; 48; 13; 6; 9; 96; 134; 72; 1; 101; 3; 4; 2; 2; 5; 0; 4; 48]
  else if String.eqb hash_function "sha512" then
    Some [48; 81; 48; 13; 6; 9; 96; 134; 72; 1; 101; 3; 4; 2; 3; 5; 0; 4; 64]
  else None.

Section Forgery.

(** [getattr(hashlib, hash_function)(data).digest()]: the hash
    primitives are external. *)
Variable hashlib : string -> list Z -> list Z.

(** Line 617: ["\x00\x01\xff\x00" + hash_asn1[hash_function] + digest]. *)
Definition suffix_plaintext_prefix (asn1 : list Z) (hash_function : string) (m : Z) : list Z :=
  [0; 1; 255; 0] ++ asn1 ++ hashlib hash_function (i2b m).

(** Lines 622-625: the candidate for one [round_error] and whether its
    power begins with the prefix. *)
Definition suffix_candidate (key : RSAKey) (plaintext_prefix : list Z) (plaintext : Z)
           (round_error : Z) : Z * bool :=
  let '(signature, _) := iroot plaintext (key_e key) in
  let signature := signature + round_error in
  let test_prefix :=
    slice_to (i2b_size (pow_mod signature (key_e key) (key_n key)) (key_size key))
             (len plaintext_prefix) in
  (signature, bool_decide (test_prefix = plaintext_prefix)).

(** [for round_error in ...: ... break]: the signature accepted, if any,
    and the candidates tested, in order. *)
Fixpoint suffix_search (key : RSAKey) (plaintext_prefix : list Z) (plaintext : Z)
         (round_errors : list Z) : option Z * list Z :=
  match round_errors with
  | [] => (None, [])
  | round_error :: rest =>
      let '(signature, ok) := suffix_candidate key plaintext_prefix plaintext round_error in
      if ok then (Some signature, [signature])
      else
        let '(r, tested) := suffix_search key plaintext_prefix plaintext rest in
        (r, signature :: tested)
  end.

(** Lines 613-632: the forgery for one plaintext [m]. *)
Definition suffix_forge (key : RSAKey) (asn1 : list Z) (hash_function : string) (m : Z)
  : option Z * list Z :=
  let plaintext_prefix := suffix_plaintext_prefix asn1 hash_function m in
  let plaintext := plaintext_prefix
                   ++ repeat 0 (Z.to_nat (key_size key / 8 - len plaintext_prefix)) in
  let plaintext := b2i plaintext in
  suffix_search key plaintext_prefix plaintext (range (-5) 5).

(** The body of [for text_no in range(len(key.texts))], suffix variant. *)
Definition suffix_body (key : RSAKey) (asn1 : list Z) (hash_function : string)
           (acc : list (nat * Z) * store) (text_no : nat) : result (list (nat * Z) * store) :=
  let '(signatures, st) := acc in
  let* a := of_option (texts key !! text_no) in
  let* t := of_option (st !! a) in
  match plain t, cipher t with
  | Some m, None =>
      match fst (suffix_forge key asn1 hash_function m) with
      | Some signature =>
          Ok (signatures ++ [(text_no, signature)], <[a := set_cipher t signature]> st)
      | None => Ok acc
      end
  | _, _ => Ok acc
  end.

(** [bleichenbacher_signature_forgery(key, garbage, hash_function)] with
    [garbage='suffix']: the dictionary [signatures] and the store. *)
Definition bleichenbacher_signature_forgery (st : store) (key : RSAKey)
           (garbage hash_function : string) : result (list (nat * Z) * store) :=
  if negb (String.eqb garbage "suffix") && negb (String.eqb garbage "middle")
  then Err InvalidArgument
  else
    match hash_asn1 hash_function with
    | None => Err InvalidArgument
    | Some asn1 =>
        if String.eqb garbage "suffix" then
          fold_left (fun acc text_no =>
                       let* a := acc in suffix_body key asn1 hash_function a text_no)
                    (seq 0 (length (texts key))) (Ok ([], st))
        else Err Diverges (* the middle variant draws random prefixes *)
    end.

(** Line 641: ["\x00" + hash_asn1[hash_function] + digest]. *)
Definition middle_plaintext_suffix (asn1 : list Z) (hash_function : string) (m : Z) : list Z :=
  [0] ++ asn1 ++ hashlib hash_function (i2b m).

End Forgery.

(** Lines 649-650: one turn of the loop that builds [signature_suffix]. *)
Definition suffix_bit (plaintext_suffix : list Z) (signature_suffix b : Z) : Z :=
  if negb (Z.land (signature_suffix ^ 3) (Z.shiftl 1 b)
           =? Z.land (b2i plaintext_suffix) (Z.shiftl 1 b))
  then Z.lor signature_suffix (Z.shiftl 1 b)
  else signature_suffix.

(** Lines 647-650 of the middle variant: [signature_suffix] after the loop
    [for b in range(len(plaintext_suffix) * 8)]. The key is in scope but
    the loop does not read it. *)
Definition middle_signature_suffix (key : RSAKey) (plaintext_suffix : list Z) : Z :=
  fold_left (suffix_bit plaintext_suffix) (range 0 (len plaintext_suffix * 8)) 1.

(** [RSAKey.decrypt] on an integer: [pow(ciphertext, d, n)]; the [PyRSA]
    object of a public key has no private exponent and raises. *)
Definition decrypt (key : RSAKey) (ciphertext : Z) : result Z :=
  if has_private key then Ok (pow_mod ciphertext (int_of (key_d key)) (key_n key))
  else Err PyException.

(** [deepcopy(self.texts)]: every dictionary is copied to a new address,
    once; [memo] maps the addresses met so far to their copies. *)
Fixpoint deepcopy_texts (st : store) (memo : list (nat * nat)) (ts : list nat)
  : result (store * list nat) :=
  match ts with
  | [] => Ok (st, [])
  | a :: rest =>
      match List.find (fun m => Nat.eqb (fst m) a) memo with
      | Some m =>
          let* r := deepcopy_texts st memo rest in
          Ok (fst r, snd m :: snd r)
      | None =>
          let* t := of_option (st !! a) in
          let* r := deepcopy_texts (st ++ [t]) ((a, length st) :: memo) rest in
          Ok (fst r, length st :: snd r)
      end
  end.

(** [RSAKey.copy(identifier)] *)
Definition copy (obj_id : string) (draws : list Z) (st : store) (key : RSAKey)
           (identifier : string) : result (store * RSAKey) :=
  let* r := (if has_private key then
               init obj_id draws (key_n key) (key_e key) (key_d key) (key_p key) (key_q key)
                    [] identifier
             else
               init obj_id draws (key_n key) (key_e key) None None None [] identifier) in
  let* c := deepcopy_texts st [] (texts key) in
  Ok (fst c, set_texts (fst r) (snd c)).

(** [RSAKey.publickey(identifier)] *)
Definition publickey (obj_id : string) (st : store) (key : RSAKey) (identifier : string)
  : result (store * RSAKey) :=
  let* r := init obj_id [] (key_n key) (key_e key) None None None []
                 (identifier ++ " - publickey") in
  let* c := deepcopy_texts st [] (texts key) in
  Ok (fst c, set_texts (fst r) (snd c)).

(** [RSAKey.clear_texts] *)
Definition clear_texts (key : RSAKey) : RSAKey := set_texts key [].

(** [RSAKey.__str__] *)
Definition to_str (key : RSAKey) : string :=
  if has_private key then (identifier key ++ " (private)")%string
  else (identifier key ++ " (public)")%string.

(** The private key that [faulty] builds from a factor [p] of the modulus
    (lines 428-430 and 438-440). *)
Definition faulty_key (obj_id : string) (key : RSAKey) (p : Z) : result (option RSAKey) :=
  let* r := construct obj_id [] (key_n key) (key_e key) None (Some p) None []
                      (identifier key ++ "-private") in
  Ok (Some (set_texts (fst r) (texts key))).

(** The first loop of [faulty]: the factor from a message and its faulty
    signature, [gcd(signature^e - padding(message), n)]. *)
Fixpoint faulty_pairs (padding : option (Z -> Z)) (key : RSAKey) (pairs : list text_pair)
  : option Z :=
  match pairs with
  | [] => None
  | t :: rest =>
      match plain t, cipher t with
      | Some message, Some signature =>
          let message := match padding with
                         | Some f => f message
                         | None => message
                         end in
          let p := Z.gcd (signature ^ key_e key - message) (key_n key) in
          if negb (p =? 1) && negb (p =? key_n key) then Some p
          else faulty_pairs padding key rest
      | _, _ => faulty_pairs padding key rest
      end
  end.

(** The second loop of [faulty]: the factor from two signatures,
    [gcd(s - s', n)]. *)
Fixpoint faulty_signatures (key : RSAKey) (pairs : list (Z * Z)) : option Z :=
  match pairs with
  | [] => None
  | (s, s') :: rest =>
      let p := Z.gcd (s - s') (key_n key) in
      if negb (p =? 1) && negb (p =? key_n key) then Some p
      else faulty_signatures key rest
  end.

(** [faulty(key, padding)] *)
Definition faulty (obj_id : string) (st : store) (key : RSAKey) (padding : option (Z -> Z))
  : result (option RSAKey) :=
  let* ps := pairs_of st key in
  match faulty_pairs padding key ps with
  | Some p => faulty_key obj_id key p
  | None =>
      let signatures := omap cipher ps in
      match faulty_signatures key (combinations2 signatures) with
      | Some p => faulty_key obj_id key p
      | None => Ok None
      end
  end.

(** One turn of a loop of [blinding]: the pair at [text_no] is treated when
    it holds [have] but not [want]. [rand i] is the value of the [i]-th call
    of [random.randint(2, 100)]; [drawn] counts the calls made. *)
Definition blinding_body (rand : nat -> Z) (oracle : Z -> Z) (key : RSAKey)
           (have want : text_pair -> option Z) (put : text_pair -> Z -> text_pair)
           (acc : list (nat * Z) * store * nat) (text_no : nat)
  : result (list (nat * Z) * store * nat) :=
  let '(recovered, st, drawn) := acc in
  let* a := of_option (texts key !! text_no) in
  let* t := of_option (st !! a) in
  match have t, want t with
  | Some x, None =>
      let blind := rand drawn in
      let blind_enc := encrypt key blind in
      let blinded := (x * blind_enc) mod key_n key in
      let answer := oracle blinded in
      if answer =? 0 then Err InvalidArgument
      else
        let* inv := invmod blind (key_n key) in
        let y := (inv * answer) mod key_n key in
        Ok (recovered ++ [(text_no, y)], <[a := put t y]> st, S drawn)
  | _, _ => Ok acc
  end.

Definition blinding_loop (rand : nat -> Z) (oracle : Z -> Z) (key : RSAKey)
           (have want : text_pair -> option Z) (put : text_pair -> Z -> text_pair)
           (acc : list (nat * Z) * store * nat) : result (list (nat * Z) * store * nat) :=
  fold_left (fun r text_no =>
               let* acc' := r in blinding_body rand oracle key have want put acc' text_no)
            (seq 0 (length (texts key))) (Ok acc).

(** [blinding(key, signing_oracle, decryption_oracle)]: the dictionary
    [recovered] and the store. *)
Definition blinding (rand : nat -> Z) (st : store) (key : RSAKey)
           (signing_oracle decryption_oracle : option (Z -> Z))
  : result (list (nat * Z) * store) :=
  match signing_oracle, decryption_oracle with
  | None, None => Err InvalidArgument
  | Some _, Some _ => Err InvalidArgument
  | Some sign, None =>
      let* r := blinding_loop rand sign key plain cipher set_cipher ([], st, 0%nat) in
      Ok (fst (fst r), snd (fst r))
  | None, Some dec =>
      let* r := blinding_loop rand dec key cipher plain set_plain ([], st, 0%nat) in
      Ok (fst (fst r), snd (fst r))
  end.

End RSA.

(* ===================================================================== *)
(** * Part II: notions of the specification and sample inputs             *)
(* ===================================================================== *)

Import RSA.
Local Open Scope string_scope.
Local Open Scope list_scope.
Local Open Scope Z_scope.

(** A public key as its constructor leaves it. *)
Definition public_key (n e : Z) (ts : list nat) (id : string) : RSAKey :=
  {| key_n := n; key_e := e; key_d := None; key_p := None; key_q := None;
     key_size := 8 * ((Z.log2_up n + 7) / 8); identifier := id; texts := ts |}.

(** ** Text pairs *)

(** "Invariant: at least one field is present." *)
Definition has_field (t : text_pair) : bool :=
  match cipher t, plain t with
  | None, None => false
  | _, _ => true
  end.

Definition texts_invariant (st : store) (key : RSAKey) : Prop :=
  forall a, In a (texts key) -> exists t, st !! a = Some t /\ has_field t = true.

(** ** Hastad: three keys, [e = 3], [m = 3] *)

Definition hastad_keys : list RSAKey :=
  [public_key 55 3 [0%nat] "k1"; public_key 391 3 [1%nat] "k2"; public_key 1189 3 [2%nat] "k3"].

Definition hastad_store : store :=
  map (fun key => {| cipher := Some (3 ^ 3 mod key_n key); plain := None |}) hastad_keys.

(** ** Common primes: 55 = 5 * 11 and 187 = 11 * 17 *)

Definition shared_keys : list RSAKey :=
  [public_key 55 3 [0%nat] "a"; public_key 187 3 [1%nat] "b"].

Definition shared_store : store :=
  [{| cipher := Some 8; plain := None |}; {| cipher := Some 27; plain := None |}].

(** ** Hash values *)

(** The message "hello" as an integer, and its SHA-1 digest. *)
Definition hello : Z := 448378203247.

Definition sha1_hello : list Z :=
  [170; 244; 198; 29; 220; 197; 232; 162; 218; 190; 222; 15; 59; 72; 44; 217; 174; 169; 67; 77].

(** The hash primitives at the one point where the sample inputs call
    them. *)
Definition sample_hashlib (hash_function : string) (data : list Z) : list Z :=
  if String.eqb hash_function "sha1" && bool_decide (data = i2b hello) then sha1_hello else [].

(** ** The middle variant of the signature forgery *)

(** What the loop that builds [signature_suffix] keeps true before it
    treats bit [b]: the number is odd, fits in [b] bits, and its cube agrees
    with the target [s] on the low [b] bits. *)
Definition suffix_inv (s ss b : Z) : Prop :=
  ss mod 2 = 1 /\ 0 <= ss < 2 ^ Z.max b 1 /\ (ss ^ 3) mod 2 ^ b = s mod 2 ^ b.

(** ** The suffix variant of the signature forgery *)

Definition asn1_sha1 : list Z := [48; 33; 48; 9; 6; 5; 43; 14; 3; 2; 26; 5; 0; 4; 20].

(** A key of 512 bits with [e = 3]: too short for the forgery. *)
Definition short_key : RSAKey :=
  public_key
    8577288823368547777506365985770224479850160628302699760245892380428760863957651136633966766711570092609774782124423628890412995309570862409421087797262833
    3 [0%nat] "short".

(** A key of 1024 bits with [e = 3]. *)
Definition long_key : RSAKey :=
  public_key
    135580788759405669383425809129769499789588939748030114560065169939647362053778121493149058782410844796278175369150359583999101894732510237397895750868073769273435083965157717021044298212910694740250215183247601240782247420420081181526918872968272271437367466307620337018621083883259927883850920058707763160201
    3 [0%nat] "long".

(** The store in which the first pair holds the plaintext "hello". *)
Definition hello_store : store := [{| cipher := None; plain := Some hello |}].

(** The integer that the suffix variant takes the root of (lines 619-620). *)
Definition suffix_target (key : RSAKey) (plaintext_prefix : list Z) : Z :=
  b2i (plaintext_prefix ++ repeat 0 (Z.to_nat (key_size key / 8 - len plaintext_prefix))).

(** "[s^e mod n], encoded in [size/8] bytes, begins with [prefix]". *)
Definition begins_with_prefix (key : RSAKey) (plaintext_prefix : list Z) (signature : Z) : Prop :=
  slice_to (i2b_size ((signature ^ key_e key) mod key_n key) (key_size key))
           (len plaintext_prefix) = plaintext_prefix.

#[global] Instance begins_with_prefix_dec key plaintext_prefix signature :
  Decision (begins_with_prefix key plaintext_prefix signature).
Proof. unfold begins_with_prefix. apply _. Defined.

(** ** The parity oracle *)

(** Decryption inverts encryption on the residues of [n]: what makes
    [(n, e, d)] a working private key. *)
Definition rsa_inverts (n e d : Z) : Prop :=
  forall x, 0 <= x < n -> ((x ^ e mod n) ^ d) mod n = x.

(** The parity oracle of the private key [(n, d)]: "LSB of the decrypted
    plaintext". *)
Definition lsb_oracle (n d : Z) (ciphertext : Z) : Z := pow_mod ciphertext d n mod 2.

(** What the loop of [parity] keeps true after [k] turns, for the plaintext
    [m]: [numerator] is the integer part of [2^k * m / n], and the loop holds
    the ciphertext of the remainder. *)
Definition parity_inv (n e m : Z) (calls0 : list Z) (s : parity_state) (k : Z) : Prop :=
  0 <= k /\ counter s = k /\ denominator s = 2 ^ k
  /\ 0 <= numerator s
  /\ 0 <= 2 ^ k * m - numerator s * n < n
  /\ p_cipher s = ((2 ^ k * m - numerator s * n) ^ e) mod n
  /\ lower_bound s = (n * numerator s) / 2 ^ k
  /\ upper_bound s = (n * (numerator s + 1)) / 2 ^ k
  /\ len (calls s) = len calls0 + k.

(** ** The padding-oracle engine *)

Import CBC.

(** The verdict of the oracle on the query that [decrypt] builds from the
    guess [g], when the previous response is [r]. *)
Definition verdict {R} (oracle : list Z -> list Z -> R -> bool * R) (self : PaddingOracle)
           (payload_prefix payload_decrypt : list Z) (s : state R) (g : Z) (r : R) : bool :=
  fst (oracle (snd (query self payload_prefix payload_decrypt s g))
              (fst (query self payload_prefix payload_decrypt s g)) r).

(** "256 guesses at one position all return false." *)
Definition all_rejected {R} (oracle : list Z -> list Z -> R -> bool * R) (self : PaddingOracle)
           (payload_prefix payload_decrypt : list Z) (s : state R) : Prop :=
  forall g r, In g (range 0 256) -> verdict oracle self payload_prefix payload_decrypt s g r = false.

(** The state in which the engine goes on after 256 rejections under
    [is_correct]: padding 0x01 is assumed, the bytes from the position on
    are turned towards the padding 0x02, the plaintext is the byte 0x01. *)
Definition assume_padding_1 {R} (s : state R) (r : R) : state R :=
  {| payload_modify := slice_to (payload_modify s) (position s)
                       ++ xor [slice_from (payload_modify s) (position s); [1]; [2]];
     position := position s - 1;
     plaintext := [1];
     is_correct := false;
     resp := r |}.

(** An oracle that rejects every query. *)
Definition deaf_oracle (payload iv : list Z) (previous_resp : unit) : bool * unit := (false, tt).

Definition oracle16 : PaddingOracle := {| block_size := 16 |}.

(** A key of the toy cipher under which the block ['A' * 16] decrypts to a
    block that ends in the bytes 0x43 0x02. *)
Definition filler_key : list Z := repeat 0 14 ++ [2; 67].

(** Another key of the toy cipher. *)
Definition other_key : list Z := [1; 2; 3; 4; 5; 6; 7; 8; 9; 10; 11; 12; 13; 14; 15; 16].

(** "YELLOW SUBMARINE" *)
Definition yellow_submarine : list Z :=
  [89; 69; 76; 76; 79; 87; 32; 83; 85; 66; 77; 65; 82; 73; 78; 69].

(** The state of [decrypt] when it begins the block ['A' * 16]. *)
Definition filler_state : state unit :=
  {| payload_modify := repeat 65 16; position := 15; plaintext := [];
     is_correct := false; resp := tt |}.

(** ** Copies of a key *)

(** The copy that [memo] records for the dictionary at [a]. *)
Definition copy_of (memo : list (nat * nat)) (a : nat) : option nat :=
  option_map snd (List.find (fun m => Nat.eqb (fst m) a) memo).

(** What the memo of [deepcopy] keeps true: every dictionary of the
    original store [st0] that it lists has its copy at a new address of
    [st], with the same contents, and no two dictionaries share a copy. *)
Definition memo_ok (st0 st : store) (memo : list (nat * nat)) : Prop :=
  (forall a a', copy_of memo a = Some a' ->
                (length st0 <= a' < length st)%nat /\ (a < length st0)%nat /\
                st !! a' = st0 !! a) /\
  (forall a b x, copy_of memo a = Some x -> copy_of memo b = Some x -> a = b).

(** Every address of the key is an address of the store. *)
Definition texts_valid (st : store) (key : RSAKey) : Prop :=
  forall a, In a (texts key) -> (a < length st)%nat.

(** A store and a key whose first and third text pair are one dictionary. *)
Definition alias_store : store :=
  [{| cipher := Some 8; plain := None |}; {| cipher := Some 27; plain := Some 3 |}].

Definition alias_key : RSAKey := public_key 55 3 [0%nat; 1%nat; 0%nat] "k".

(** ** Faulty signatures *)

(** The message as [faulty] compares it: [padding(message)] when a padding
    is given. *)
Definition padded (padding : option (Z -> Z)) (message : Z) : Z :=
  match padding with
  | Some f => f message
  | None => message
  end.

(** ** Blinding *)

(** The oracle of the private key [(n, d)]: it signs, or decrypts, by
    raising to the power [d] modulo [n]. *)
Definition power_oracle (n d : Z) (x : Z) : Z := pow_mod x d n.

(** What [blinding] has done when it has treated the first [k] pairs of
    the key with an oracle that answers [f]: a pair that held [have] and
    not [want] now holds [f have] as well, and its index is in [recovered]
    with that value; the other pairs and the dictionaries that are not the
    key's are as they were. *)
Definition blinded (have want : text_pair -> option Z) (put : text_pair -> Z -> text_pair)
           (f : Z -> Z) (st : store) (key : RSAKey) (k : nat)
           (recovered : list (nat * Z)) (st' : store) : Prop :=
  length st' = length st /\
  (forall a, (forall i, (i < k)%nat -> texts key !! i <> Some a) -> st' !! a = st !! a) /\
  (forall i a t, (i < k)%nat -> texts key !! i = Some a -> st !! a = Some t ->
     match have t, want t with
     | Some x, None => st' !! a = Some (put t (f x)) /\ In (i, f x) recovered
     | _, _ => st' !! a = Some t /\ ~ In i (map fst recovered)
     end) /\
  (forall i y, In (i, y) recovered -> (i < k)%nat).

(** ** The parity loop under any oracle *)

(** What the loop of [parity] keeps true after [k] turns whatever the
    oracle answers: the bounds are those of the [numerator]-th of the
    [2^k] parts of [[0, n]]. *)
Definition parity_frame (n : Z) (calls0 : list Z) (s : parity_state) (k : Z) : Prop :=
  0 <= k /\ denominator s = 2 ^ k /\ 0 <= numerator s < 2 ^ k
  /\ lower_bound s = (n * numerator s) / 2 ^ k
  /\ upper_bound s = (n * (numerator s + 1)) / 2 ^ k
  /\ len (calls s) = len calls0 + k.

(** What [parity] may have changed in the store: only dictionaries that
    held a ciphertext and no plaintext, and only by giving them a plaintext
    between [0] and [n]. *)
Definition parity_changes (n : Z) (st st' : store) : Prop :=
  length st' = length st /\
  forall a t, st !! a = Some t ->
    st' !! a = Some t \/
    (exists c m, t = {| cipher := Some c; plain := None |} /\ 0 <= m <= n /\
                 st' !! a = Some {| cipher := Some c; plain := Some m |}).

(** ** Arguments of the engine *)

(** The number of blocks that [decrypt] works on: those of the ciphertext
    and, when one is given, the iv. *)
Definition block_count (self : PaddingOracle) (ciphertext : list Z) (iv : option (list Z)) : Z :=
  len ciphertext / block_size self + (if truthy iv then 1 else 0).

(** ** The suffix variant of the signature forgery, over a key *)

(** The round errors of the suffix variant: [range(-5, 5)]. *)
Definition suffix_window : list Z := [-5; -4; -3; -2; -1; 0; 1; 2; 3; 4].

(** What the suffix variant has done when it has treated the first [k]
    pairs of the key. For a pair that held a plaintext [m] and no
    ciphertext, with [s] the root of the padded prefix: either some
    candidate [s + delta] of the window passes, the first such one is in the
    [cipher] field of the pair and is the value of [signatures] at the index
    of the pair, and the candidates tested are those up to it; or none
    passes, all ten were tested, and the pair and [signatures] are as they
    were. The other pairs and the dictionaries that are not the key's are
    as they were, and [signatures] has no other entries. *)
Definition suffix_forged (hashlib : string -> list Z -> list Z) (asn1 : list Z)
           (hash_function : string) (st : store) (key : RSAKey) (k : nat)
           (signatures : list (nat * Z)) (st' : store) : Prop :=
  length st' = length st /\
  (forall a, (forall i, (i < k)%nat -> texts key !! i <> Some a) -> st' !! a = st !! a) /\
  (forall i a t, (i < k)%nat -> texts key !! i = Some a -> st !! a = Some t ->
     match plain t, cipher t with
     | Some m, None =>
         let plaintext_prefix := suffix_plaintext_prefix hashlib asn1 hash_function m in
         let s := fst (iroot (suffix_target key plaintext_prefix) (key_e key)) in
         (exists before delta rest,
             suffix_window = before ++ delta :: rest
             /\ Forall (fun r => ~ begins_with_prefix key plaintext_prefix (s + r)) before
             /\ begins_with_prefix key plaintext_prefix (s + delta)
             /\ suffix_forge hashlib key asn1 hash_function m
                = (Some (s + delta), map (Z.add s) (before ++ [delta]))
             /\ st' !! a = Some (set_cipher t (s + delta))
             /\ In (i, s + delta) signatures)
         \/ (Forall (fun r => ~ begins_with_prefix key plaintext_prefix (s + r)) suffix_window
             /\ suffix_forge hashlib key asn1 hash_function m
                = (None, map (Z.add s) suffix_window)
             /\ st' !! a = Some t
             /\ ~ In i (map fst signatures))
     | _, _ => st' !! a = Some t /\ ~ In i (map fst signatures)
     end) /\
  (forall i y, In (i, y) signatures -> (i < k)%nat) /\
  NoDup (map fst signatures).

(** ** Runs of [decrypt] *)

(** The blocks that [decrypt] works on: those of the ciphertext, behind
    the iv when one is given. *)
Definition decrypt_blocks (self : PaddingOracle) (ciphertext : list Z) (iv : option (list Z))
  : list (list Z) :=
  if truthy iv then bytes_of iv :: chunks ciphertext (block_size self)
  else chunks ciphertext (block_size self).

(** The block numbers that [decrypt] treats, in order:
    [xrange(len(blocks)-1, amount, -1)] for the [amount] of line 58. *)
Definition decrypt_counts (blocks : list (list Z)) (amount : Z) : list Z :=
  range_down (len blocks - 1)
             (if negb (amount =? 0) then len blocks - amount - 1 else amount).

(** The state in which [decrypt] begins a block whose predecessor is [pm]. *)
Definition block_start {R} (self : PaddingOracle) (pm pt : list Z) (ic : bool) (r : R)
  : state R :=
  {| payload_modify := pm; position := block_size self - 1; plaintext := pt;
     is_correct := ic; resp := r |}.

(** The response that the turn which begins in the state [s] passes to the
    call for the guess [g], when each of the guesses below [g] has taken one
    call of the oracle. *)
Definition resp_before {R} (oracle : list Z -> list Z -> R -> bool * R) (self : PaddingOracle)
           (payload_prefix payload_decrypt : list Z) (s : state R) (g : Z) : R :=
  fold_left (fun r g' => snd (oracle (snd (query self payload_prefix payload_decrypt s g'))
                                     (fst (query self payload_prefix payload_decrypt s g')) r))
            (range 0 g) (resp s).

(** The verdict of the oracle on the guess [g] of that turn. *)
Definition accepts {R} (oracle : list Z -> list Z -> R -> bool * R) (self : PaddingOracle)
           (payload_prefix payload_decrypt : list Z) (s : state R) (g : Z) : bool :=
  verdict oracle self payload_prefix payload_decrypt s g
          (resp_before oracle self payload_prefix payload_decrypt s g).

(** Points of a run of [decrypt] on [blocks]: the numbers of the blocks
    still to decrypt, the current one first, with the state at the head of
    [while position >= 0]. The run goes from one point to the next by a
    turn of that loop (the 256 guesses and lines 156-164), or, when the
    position has passed 0, by beginning the next block (lines 89-94). *)
Inductive comes_to {R} (oracle : list Z -> list Z -> R -> bool * R) (self : PaddingOracle)
          (blocks : list (list Z)) : list Z * state R -> list Z * state R -> Prop :=
| comes_here c : comes_to oracle self blocks c c
| comes_turn count rest s payload_decrypt found s1 s2 c' :
    0 <= position s ->
    index blocks count = Some payload_decrypt ->
    guess_loop oracle self (range 0 256) blocks (concat (slice_to blocks (count - 1)))
               payload_decrypt s = Ok (found, s1) ->
    after_guesses found s1 = Ok s2 ->
    comes_to oracle self blocks (count :: rest, s2) c' ->
    comes_to oracle self blocks (count :: rest, s) c'
| comes_block count count' rest s payload_decrypt pm' c' :
    position s < 0 ->
    index blocks count = Some payload_decrypt ->
    index blocks (count' - 1) = Some pm' ->
    comes_to oracle self blocks
             (count' :: rest, block_start self pm' (plaintext s) (is_correct s) (resp s)) c' ->
    comes_to oracle self blocks (count :: count' :: rest, s) c'.

(** What [decrypt] returns from a point of its run on. *)
Definition run_from {R} (oracle : list Z -> list Z -> R -> bool * R) (self : PaddingOracle)
           (blocks : list (list Z)) (c : list Z * state R) : result (list Z) :=
  match fst c with
  | [] => Ok (plaintext (snd c))
  | count :: rest =>
      let* payload_decrypt := of_option (index blocks count) in
      let* s' := position_loop oracle self (Z.to_nat (position (snd c) + 1)) blocks
                               (concat (slice_to blocks (count - 1))) payload_decrypt (snd c) in
      let* c' := block_loop oracle self blocks rest
                            {| c_plaintext := plaintext s'; c_is_correct := is_correct s';
                               c_resp := resp s'; c_position_known := 0 |} in
      Ok (c_plaintext c')
  end.

(** An oracle that accepts every query. *)
Definition eager_oracle (payload iv : list Z) (previous_resp : unit) : bool * unit := (true, tt).

(* ===================================================================== *)
(** * Part III: properties                                                *)
(* ===================================================================== *)

(** ** Text pairs of a key (C9) *)

Lemma append_pair_invariant (st : store) key t :
  has_field t = true ->
  (forall a, In a (texts key) -> (a < length st)%nat) ->
  texts_invariant st key ->
  texts_invariant (fst (append_pair st key t)) (snd (append_pair st key t)).
Proof.
  intros Ht Hdom Hinv a Ha. simpl in *.
  apply in_app_or in Ha. destruct Ha as [Ha | [<- | []]].
  - destruct (Hinv a Ha) as [t' [Hl Hf]]. exists t'. split; [|exact Hf].
    rewrite lookup_app_l; [exact Hl | apply Hdom, Ha].
  - exists t. split; [|exact Ht].
    rewrite lookup_app_r by lia. now rewrite Nat.sub_diag.
Qed.

(** With [position=None], [add_ciphertext] appends a pair that holds the
    ciphertext, whatever the argument is. *)
Lemma add_ciphertext_keeps_invariant st key v st' key' :
  (forall a, In a (texts key) -> (a < length st)%nat) ->
  texts_invariant st key ->
  add_ciphertext st key v None = Ok (st', key') ->
  texts_invariant st' key'.
Proof.
  intros Hdom Hinv H. unfold add_ciphertext in H.
  destruct (to_number v) as [c|]; simpl in H; [|discriminate].
  injection H as <- <-.
  apply (append_pair_invariant st key {| cipher := Some c; plain := None |});
    auto.
Qed.

(** C9, at the input that breaks it: [add_text_pair(ciphertext='abc')] on a
    key without texts passes the guard for "no ciphertext and no plaintext",
    stores neither field because the argument is not a number, and appends
    the empty dictionary: the key then has a text pair without any field. *)
Theorem add_text_pair_appends_empty_pair :
  let r := add_text_pair [] (public_key 55 3 [] "k") (VStr [97; 98; 99]) VNone in
  pairs_of (fst r) (snd r) = Ok [{| cipher := None; plain := None |}]
  /\ ~ texts_invariant (fst r) (snd r).
Proof.
  split; [reflexivity|].
  intros H. destruct (H 0%nat) as [t [Hl Hf]]; [simpl; auto|].
  simpl in Hl. injection Hl as <-. discriminate.
Qed.

(** ** Hastad's broadcast attack (C4) *)

(** C4, at the input that breaks it: three keys with exponent 3 and the
    pairwise coprime moduli 55, 391 and 1189, each holding the ciphertext of
    [m = 3]. As every modulus exceeds [m^3 = 27] the three ciphertexts are
    equal, the second and third key are dropped as duplicates, and the
    plaintext comes from [small_e_msg]: [hastad] returns 3 and returns before
    the loop that writes it to the keys, whose pairs stay without [plain]. *)
Theorem hastad_returns_without_writing :
  hastad hastad_store hastad_keys None = Ok (Some 3, hastad_store)
  /\ Forall (fun key => 27 < key_n key /\ key_e key = 3) hastad_keys
  /\ Forall (fun t => cipher t = Some 27 /\ plain t = None) hastad_store.
Proof.
  split; [vm_compute; reflexivity|].
  split; repeat constructor; vm_compute; congruence.
Qed.

(** ** Common primes (C8) *)

(** The key that [common_primes] derives lists the very dictionaries of its
    source. *)
Lemma derive_private_shares_texts obj_id draws key prime new_key draws' :
  derive_private obj_id draws key prime = Ok (new_key, draws') ->
  texts new_key = texts key.
Proof.
  unfold derive_private. intros H.
  destruct (floordiv _ _); simpl in H; [|discriminate].
  destruct (invmod _ _); simpl in H; [|discriminate].
  destruct (construct _ _ _ _ _ _ _ _ _) as [[k dr]|]; simpl in H; [|discriminate].
  now injection H as <- _.
Qed.

(** C8, at the input that breaks it: the moduli 55 and 187 share the prime
    11. [common_primes] returns the two private keys, with
    [d = invmod(e, (11 - 1) * (n / 11 - 1))] and the suffix "-private", but
    their [texts] are lists of the dictionaries of the source keys: setting
    [plain] in the first pair of the first derived key sets it in the first
    pair of the source key as well. *)
Theorem common_primes_shares_text_pairs :
  forall obj_id,
  exists ka kb st',
    common_primes obj_id [2; 3] shared_keys = Ok [ka; kb]
    /\ key_d ka = Some 27 /\ key_d kb = Some 107
    /\ invmod 3 ((11 - 1) * (55 / 11 - 1)) = Ok 27
    /\ invmod 3 ((11 - 1) * (187 / 11 - 1)) = Ok 107
    /\ identifier ka = "a-private" /\ identifier kb = "b-private"
    /\ add_plaintext shared_store ka (VInt 2) (Some 0) = Ok (st', ka)
    /\ pairs_of shared_store (public_key 55 3 [0%nat] "a")
       = Ok [{| cipher := Some 8; plain := None |}]
    /\ pairs_of st' (public_key 55 3 [0%nat] "a")
       = Ok [{| cipher := Some 8; plain := Some 2 |}].
Proof.
  intros obj_id. eexists _, _, _.
  split; [vm_compute; reflexivity|].
  repeat split; vm_compute; reflexivity.
Qed.

(** ** The middle variant of the signature forgery (C10) *)

Lemma land_pow2 x b : 0 <= b -> Z.land x (2 ^ b) = 2 ^ b * ((x / 2 ^ b) mod 2).
Proof.
  intros Hb. rewrite <- (Z.testbit_spec' x b Hb).
  apply Z.bits_inj'. intros i Hi.
  rewrite Z.land_spec, Z.pow2_bits_eqb by lia.
  destruct (Z.testbit x b) eqn:Hx; simpl.
  - rewrite Z.mul_1_r, Z.pow2_bits_eqb by lia.
    destruct (Z.eqb_spec b i); subst; [now rewrite Hx | apply andb_false_r].
  - rewrite Z.mul_0_r, Z.bits_0.
    destruct (Z.eqb_spec b i); subst; [now rewrite Hx | apply andb_false_r].
Qed.

Lemma mod_double x P : 0 < P -> x mod (2 * P) = x mod P + P * ((x / P) mod 2).
Proof. intros HP. rewrite (Z.mul_comm 2 P). apply Z.rem_mul_r; lia. Qed.

Lemma bit_cases x P : (x / P) mod 2 = 0 \/ (x / P) mod 2 = 1.
Proof. pose proof (Z.mod_pos_bound (x / P) 2). lia. Qed.

Lemma cube_flip ss P :
  0 < P -> P mod 2 = 0 -> ss mod 2 = 1 ->
  ((ss + P) ^ 3) mod P = (ss ^ 3) mod P
  /\ (((ss + P) ^ 3) / P) mod 2 = 1 - ((ss ^ 3) / P) mod 2.
Proof.
  intros HP HPe Hss.
  set (t := 3 * ss ^ 2 + 3 * ss * P + P ^ 2).
  assert (E : (ss + P) ^ 3 = ss ^ 3 + t * P) by (unfold t; ring).
  assert (Ht : t mod 2 = 1).
  { pose proof (Z.div_mod ss 2 ltac:(lia)) as Es.
    pose proof (Z.div_mod P 2 ltac:(lia)) as EP.
    rewrite Hss in Es. rewrite HPe in EP.
    set (a := ss / 2) in *. set (c := P / 2) in *.
    replace t with (1 + (6 * a ^ 2 + 6 * a + 1 + 3 * (2 * a + 1) * c + 2 * c ^ 2) * 2)
      by (unfold t; rewrite Es, EP; ring).
    now rewrite Z.mod_add by lia. }
  rewrite E. split.
  - apply Z.mod_add; lia.
  - rewrite Z.div_add by lia.
    rewrite Z.add_mod, Ht by lia.
    destruct (bit_cases (ss ^ 3) P) as [-> | ->]; reflexivity.
Qed.

Lemma lor_pow2 ss b : 0 <= b -> 0 <= ss < 2 ^ b -> Z.lor ss (2 ^ b) = ss + 2 ^ b.
Proof.
  intros Hb Hss.
  assert (H0 : Z.land ss (2 ^ b) = 0).
  { rewrite land_pow2 by lia. rewrite Z.div_small by lia. change (0 mod 2) with 0. lia. }
  rewrite <- Z.lxor_lor by exact H0. symmetry. apply Z.add_nocarry_lxor. exact H0.
Qed.

Lemma suffix_bit_step plaintext_suffix ss b :
  0 <= b -> b2i plaintext_suffix mod 2 = 1 ->
  suffix_inv (b2i plaintext_suffix) ss b ->
  suffix_inv (b2i plaintext_suffix) (suffix_bit plaintext_suffix ss b) (b + 1).
Proof.
  intros Hb Hodd (Hss & Hr & Hm). unfold suffix_bit.
  set (s := b2i plaintext_suffix) in *.
  rewrite Z.shiftl_1_l, !land_pow2 by lia.
  assert (HP : 0 < 2 ^ b) by (apply Z.pow_pos_nonneg; lia).
  assert (E2 : 2 ^ (b + 1) = 2 * 2 ^ b) by (rewrite Z.pow_add_r by lia; change (2 ^ 1) with 2; lia).
  destruct (Z.eq_dec b 0) as [-> | Hb0].
  - (* bit 0: both numbers are odd *)
    simpl in *. rewrite !Z.div_1_r.
    assert (Hc : (ss ^ 3) mod 2 = 1).
    { replace (ss ^ 3) with (ss * ss * ss) by ring.
      rewrite Z.mul_mod, (Z.mul_mod ss ss), Hss by lia. reflexivity. }
    rewrite Hc, Hodd, Z.eqb_refl. simpl. unfold suffix_inv.
    change (2 ^ (0 + 1)) with 2. change (2 ^ Z.max (0 + 1) 1) with 2.
    change (2 ^ Z.max 0 1) with 2 in Hr.
    repeat split; lia.
  - unfold suffix_inv. replace (Z.max b 1) with b in Hr by lia.
    replace (Z.max (b + 1) 1) with (b + 1) by lia.
    rewrite E2.
    destruct (Z.eqb_spec (2 ^ b * ((ss ^ 3 / 2 ^ b) mod 2)) (2 ^ b * ((s / 2 ^ b) mod 2)))
      as [He | Hne]; simpl.
    + repeat split; try lia.
      rewrite !mod_double by lia. lia.
    + rewrite lor_pow2 by lia.
      assert (HPe : 2 ^ b mod 2 = 0).
      { replace b with (Z.succ (b - 1)) by lia. rewrite Z.pow_succ_r by lia.
        rewrite Z.mul_comm. apply Z.mod_mul. lia. }
      destruct (cube_flip ss (2 ^ b) HP HPe Hss) as [C1 C2].
      repeat split; try lia.
      * rewrite Z.add_mod, Hss, HPe by lia. reflexivity.
      * rewrite !mod_double by lia. rewrite C1, C2, Hm.
        destruct (bit_cases (ss ^ 3) (2 ^ b)) as [Hx | Hx],
                 (bit_cases s (2 ^ b)) as [Hy | Hy];
          rewrite Hx, Hy in *; try reflexivity; exfalso; apply Hne; reflexivity.
Qed.

Lemma suffix_loop_inv plaintext_suffix n :
  b2i plaintext_suffix mod 2 = 1 ->
  suffix_inv (b2i plaintext_suffix)
             (fold_left (suffix_bit plaintext_suffix) (range 0 (Z.of_nat n)) 1)
             (Z.of_nat n).
Proof.
  intros Hodd. unfold range. rewrite Z.sub_0_r, Nat2Z.id.
  induction n as [|n IH].
  - simpl. unfold suffix_inv. simpl. repeat split; try lia.
    now rewrite !Z.mod_1_r.
  - rewrite seq_S, map_app, fold_left_app. simpl fold_left.
    rewrite Nat2Z.inj_succ. unfold Z.succ.
    apply suffix_bit_step; [lia | exact Hodd | exact IH].
Qed.

(** C10: in the middle variant, whenever the block
    [00 || ASN1(hash) || H(m)] has an odd value [s] (the test of line 642),
    the loop that starts from 1 and runs over the [8 * |suffix|] bits leaves
    in [signature_suffix] a number whose cube is congruent to [s] modulo
    [2^(8 * |suffix|)]. The exponent is the constant 3: the result is the
    same for every key, whatever its public exponent. *)
Theorem middle_signature_suffix_cube
        (hashlib : string -> list Z -> list Z) (key : RSAKey)
        (hash_function : string) (asn1 : list Z) (m : Z) :
  hash_asn1 hash_function = Some asn1 ->
  Z.land (b2i (middle_plaintext_suffix hashlib asn1 hash_function m)) 1 = 1 ->
  let plaintext_suffix := middle_plaintext_suffix hashlib asn1 hash_function m in
  let signature_suffix := middle_signature_suffix key plaintext_suffix in
  (signature_suffix ^ 3) mod 2 ^ (8 * len plaintext_suffix)
  = b2i plaintext_suffix mod 2 ^ (8 * len plaintext_suffix)
  /\ forall key' : RSAKey, middle_signature_suffix key' plaintext_suffix = signature_suffix.
Proof.
  intros _ Hodd plaintext_suffix signature_suffix.
  split; [|reflexivity].
  assert (Hodd' : b2i plaintext_suffix mod 2 = 1).
  { rewrite <- Hodd. symmetry. apply (Z.land_ones _ 1). lia. }
  destruct (suffix_loop_inv plaintext_suffix (length plaintext_suffix * 8) Hodd')
    as (_ & _ & H).
  unfold signature_suffix, middle_signature_suffix, len.
  replace (8 * Z.of_nat (length plaintext_suffix))
    with (Z.of_nat (length plaintext_suffix * 8)) by lia.
  replace (Z.of_nat (length plaintext_suffix) * 8)
    with (Z.of_nat (length plaintext_suffix * 8)) by lia.
  exact H.
Qed.


(** The theorem at the message "hello" with SHA-1, for a key with [e = 65537]. *)
Lemma middle_signature_suffix_cube_witness :
  Z.land (b2i (middle_plaintext_suffix sample_hashlib
                 [48; 33; 48; 9; 6; 5; 43; 14; 3; 2; 26; 5; 0; 4; 20] "sha1" hello)) 1 = 1
  /\ let plaintext_suffix :=
       middle_plaintext_suffix sample_hashlib
         [48; 33; 48; 9; 6; 5; 43; 14; 3; 2; 26; 5; 0; 4; 20] "sha1" hello in
     let signature_suffix :=
       middle_signature_suffix (public_key 391 65537 [] "k") plaintext_suffix in
     (signature_suffix ^ 3) mod 2 ^ (8 * len plaintext_suffix)
     = b2i plaintext_suffix mod 2 ^ (8 * len plaintext_suffix)
     /\ forall key' : RSAKey, middle_signature_suffix key' plaintext_suffix = signature_suffix.
Proof.
  assert (H : Z.land (b2i (middle_plaintext_suffix sample_hashlib
                 [48; 33; 48; 9; 6; 5; 43; 14; 3; 2; 26; 5; 0; 4; 20] "sha1" hello)) 1 = 1)
    by (vm_compute; reflexivity).
  split; [exact H|].
  exact (middle_signature_suffix_cube sample_hashlib (public_key 391 65537 [] "k") "sha1"
           [48; 33; 48; 9; 6; 5; 43; 14; 3; 2; 26; 5; 0; 4; 20] hello eq_refl H).
Defined.

(** ** Modular powers *)

Lemma pow_mod_pos_spec a b m : m <> 0 -> pow_mod_pos a b m = (a ^ Zpos b) mod m.
Proof.
  intros Hm. induction b as [b IH | b IH |]; simpl pow_mod_pos.
  - rewrite IH, Pos2Z.inj_xI.
    replace (2 * Zpos b + 1) with (Zpos b + Zpos b + 1) by lia.
    rewrite !Z.pow_add_r, Z.pow_1_r by lia.
    symmetry. rewrite <- Z.mul_mod_idemp_l by assumption.
    rewrite (Z.mul_mod (a ^ Zpos b) (a ^ Zpos b)) by assumption.
    rewrite Z.mul_mod_idemp_l by assumption. reflexivity.
  - rewrite IH, Pos2Z.inj_xO.
    replace (2 * Zpos b) with (Zpos b + Zpos b) by lia.
    rewrite Z.pow_add_r by lia.
    rewrite (Z.mul_mod (a ^ Zpos b) (a ^ Zpos b)) by assumption. reflexivity.
  - now rewrite Z.pow_1_r.
Qed.

Lemma pow_mod_spec a b m : 0 <= b -> m <> 0 -> pow_mod a b m = (a ^ b) mod m.
Proof.
  intros Hb Hm. destruct b as [|b|b]; simpl pow_mod.
  - reflexivity.
  - now apply pow_mod_pos_spec.
  - lia.
Qed.

(** ** The suffix variant of the signature forgery (C5) *)

Lemma suffix_candidate_eq key plaintext_prefix plaintext round_error :
  0 <= key_e key -> key_n key <> 0 ->
  suffix_candidate key plaintext_prefix plaintext round_error
  = (fst (iroot plaintext (key_e key)) + round_error,
     bool_decide (begins_with_prefix key plaintext_prefix
                    (fst (iroot plaintext (key_e key)) + round_error))).
Proof.
  intros He Hn. unfold suffix_candidate, begins_with_prefix.
  destruct (iroot plaintext (key_e key)) as [s ex]. simpl fst.
  now rewrite pow_mod_spec.
Qed.

(** The search stops at the first round error whose candidate passes. *)
Lemma suffix_search_spec key plaintext_prefix plaintext round_errors :
  0 <= key_e key -> key_n key <> 0 ->
  let s := fst (iroot plaintext (key_e key)) in
  (exists before delta rest,
      round_errors = before ++ delta :: rest
      /\ Forall (fun r => ~ begins_with_prefix key plaintext_prefix (s + r)) before
      /\ begins_with_prefix key plaintext_prefix (s + delta)
      /\ suffix_search key plaintext_prefix plaintext round_errors
         = (Some (s + delta), map (Z.add s) (before ++ [delta])))
  \/ (Forall (fun r => ~ begins_with_prefix key plaintext_prefix (s + r)) round_errors
      /\ suffix_search key plaintext_prefix plaintext round_errors
         = (None, map (Z.add s) round_errors)).
Proof.
  intros He Hn s. induction round_errors as [|r l IH].
  - right. split; [constructor | reflexivity].
  - cbn [suffix_search]. rewrite suffix_candidate_eq by assumption. fold s.
    destruct (bool_decide_reflect (begins_with_prefix key plaintext_prefix (s + r)))
      as [Hp | Hp].
    + left. exists [], r, l. repeat split; [constructor | exact Hp].
    + destruct IH as [(before & delta & rest & -> & Hb & Hd & ->) | [Hall ->]].
      * left. exists (r :: before), delta, rest.
        repeat split; [constructor; assumption | exact Hd].
      * right. split; [constructor; assumption | reflexivity].
Qed.

(** C5 as stated fails: for the 512-bit key and the plaintext "hello" no
    candidate passes, and the candidates tested are [s - 5, ..., s + 4]:
    [range(-5, 5)] ends at 4, so [s + 5] is not among them. *)
Lemma suffix_forgery_skips_plus_5 :
  let plaintext_prefix := suffix_plaintext_prefix sample_hashlib asn1_sha1 "sha1" hello in
  let s := fst (iroot (suffix_target short_key plaintext_prefix) (key_e short_key)) in
  fst (suffix_forge sample_hashlib short_key asn1_sha1 "sha1" hello) = None
  /\ ~ (forall delta, -5 <= delta <= 5 ->
        In (s + delta) (snd (suffix_forge sample_hashlib short_key asn1_sha1 "sha1" hello))).
Proof.
  intros plaintext_prefix s.
  assert (Hb : existsb (Z.eqb (s + 5))
                 (snd (suffix_forge sample_hashlib short_key asn1_sha1 "sha1" hello)) = false)
    by (vm_compute; reflexivity).
  split; [vm_compute; reflexivity|].
  intros H. specialize (H 5 ltac:(lia)).
  apply not_true_iff_false in Hb. apply Hb.
  apply existsb_exists. exists (s + 5). split; [exact H | apply Z.eqb_refl].
Qed.

(** At that input the search ends at [s + 1]. *)
Lemma suffix_forgery_long_key :
  fst (suffix_forge sample_hashlib long_key asn1_sha1 "sha1" hello)
  = Some (fst (iroot (suffix_target long_key
                        (suffix_plaintext_prefix sample_hashlib asn1_sha1 "sha1" hello)) 3) + 1).
Proof. vm_compute. reflexivity. Qed.

(** ** The parity attack (C2) *)

Section Parity.

Variables n e d m : Z.
Hypothesis Hn : 1 < n.
Hypothesis Hodd : n mod 2 = 1.
Hypothesis He : 0 <= e.
Hypothesis Hd : 0 <= d.
Hypothesis Hinv : rsa_inverts n e d.

(** The oracle answers with the parity of the plaintext. *)
Lemma lsb_oracle_parity x : 0 <= x < n -> lsb_oracle n d (x ^ e mod n) = x mod 2.
Proof.
  intros Hx. unfold lsb_oracle. rewrite pow_mod_spec by lia. now rewrite Hinv.
Qed.

(** Multiplying by [Enc(2)] doubles the plaintext. *)
Lemma double_cipher x :
  (pow_mod 2 e n * (x ^ e mod n)) mod n = ((2 * x - (if 2 * x <? n then 0 else n)) ^ e) mod n.
Proof.
  rewrite pow_mod_spec by lia.
  rewrite <- Z.mul_mod, <- Z.pow_mul_l by lia.
  destruct (2 * x <? n).
  - now rewrite Z.sub_0_r.
  - rewrite <- (Z.mod_pow_l (2 * x - n)), <- (Z.mod_pow_l (2 * x)).
    f_equal. f_equal.
    replace (2 * x - n) with (2 * x + (-1) * n) by ring. now rewrite Z.mod_add by lia.
Qed.

Lemma doubled_parity x :
  0 <= x < n -> (2 * x - (if 2 * x <? n then 0 else n)) mod 2 = if 2 * x <? n then 0 else 1.
Proof.
  intros Hx. destruct (2 * x <? n).
  - rewrite Z.sub_0_r, Z.mul_comm. apply Z.mod_mul. lia.
  - replace (2 * x - n) with (- n + x * 2) by ring. rewrite Z.mod_add by lia.
    replace (- n) with (n + (- n) * 2) by ring. rewrite Z.mod_add by lia. exact Hodd.
Qed.

(** One turn of the loop keeps the invariant. *)
Lemma parity_step calls0 s k :
  parity_inv n e m calls0 s k ->
  let c := (pow_mod 2 e n * p_cipher s) mod n in
  let is_odd := lsb_oracle n d c in
  let num := if negb (is_odd =? 0) then numerator s * 2 + 1 else numerator s * 2 in
  parity_inv n e m calls0
    {| p_cipher := c; numerator := num; denominator := denominator s * 2;
       lower_bound := (n * num) / (denominator s * 2);
       upper_bound := (n * (num + 1)) / (denominator s * 2);
       counter := counter s + 1; calls := c :: calls s |} (k + 1).
Proof.
  intros (Hk & Hc & Hden & Hnum & Hx & Hp & Hl & Hu & Hcalls) c is_odd num.
  set (x := 2 ^ k * m - numerator s * n) in *.
  assert (E2 : 2 ^ (k + 1) = 2 ^ k * 2) by (rewrite Z.pow_add_r by lia; reflexivity).
  assert (Hc' : c = ((2 * x - (if 2 * x <? n then 0 else n)) ^ e) mod n).
  { unfold c. rewrite Hp. apply double_cipher. }
  assert (Hodd' : is_odd = if 2 * x <? n then 0 else 1).
  { unfold is_odd. rewrite Hc'.
    rewrite lsb_oracle_parity by (destruct (Z.ltb_spec (2 * x) n); lia).
    now apply doubled_parity. }
  assert (Hnum' : num = numerator s * 2 + (if 2 * x <? n then 0 else 1)).
  { unfold num. rewrite Hodd'. destruct (2 * x <? n); simpl; lia. }
  assert (Hx' : 2 ^ (k + 1) * m - num * n = 2 * x - (if 2 * x <? n then 0 else n)).
  { rewrite Hnum', E2. destruct (2 * x <? n); unfold x; ring. }
  assert (Hr : 0 <= 2 * x - (if 2 * x <? n then 0 else n) < n)
    by (destruct (Z.ltb_spec (2 * x) n); lia).
  assert (Hn0 : 0 <= num) by (rewrite Hnum'; destruct (2 * x <? n); lia).
  assert (Hlen : len (c :: calls s) = len calls0 + (k + 1))
    by (unfold len in *; simpl length; lia).
  unfold parity_inv. simpl. rewrite Hx', Hden, E2, Hc.
  repeat split; try lia; try reflexivity; try exact Hc'; exact Hlen.
Qed.

(** When [2^k] has reached [n] the bounds are one apart at most. *)
Lemma bounds_close a k : 0 <= k -> n <= 2 ^ k -> 0 <= a ->
  (n * (a + 1)) / 2 ^ k <= (n * a) / 2 ^ k + 1.
Proof.
  intros Hk Hle Ha.
  assert (HP : 0 < 2 ^ k) by (apply Z.pow_pos_nonneg; lia).
  replace ((n * a) / 2 ^ k + 1) with ((n * a + 1 * 2 ^ k) / 2 ^ k)
    by (rewrite Z.div_add by lia; reflexivity).
  apply Z.div_le_mono; lia.
Qed.

(** As long as [2^(k+1)] has not passed [n] they are two apart at least. *)
Lemma bounds_apart a k : 0 <= k -> 2 * 2 ^ k <= n -> 0 <= a ->
  (n * a) / 2 ^ k + 1 < (n * (a + 1)) / 2 ^ k.
Proof.
  intros Hk Hle Ha.
  assert (HP : 0 < 2 ^ k) by (apply Z.pow_pos_nonneg; lia).
  assert (H : (n * a + 2 * 2 ^ k) / 2 ^ k <= (n * (a + 1)) / 2 ^ k)
    by (apply Z.div_le_mono; lia).
  rewrite Z.div_add in H by lia. lia.
Qed.

(** The loop ends within the turns it is given, and keeps the invariant. *)
Lemma parity_loop_ends calls0 fuel : forall s k,
  parity_inv n e m calls0 s k -> n <= 2 ^ (k + Z.of_nat fuel) ->
  exists s' k',
    parity_loop fuel (lsb_oracle n d) n (pow_mod 2 e n) s = Ok s'
    /\ parity_inv n e m calls0 s' k'
    /\ k <= k' <= k + Z.of_nat fuel
    /\ upper_bound s' <= lower_bound s' + 1.
Proof.
  induction fuel as [|fuel IH]; intros s k HI Hle.
  - exists s, k. rewrite Z.add_0_r in Hle.
    destruct HI as (Hk & Hc & Hden & Hnum & Hx & Hp & Hl & Hu & Hcalls).
    assert (Hcl : upper_bound s <= lower_bound s + 1)
      by (rewrite Hl, Hu; now apply bounds_close).
    simpl. destruct (Z.ltb_spec (lower_bound s + 1) (upper_bound s)); [lia|].
    repeat split; auto; lia.
  - cbn [parity_loop].
    destruct (Z.ltb_spec (lower_bound s + 1) (upper_bound s)) as [Hlt | Hge].
    + destruct (IH _ (k + 1) (parity_step calls0 s k HI)) as (s' & k' & Hrun & HI' & Hk' & Hcl).
      { replace (k + 1 + Z.of_nat fuel) with (k + Z.of_nat (S fuel)) by lia. exact Hle. }
      exists s', k'. split; [exact Hrun|]. split; [exact HI'|]. lia.
    + exists s, k. destruct HI as (Hk & Hrest). repeat split; auto; lia.
Qed.

End Parity.

(** At the end of the loop the upper bound is the plaintext, and the number
    of turns is [ceil(log2 n)] or one less. *)
Lemma parity_result n e m calls0 s k :
  1 < n -> n mod 2 = 1 -> 1 <= m < n ->
  parity_inv n e m calls0 s k ->
  upper_bound s <= lower_bound s + 1 ->
  upper_bound s = m /\ Z.log2_up n - 1 <= k.
Proof.
  intros Hn Hodd Hm (Hk & Hc & Hden & Hnum & Hx & Hp & Hl & Hu & Hcalls) Hcl.
  assert (HP : 0 < 2 ^ k) by (apply Z.pow_pos_nonneg; lia).
  split.
  - assert (H1 : m <= upper_bound s).
    { rewrite Hu. apply Z.div_le_lower_bound; lia. }
    assert (H2 : lower_bound s <= m).
    { rewrite Hl. apply Z.div_le_upper_bound; lia. }
    destruct (Z.eq_dec (lower_bound s) m) as [E | NE]; [exfalso | lia].
    assert (H3 : 2 ^ k * m <= n * numerator s).
    { rewrite <- E, Hl. apply Z.mul_div_le. exact HP. }
    assert (Hdiv : (n | 2 ^ k * m)).
    { exists (numerator s). lia. }
    assert (Hrel : Z.gcd n (2 ^ k) = 1).
    { apply Z.coprime_pow_r; [exact Hk|].
      apply Z.coprime_mod_l_iff. rewrite Hodd. apply Z.coprime_1_l. }
    apply Z.gauss in Hdiv; [|exact Hrel].
    apply Z.divide_pos_le in Hdiv; lia.
  - destruct (Z_le_gt_dec (2 * 2 ^ k) n) as [Hle | Hgt].
    + pose proof (bounds_apart n (numerator s) k Hk Hle Hnum) as H.
      rewrite <- Hl, <- Hu in H. lia.
    + assert (H : Z.log2_up n <= k + 1).
      { apply Z.log2_up_le_pow2; [lia|]. rewrite Z.pow_add_r by lia.
        change (2 ^ 1) with 2. lia. }
      lia.
Qed.

(** C2, at the input that breaks it: the key [(15, 3, 3)], on which
    decryption inverts encryption, and the ciphertext [0 = 0^3 mod 15] of
    the plaintext 0. Every answer of the oracle is 0, the lower bound stays
    0, and the loop ends when the upper bound has come down to 1: [parity]
    returns 1 under the index 0 and writes 1 into [plain], where the
    decrypted ciphertext is 0. *)
Lemma parity_returns_1_for_0 :
  rsa_inverts 15 3 3
  /\ parity (lsb_oracle 15 3) [{| cipher := Some (0 ^ 3 mod 15); plain := None |}]
            (public_key 15 3 [0%nat] "k")
     = Ok ([(0%nat, 1)], [{| cipher := Some 0; plain := Some 1 |}], [1; 0; 0; 0]).
Proof.
  split; [|vm_compute; reflexivity].
  intros x Hx.
  assert (H : x = 0 \/ x = 1 \/ x = 2 \/ x = 3 \/ x = 4 \/ x = 5 \/ x = 6 \/ x = 7 \/ x = 8
              \/ x = 9 \/ x = 10 \/ x = 11 \/ x = 12 \/ x = 13 \/ x = 14) by lia.
  repeat (destruct H as [-> | H]; [reflexivity|]). subst x. reflexivity.
Qed.

(** X18: for a private key [(n, e, d)] with an odd modulus on which
    decryption inverts encryption, and a plaintext [m] with [1 <= m < n]:
    run on a key whose texts hold the one pair [{cipher: m^e mod n}], with
    the oracle that returns the last bit of the decryption, [parity] ends;
    it calls the oracle [1 + k] times (the probe and [k] turns of the loop)
    where [k] is [ceil(log2 n)] or one less; what it returns under the index
    0 and writes into [plain] is the final upper bound
    [n * (numerator + 1) / 2^k], and this is [m]. *)
Theorem parity_recovers_plaintext
        (n e d m : Z) (st : store) (key : RSAKey) (a : nat) :
  1 < n -> n mod 2 = 1 -> 0 <= e -> 0 <= d -> rsa_inverts n e d ->
  1 <= m < n ->
  key_n key = n -> key_e key = e -> texts key = [a] ->
  st !! a = Some {| cipher := Some (m ^ e mod n); plain := None |} ->
  exists calls numerator k,
    parity (lsb_oracle n d) st key
    = Ok ([(0%nat, m)],
          <[a := {| cipher := Some (m ^ e mod n); plain := Some m |}]> st, calls)
    /\ len calls = 1 + k
    /\ Z.log2_up n - 1 <= k <= Z.log2_up n
    /\ m = (n * (numerator + 1)) / 2 ^ k
    /\ m <= (n * numerator) / 2 ^ k + 1.
Proof.
  intros Hn Hodd He Hd Hinv Hm Hkn Hke Hts Hst.
  pose (s0 := {| p_cipher := m ^ e mod n; numerator := 0; denominator := 1;
                 lower_bound := 0; upper_bound := n; counter := 0; calls := [1] |}).
  assert (HI0 : parity_inv n e m [1] s0 0).
  { unfold parity_inv, s0.
    cbn [counter denominator numerator p_cipher lower_bound upper_bound calls].
    change (2 ^ 0) with 1. rewrite !Z.div_1_r, Z.mul_1_l, Z.mul_0_l, Z.sub_0_r.
    unfold len. simpl length. repeat split; try lia. }
  destruct (parity_loop_ends n e d m Hn Hodd He Hd Hinv [1] (Z.to_nat (Z.log2_up n)) s0 0 HI0)
    as (s' & k & Hrun & HI & Hk & Hcl).
  { rewrite Z2Nat.id by apply Z.log2_up_nonneg. apply Z.log2_up_spec. exact Hn. }
  rewrite Z2Nat.id in Hk by apply Z.log2_up_nonneg.
  destruct (parity_result n e m [1] s' k Hn Hodd Hm HI Hcl) as [Hup Hlow].
  exists (rev (calls s')), (numerator s'), k.
  destruct HI as (_ & _ & _ & _ & _ & _ & Hl & Hu & Hcalls).
  split.
  - unfold parity. rewrite Hts. cbn [length seq fold_left Py.bind].
    unfold parity_body. rewrite Hts. change ([a] !! 0%nat) with (Some a).
    cbn [of_option Py.bind]. rewrite Hst. cbn [of_option Py.bind cipher plain].
    unfold encrypt. rewrite Hkn, Hke. fold s0. rewrite Hrun.
    cbn [Py.bind]. rewrite Hup. reflexivity.
  - unfold len in *. rewrite length_rev. simpl in Hcalls.
    rewrite <- Hu, <- Hl. repeat split; lia.
Qed.

Lemma rsa_inverts_15 : rsa_inverts 15 3 3.
Proof.
  intros x Hx.
  assert (H : x = 0 \/ x = 1 \/ x = 2 \/ x = 3 \/ x = 4 \/ x = 5 \/ x = 6 \/ x = 7 \/ x = 8
              \/ x = 9 \/ x = 10 \/ x = 11 \/ x = 12 \/ x = 13 \/ x = 14) by lia.
  repeat (destruct H as [-> | H]; [reflexivity|]). subst x. reflexivity.
Qed.

(** The theorem for the key [(15, 3, 3)] and [m = 7]. *)
Lemma parity_recovers_plaintext_witness :
  exists calls numerator k,
    parity (lsb_oracle 15 3) [{| cipher := Some (7 ^ 3 mod 15); plain := None |}]
           (public_key 15 3 [0%nat] "k")
    = Ok ([(0%nat, 7)],
          <[0%nat := {| cipher := Some (7 ^ 3 mod 15); plain := Some 7 |}]>
            [{| cipher := Some (7 ^ 3 mod 15); plain := None |}], calls)
    /\ len calls = 1 + k
    /\ Z.log2_up 15 - 1 <= k <= Z.log2_up 15
    /\ 7 = (15 * (numerator + 1)) / 2 ^ k
    /\ 7 <= (15 * numerator) / 2 ^ k + 1.
Proof.
  apply (parity_recovers_plaintext 15 3 3 7
           [{| cipher := Some (7 ^ 3 mod 15); plain := None |}]
           (public_key 15 3 [0%nat] "k") 0%nat); try reflexivity; try lia.
  apply rsa_inverts_15.
Defined.

(** The modulus has to be odd: for the key [(10, 3, 3)], on which
    decryption inverts encryption as well, and the plaintext 3, [parity]
    returns 1. *)
Lemma parity_even_modulus :
  parity (lsb_oracle 10 3) [{| cipher := Some (3 ^ 3 mod 10); plain := None |}]
         (public_key 10 3 [0%nat] "k")
  = Ok ([(0%nat, 1)], [{| cipher := Some 7; plain := Some 1 |}], [1; 6; 8; 4]).
Proof. vm_compute. reflexivity. Qed.

(** ** Errors of [decrypt] (C7) *)

Lemma decrypt_invalid_length {R} (none : R) oracle self ciphertext iv ic amount kp :
  len ciphertext mod block_size self <> 0 ->
  decrypt none oracle self ciphertext iv ic amount kp = Err InvalidLength.
Proof.
  intros H. unfold decrypt.
  destruct (Z.eqb_spec (len ciphertext mod block_size self) 0); [contradiction | reflexivity].
Qed.

Lemma guess_body_rejected {R} (oracle : list Z -> list Z -> R -> bool * R) self
      blocks payload_prefix payload_decrypt s g :
  verdict oracle self payload_prefix payload_decrypt s g (resp s) = false ->
  exists r', guess_body oracle self blocks payload_prefix payload_decrypt s g = Ok (Continue r').
Proof.
  unfold verdict, guess_body.
  destruct (query self payload_prefix payload_decrypt s g) as [iv payload]. simpl.
  destruct (oracle payload iv (resp s)) as [correct r1]. simpl.
  intros ->. now exists r1.
Qed.

Lemma guess_loop_rejected {R} (oracle : list Z -> list Z -> R -> bool * R) self
      blocks payload_prefix payload_decrypt pm pos pt ic guesses :
  forall r,
  (forall g r', In g guesses ->
     verdict oracle self payload_prefix payload_decrypt
             {| payload_modify := pm; position := pos; plaintext := pt;
                is_correct := ic; resp := r |} g r' = false) ->
  exists r',
    guess_loop oracle self guesses blocks payload_prefix payload_decrypt
               {| payload_modify := pm; position := pos; plaintext := pt;
                  is_correct := ic; resp := r |}
    = Ok (false, {| payload_modify := pm; position := pos; plaintext := pt;
                    is_correct := ic; resp := r' |}).
Proof.
  induction guesses as [|g rest IH]; intros r Hrej.
  - now exists r.
  - cbn [guess_loop].
    destruct (guess_body_rejected oracle self blocks payload_prefix payload_decrypt _ g
                (Hrej g r (or_introl eq_refl))) as [r1 ->].
    cbn [Py.bind set_resp payload_modify position plaintext is_correct resp].
    apply IH. intros g' r' Hin. apply (Hrej g' r'). now right.
Qed.

(** One turn of [while position >= 0] in which the oracle rejects the 256
    guesses. *)
Lemma position_loop_all_rejected {R} (oracle : list Z -> list Z -> R -> bool * R) self
      fuel blocks payload_prefix payload_decrypt s :
  0 <= position s ->
  all_rejected oracle self payload_prefix payload_decrypt s ->
  exists r',
    guess_loop oracle self (range 0 256) blocks payload_prefix payload_decrypt s
    = Ok (false, set_resp s r')
    /\ (is_correct s = false ->
        position_loop oracle self (S fuel) blocks payload_prefix payload_decrypt s
        = Err OracleExhausted)
    /\ (is_correct s = true ->
        position_loop oracle self (S fuel) blocks payload_prefix payload_decrypt s
        = position_loop oracle self fuel blocks payload_prefix payload_decrypt
                        (assume_padding_1 s r')).
Proof.
  intros Hpos Hrej. destruct s as [pm pos pt ic r]. simpl in Hpos.
  destruct (guess_loop_rejected oracle self blocks payload_prefix payload_decrypt
              pm pos pt ic (range 0 256) r Hrej) as [r' Hloop].
  exists r'. split; [exact Hloop|].
  cbn [position_loop position is_correct].
  destruct (Z.ltb_spec pos 0) as [Hneg | _]; [lia|].
  rewrite Hloop. cbn [Py.bind fst snd]. unfold after_guesses.
  cbn [position is_correct payload_modify plaintext resp].
  split; intros ->.
  - reflexivity.
  - cbn [chr andb Z.leb Z.ltb Z.compare Py.bind]. unfold assume_padding_1.
    cbn [position is_correct payload_modify plaintext resp].
    replace (pos - 1 + 1) with pos by lia. reflexivity.
Qed.

Lemma skipn_last {A} (l : list A) (k : nat) (c : A) :
  nth_error l k = Some c -> length l = S k -> skipn k l = [c].
Proof.
  revert l. induction k as [|k IH]; intros l Hc Hl.
  - destruct l as [|x [|y l]]; simpl in *; try discriminate. congruence.
  - destruct l as [|x l]; simpl in *; [discriminate|]. apply IH; [exact Hc | lia].
Qed.

(** At the first position of a block of [B] bytes, [assume_padding_1]
    rewrites exactly the last byte. *)
Lemma assume_padding_1_last_byte {R} (s : state R) (r : R) (B c : Z) :
  0 < B -> len (payload_modify s) = B -> position s = B - 1 ->
  index (payload_modify s) (-1) = Some c ->
  payload_modify (assume_padding_1 s r)
  = slice_to (payload_modify s) (-1) ++ [Z.lxor (Z.lxor c 1) 2].
Proof.
  intros HB Hlen Hpos Hc. unfold assume_padding_1. cbn [payload_modify].
  rewrite Hpos.
  assert (Hb : bound (payload_modify s) (B - 1) = bound (payload_modify s) (-1)).
  { unfold bound. rewrite Hlen.
    destruct (Z.ltb_spec (B - 1) 0); [lia|]. destruct (Z.ltb_spec (-1) 0); lia. }
  unfold slice_to, slice_from. rewrite Hb. f_equal.
  unfold index in Hc. rewrite Hlen in Hc.
  destruct (Z.ltb_spec (-1) 0); [|lia].
  destruct ((0 <=? B + -1) && (B + -1 <? B)); [|discriminate].
  assert (Hs : skipn (bound (payload_modify s) (-1)) (payload_modify s) = [c]).
  { unfold bound. rewrite Hlen. destruct (Z.ltb_spec (-1) 0); [|lia].
    replace (Z.max 0 (B + -1)) with (B + -1) by lia.
    apply skipn_last; [exact Hc | unfold len in Hlen; lia]. }
  rewrite Hs. reflexivity.
Qed.

Lemma accept_not_bad_padding {A} (x y : Z) (k : Z -> Z -> A) :
  (let* cp := chr x in let* cp1 := chr y in Ok (k cp cp1)) <> Err BadPadding.
Proof.
  unfold chr.
  destruct (_ && _); cbn [Py.bind]; [|discriminate].
  destruct (_ && _); cbn [Py.bind]; discriminate.
Qed.

(** [BadPadding] comes from the guess that the oracle accepts under
    [is_correct], when the byte it reveals is not a padding length. *)
Lemma guess_body_bad_padding {R} (oracle : list Z -> list Z -> R -> bool * R) self
      blocks payload_prefix payload_decrypt s g :
  guess_body oracle self blocks payload_prefix payload_decrypt s g = Err BadPadding
  <-> verdict oracle self payload_prefix payload_decrypt s g (resp s) = true
      /\ is_correct s = true
      /\ exists c b2 last_char,
           index (payload_modify s) (position s) = Some c
           /\ index blocks (-2) = Some b2 /\ index b2 (-1) = Some last_char
           /\ g <> last_char
           /\ let dc := Z.lxor (Z.lxor c g) (block_size self - position s) in
              0 <= dc < 256 /\ (dc = 0 \/ dc > block_size self).
Proof.
  unfold verdict, guess_body.
  destruct (query self payload_prefix payload_decrypt s g) as [iv payload]. cbn [fst snd].
  destruct (oracle payload iv (resp s)) as [correct r1]. cbn [fst].
  destruct correct; [|split; [discriminate | intros [? _]; discriminate]].
  destruct (index (payload_modify s) (position s)) as [c|]; cbn [of_option Py.bind];
    [|split; [discriminate | intros (_ & _ & ? & ? & ? & ? & _); discriminate]].
  unfold chr at 1.
  set (dc := Z.lxor (Z.lxor c g) (block_size self - position s)).
  destruct (Z.leb_spec 0 dc) as [H0 | H0]; cbn [andb];
    [|split; [discriminate | intros (_ & _ & c' & ? & ? & E & _ & _ & _ & Hdc & _);
                              injection E as <-; fold dc in Hdc; lia]].
  destruct (Z.ltb_spec dc 256) as [H1 | H1]; cbn [Py.bind];
    [|split; [discriminate | intros (_ & _ & c' & ? & ? & E & _ & _ & _ & Hdc & _);
                              injection E as <-; fold dc in Hdc; lia]].
  destruct (is_correct s).
  - destruct (index blocks (-2)) as [b2|]; cbn [of_option Py.bind];
      [|split; [discriminate | intros (_ & _ & ? & ? & ? & _ & ? & _); discriminate]].
    destruct (index b2 (-1)) as [last_char|] eqn:Elast; cbn [of_option Py.bind];
      [|split; [discriminate
               | intros (_ & _ & ? & ? & ? & _ & E & ? & _); injection E as <-; congruence]].
    destruct (Z.eqb_spec g last_char) as [-> | Hne].
    + split; [discriminate|].
      intros (_ & _ & ? & ? & ? & _ & E & E' & Hg & _).
      injection E as <-. rewrite Elast in E'. injection E' as <-. contradiction.
    + destruct (Z.eqb_spec dc 0) as [Hz | Hz]; cbn [orb].
      * split; [|reflexivity]. intros _. repeat split; auto.
        exists c, b2, last_char. repeat split; auto; lia.
      * destruct (Z.gtb_spec dc (block_size self)) as [Hgt | Hle].
        -- split; [|reflexivity]. intros _. repeat split; auto.
           exists c, b2, last_char. repeat split; auto; lia.
        -- split.
           ++ unfold chr. destruct (_ && _); cbn [Py.bind]; discriminate.
           ++ intros (_ & _ & c' & ? & ? & E & _ & _ & _ & _ & Hdc).
              injection E as <-. fold dc in Hdc. lia.
  - split; [|intros (_ & ? & _); discriminate].
    destruct (position s =? block_size self - 1).
    + destruct (recheck_query self iv payload) as [iv2 payload2].
      destruct (oracle payload2 iv2 r1) as [correct2 r2]. destruct correct2; cbn [negb].
      * intros H. exfalso. exact (accept_not_bad_padding _ _ _ H).
      * discriminate.
    + intros H. exfalso. exact (accept_not_bad_padding _ _ _ H).
Qed.

(** ** The first-byte check and the forgery (C6, C1) *)

(** For most keys the forgery works: under [other_key] the result has
    [|new_plaintext| + B] bytes and decrypts to the new plaintext. *)
Lemma fake_ciphertext_other_key :
  exists c,
    fake_ciphertext tt (padding_oracle (xor_cipher other_key) 16) oracle16
                    yellow_submarine None None None = Ok c
    /\ len c = len yellow_submarine + 16
    /\ cbc_decrypt (xor_cipher other_key) 16 (firstn 16 c) (skipn 16 c) = yellow_submarine.
Proof. eexists. split; [vm_compute; reflexivity|]. split; vm_compute; reflexivity. Qed.

(** C6, at the input that breaks it: [decrypt] of ['A' * 32] without
    [is_correct], under [filler_key]. At the first position the guess 0 is
    accepted by the oracle because the query decrypts to a block that ends in
    0x02 0x02. The byte at position [B - 2] of the modified block is ['A']
    already, so the query of the check, which writes ['A'] there, is the
    query just made: it is accepted again, the guess is kept, and the engine
    records the byte 0x40 where the block really decrypts to 0x43. The call
    then ends with [OracleExhausted]. *)
Theorem first_byte_check_repeats_query :
  let oracle := padding_oracle (xor_cipher filler_key) 16 in
  let q := query oracle16 [] (repeat 65 16) filler_state 0 in
  index (payload_modify filler_state) 14 = Some 65
  /\ fst (oracle (snd q) (fst q) tt) = true
  /\ slice_from (cbc_decrypt (xor_cipher filler_key) 16 (fst q) (snd q)) (-2) = [2; 2]
  /\ recheck_query oracle16 (fst q) (snd q) = q
  /\ guess_body oracle oracle16 [repeat 65 16; repeat 65 16] [] (repeat 65 16) filler_state 0
     = Ok (Break {| payload_modify := repeat 65 15 ++ [3]; position := 15;
                    plaintext := [64]; is_correct := false; resp := tt |})
  /\ slice_from (cbc_decrypt (xor_cipher filler_key) 16 (repeat 65 16) (repeat 65 16)) (-1)
     = [67]
  /\ decrypt tt oracle oracle16 (repeat 65 32) None false 0 None = Err OracleExhausted.
Proof. repeat split; vm_compute; reflexivity. Qed.

(** C1, at the input that breaks it: the engine for blocks of 16 bytes, the
    consistent oracle of [filler_key], and the new plaintext
    "YELLOW SUBMARINE". [fake_ciphertext] starts from ['A' * 32], on which
    [decrypt] goes wrong as above: the call ends with [OracleExhausted] and
    returns no ciphertext. *)
Theorem fake_ciphertext_fails_on_filler :
  CBC.init 16 = Ok oracle16
  /\ len yellow_submarine mod 16 = 0
  /\ fake_ciphertext tt (padding_oracle (xor_cipher filler_key) 16) oracle16
                     yellow_submarine None None None = Err OracleExhausted.
Proof. repeat split; vm_compute; reflexivity. Qed.

(** ** The arithmetic substrate *)

Lemma egcd_bezout fuel : forall a b g x y,
  egcd fuel a b = (g, x, y) -> a * x + b * y = g.
Proof.
  induction fuel as [|fuel IH]; intros a b g x y H; simpl in H.
  - inversion H; subst. ring.
  - destruct (Z.eqb_spec b 0) as [Hb|Hb].
    + inversion H; subst. ring.
    + destruct (egcd fuel b (a mod b)) as [[g' x'] y'] eqn:E.
      inversion H; subst. apply IH in E.
      pose proof (Z.div_mod a b Hb). nia.
Qed.

Lemma egcd_gcd (j : nat) : forall fuel a b,
  0 <= b < 2 ^ Z.of_nat j -> (2 * j <= fuel)%nat ->
  Z.abs (fst (fst (egcd fuel a b))) = Z.gcd a b.
Proof.
  induction j as [|j IH]; intros fuel a b Hb Hf.
  - assert (b = 0) by (simpl in Hb; lia). subst b.
    rewrite Z.gcd_0_r. destruct fuel; reflexivity.
  - destruct fuel as [|[|fuel]]; try lia.
    cbn [egcd]. destruct (Z.eqb_spec b 0) as [Hb0|Hb0].
    { subst b. rewrite Z.gcd_0_r. reflexivity. }
    assert (Hr1 : 0 <= a mod b < b) by (apply Z.mod_pos_bound; lia).
    destruct (Z.eqb_spec (a mod b) 0) as [Hr0|Hr0].
    { cbn. pose proof (Z.gcd_mod a b Hb0) as G. rewrite Hr0, Z.gcd_0_l in G.
      rewrite (Z.gcd_comm a b), <- G. reflexivity. }
    assert (Hr2 : 0 <= b mod (a mod b) < a mod b) by (apply Z.mod_pos_bound; lia).
    assert (Hle : b mod (a mod b) <= b - a mod b).
    { pose proof (Z.div_mod b (a mod b) Hr0).
      assert (1 <= b / (a mod b)) by (apply Z.div_le_lower_bound; lia). nia. }
    assert (Hlt : 0 <= b mod (a mod b) < 2 ^ Z.of_nat j).
    { rewrite Nat2Z.inj_succ, Z.pow_succ_r in Hb by lia. lia. }
    specialize (IH fuel (a mod b) (b mod (a mod b)) Hlt ltac:(lia)).
    destruct (egcd fuel (a mod b) (b mod (a mod b))) as [[g x] y] eqn:E.
    simpl in IH |- *.
    rewrite IH, (Z.gcd_comm (a mod b)), Z.gcd_mod by lia.
    rewrite Z.gcd_mod by lia. apply Z.gcd_comm.
Qed.

Lemma invmod_sound a m r :
  m <> 0 -> invmod a m = Ok r -> (a * r) mod m = 1 mod m.
Proof.
  intros Hm. unfold invmod.
  destruct (egcd (euclid_fuel m) a m) as [[g x] y] eqn:E.
  apply egcd_bezout in E.
  destruct (Z.eqb_spec (Z.abs g) 1) as [Hg|Hg]; [|discriminate].
  intros H. inversion H; subst r.
  rewrite Z.mul_mod_idemp_r by lia.
  assert (Hgg : g * g = 1) by nia.
  replace (a * (x * g)) with (1 + m * (- y * g)) by nia.
  rewrite Z.mul_comm, Z.mod_add by lia. reflexivity.
Qed.

Lemma invmod_complete a m :
  0 < m -> Z.gcd a m = 1 ->
  exists r, invmod a m = Ok r /\ 0 <= r < m /\ (a * r) mod m = 1 mod m.
Proof.
  intros Hm Hg.
  assert (Hfuel : Z.abs (fst (fst (egcd (euclid_fuel m) a m))) = Z.gcd a m).
  { apply (egcd_gcd (S (Z.to_nat (Z.log2 m)))).
    - rewrite Nat2Z.inj_succ, Z2Nat.id by apply Z.log2_nonneg.
      pose proof (Z.log2_spec m Hm). lia.
    - unfold euclid_fuel. rewrite Z.abs_eq by lia. lia. }
  destruct (invmod a m) as [r|e] eqn:E.
  - exists r. split; [reflexivity|]. split.
    + unfold invmod in E.
      destruct (egcd (euclid_fuel m) a m) as [[g x] y].
      destruct (Z.abs g =? 1); [|discriminate]. inversion E.
      apply Z.mod_pos_bound; lia.
    + apply invmod_sound with (r := r); [lia|assumption].
  - exfalso. unfold invmod in E.
    destruct (egcd (euclid_fuel m) a m) as [[g x] y].
    simpl in Hfuel. rewrite Hfuel, Hg in E. simpl in E. discriminate.
Qed.

Lemma iroot_bits_spec n x (bits : nat) : forall r,
  0 < n -> 0 <= r -> r ^ n <= x < (r + 2 ^ Z.of_nat bits) ^ n ->
  0 <= iroot_bits bits x n r /\
  iroot_bits bits x n r ^ n <= x < (iroot_bits bits x n r + 1) ^ n.
Proof.
  induction bits as [|bits IH]; intros r Hn Hr H.
  - simpl in *. split; [lia|]. exact H.
  - cbn [iroot_bits].
    rewrite Nat2Z.inj_succ, Z.pow_succ_r in H by lia.
    destruct (Z.leb_spec ((r + 2 ^ Z.of_nat bits) ^ n) x) as [Hle|Hgt].
    + apply IH; [lia| |].
      * pose proof (Z.pow_pos_nonneg 2 (Z.of_nat bits)). lia.
      * replace (r + 2 ^ Z.of_nat bits + 2 ^ Z.of_nat bits)
          with (r + 2 * 2 ^ Z.of_nat bits) by ring. lia.
    + apply IH; [lia|lia|lia].
Qed.

Lemma iroot_spec x n :
  0 <= x -> 0 < n ->
  0 <= fst (iroot x n) /\ fst (iroot x n) ^ n <= x < (fst (iroot x n) + 1) ^ n
  /\ snd (iroot x n) = (fst (iroot x n) ^ n =? x).
Proof.
  intros Hx Hn. unfold iroot. cbn [fst snd].
  assert (H : 0 ^ n <= x < (0 + 2 ^ Z.of_nat (S (Z.to_nat (Z.log2 x / n)))) ^ n).
  { rewrite Z.pow_0_l by lia. split; [lia|].
    rewrite Z.add_0_l, <- Z.pow_mul_r by lia.
    rewrite Nat2Z.inj_succ, Z2Nat.id
      by (apply Z.div_pos; [apply Z.log2_nonneg|lia]).
    destruct (Z.eq_dec x 0) as [->|Hx0].
    - apply Z.pow_pos_nonneg; [lia|].
      apply Z.mul_nonneg_nonneg; [|lia].
      pose proof (Z.div_pos (Z.log2 0) n ltac:(apply Z.log2_nonneg) Hn). lia.
    - pose proof (Z.log2_spec x ltac:(lia)) as [_ Hu].
      eapply Z.lt_le_trans; [exact Hu|].
      apply Z.pow_le_mono_r; [lia|].
      pose proof (Z.div_mod (Z.log2 x) n ltac:(lia)).
      pose proof (Z.mod_pos_bound (Z.log2 x) n Hn). nia. }
  pose proof (iroot_bits_spec n x _ 0 Hn ltac:(lia) H) as [H1 H2].
  auto.
Qed.

Lemma iroot_exact m n : 0 <= m -> 0 < n -> iroot (m ^ n) n = (m, true).
Proof.
  intros Hm Hn.
  pose proof (iroot_spec (m ^ n) n ltac:(apply Z.pow_nonneg; lia) Hn) as (H0 & [H1 H2] & H3).
  destruct (iroot (m ^ n) n) as [r ok]. simpl in *.
  assert (r = m).
  { apply Z.pow_le_mono_l_iff in H1; [|lia|lia|lia].
    apply Z.pow_lt_mono_l_iff in H2; [|lia|lia|lia]. lia. }
  subst r. rewrite Z.eqb_refl in H3. subst ok. reflexivity.
Qed.

Lemma pow_mod_range a b m : 0 < m -> 0 <= pow_mod a b m < m.
Proof.
  intros Hm. destruct b as [|b|b]; simpl.
  - apply Z.mod_pos_bound; lia.
  - destruct b; simpl; apply Z.mod_pos_bound; lia.
  - lia.
Qed.

(** ** Factoring from the private exponent *)

Lemma factors_try_sound fuel : forall n g k b p q,
  1 < n -> factors_try fuel n g k b = Some (p, q) -> p * q = n /\ 1 < p < n.
Proof.
  induction fuel as [|fuel IH]; intros n g k b p q Hn H; cbn [factors_try] in H; [discriminate|].
  destruct (b <? k); [|discriminate].
  pose proof (pow_mod_range g b n ltac:(lia)) as Hr.
  set (gb := pow_mod g b n) in *.
  destruct (Z.eqb_spec gb 1) as [|H1]; cbn [negb andb] in H; [eauto|].
  destruct (Z.eqb_spec gb (n - 1)) as [|H2]; cbn [negb andb] in H; [eauto|].
  destruct (Z.eqb_spec (pow_mod gb 2 n) 1) as [Hsq|]; cbn [negb andb] in H; [|eauto].
  rewrite pow_mod_spec in Hsq by lia.
  assert (H0 : gb <> 0).
  { intros E. rewrite E in Hsq. rewrite Z.mod_small in Hsq by lia. lia. }
  assert (Hdiv : (n | (gb - 1) * (gb + 1))).
  { exists (gb ^ 2 / n). pose proof (Z.div_mod (gb ^ 2) n ltac:(lia)). nia. }
  destruct (Z.eqb_spec (Z.gcd (gb - 1) n) 1) as [Hg|Hg]; cbn [negb] in H.
  - exfalso.
    assert (Hn1 : (n | gb + 1)).
    { apply Z.gauss with (m := gb - 1); [exact Hdiv|].
      rewrite Z.gcd_comm. exact Hg. }
    apply Z.divide_pos_le in Hn1; lia.
  - injection H as <- <-.
    pose proof (Z.gcd_divide_l (gb - 1) n) as Hl.
    pose proof (Z.gcd_divide_r (gb - 1) n) as Hd.
    pose proof (Z.gcd_nonneg (gb - 1) n) as Hnn.
    set (p := Z.gcd (gb - 1) n) in *.
    assert (p <> 0) by (intros E; rewrite E in Hd; destruct Hd; lia).
    apply Z.divide_pos_le in Hl; [|lia].
    split; [|lia].
    destruct Hd as [c Hc]. rewrite Hc at 1.
    rewrite Z.div_mul by lia. lia.
Qed.

(** X1: whatever [factors_from_d] returns is a factorisation of [n] into
    two factors strictly between 1 and [n], and the draws that are left are
    a tail of the draws given. *)
Theorem factors_from_d_sound draws n e d p q rest :
  1 < n ->
  factors_from_d draws n e d = Ok (p, q, rest) ->
  p * q = n /\ 1 < p < n /\ 1 < q < n /\ exists used, draws = used ++ rest.
Proof.
  intros Hn. induction draws as [|g draws IH]; cbn [factors_from_d]; [discriminate|].
  destruct (factors_try _ n g (e * d - 1) _) as [[p' q']|] eqn:E.
  - intros H. injection H as -> -> ->.
    apply factors_try_sound in E; [|lia]. destruct E as [E1 E2].
    repeat split; try lia; try nia. exists [g]. reflexivity.
  - intros H. destruct (IH H) as (H1 & H2 & H3 & used & Hu).
    repeat split; try lia. exists (g :: used). rewrite Hu. reflexivity.
Qed.

Lemma factors_from_d_sound_witness :
  3 * 5 = 15 /\ 1 < 3 < 15 /\ 1 < 5 < 15 /\ exists used, [3; 2; 9] = used ++ [9].
Proof. exact (factors_from_d_sound [3; 2; 9] 15 3 3 3 5 [9] eq_refl eq_refl). Defined.

(** ** Simple roots *)

Lemma small_e_search_sound (max_times : nat) key c : forall times m,
  small_e_search max_times key c times = Some m ->
  exists k, 0 <= k < Z.of_nat max_times /\ m ^ key_e key = c + times + k * key_n key
            /\ encrypt key m = c.
Proof.
  induction max_times as [|t IH]; intros times m H; cbn [small_e_search] in H; [discriminate|].
  unfold iroot in H.
  match type of H with
  | context [iroot_bits ?b ?x ?n ?r] => set (root := iroot_bits b x n r) in *
  end.
  destruct (Z.eqb_spec (root ^ key_e key) (c + times)) as [Hc|Hc]; cbn [andb] in H.
  - destruct (Z.eqb_spec (pow_mod root (key_e key) (key_n key)) c) as [Hp|Hp].
    + injection H as <-. exists 0. split; [lia|]. split; [lia|exact Hp].
    + apply IH in H. destruct H as (k & Hk & H1 & H2).
      exists (k + 1). split; [lia|]. split; [lia|exact H2].
  - apply IH in H. destruct H as (k & Hk & H1 & H2).
    exists (k + 1). split; [lia|]. split; [lia|exact H2].
Qed.

Lemma omap_Forall {A B} (f : A -> option B) (P : B -> Prop) (l : list A) :
  (forall a b, In a l -> f a = Some b -> P b) -> Forall P (omap f l).
Proof.
  induction l as [|a l IH]; intros H; simpl; [constructor|].
  destruct (f a) as [b|] eqn:E.
  - constructor; [apply (H a); [left; reflexivity|exact E]|].
    apply IH. intros a' b' Hin. apply H. right. exact Hin.
  - apply IH. intros a' b' Hin. apply H. right. exact Hin.
Qed.

(** X2: every value that [small_e_msg] returns is an exact [e]-th root of
    [c + k * n] for a ciphertext [c] of the key that has no plaintext and
    some [k] below [max_times = 100], and it encrypts to [c]. *)
Theorem small_e_msg_sound st key ms :
  small_e_msg st key = Ok ms ->
  exists cs, get_mutable_texts st key = Ok cs /\
    Forall (fun m => exists c k, In c cs /\ 0 <= k < 100 /\
                                 m ^ key_e key = c + k * key_n key /\ encrypt key m = c) ms.
Proof.
  unfold small_e_msg. remember 100%nat as t eqn:Ht.
  destruct (get_mutable_texts st key) as [cs|err]; cbn [Py.bind]; [|discriminate].
  intros H. injection H as <-. exists cs. split; [reflexivity|].
  apply omap_Forall. intros c m Hin Hs.
  apply small_e_search_sound in Hs. destruct Hs as (k & Hk & H1 & H2).
  exists c, k. subst t. repeat split; try lia; assumption.
Qed.

Lemma small_e_search_root (max_times : nat) key m :
  0 <= m -> 0 < key_e key -> m ^ key_e key < key_n key ->
  small_e_search (S max_times) key (encrypt key m) 0 = Some m.
Proof.
  intros Hm He Hn.
  assert (Hpow : 0 <= m ^ key_e key) by (apply Z.pow_nonneg; lia).
  assert (Henc : encrypt key m = m ^ key_e key).
  { unfold encrypt. rewrite pow_mod_spec by lia. apply Z.mod_small. lia. }
  cbn [small_e_search]. rewrite Henc, Z.add_0_r, iroot_exact by lia.
  fold (encrypt key m). rewrite Henc, Z.eqb_refl. reflexivity.
Qed.

Lemma omap_cons_Some {A B} (f : A -> option B) (x : A) (l : list A) (y : B) :
  f x = Some y -> omap f (x :: l) = y :: omap f l.
Proof. intros H. simpl. rewrite H. reflexivity. Qed.

(** X3: when every pair of the key holds only a ciphertext [m^e mod n] of a
    message with [m^e < n], [small_e_msg] returns exactly these messages, in
    order. *)
Theorem small_e_msg_recovers st key ms :
  0 < key_e key ->
  Forall (fun m => 0 <= m /\ m ^ key_e key < key_n key) ms ->
  pairs_of st key = Ok (map (fun m => {| cipher := Some (encrypt key m); plain := None |}) ms) ->
  small_e_msg st key = Ok ms.
Proof.
  intros He Hms Hp.
  assert (Hc : get_mutable_texts st key = Ok (map (encrypt key) ms)).
  { unfold get_mutable_texts. rewrite Hp. cbn [Py.bind]. f_equal.
    clear. induction ms as [|m ms IH]; [reflexivity|]. simpl. f_equal. exact IH. }
  unfold small_e_msg. rewrite Hc. cbn [Py.bind]. f_equal.
  change 100%nat with (S 99). generalize 99%nat as t. intros t. clear Hp Hc.
  induction Hms as [|m ms [Hm Hlt] _ IH]; [reflexivity|].
  rewrite map_cons.
  rewrite (omap_cons_Some (fun c => small_e_search (S t) key c 0) (encrypt key m) _ m
             (small_e_search_root t key m Hm He Hlt)).
  f_equal. exact IH.
Qed.

Lemma small_e_msg_recovers_witness :
  small_e_msg [{| cipher := Some 27; plain := None |}; {| cipher := Some 8; plain := None |}]
              (public_key 55 3 [0%nat; 1%nat] "k") = Ok [3; 2].
Proof.
  apply (small_e_msg_recovers
           [{| cipher := Some 27; plain := None |}; {| cipher := Some 8; plain := None |}]
           (public_key 55 3 [0%nat; 1%nat] "k") [3; 2]).
  - reflexivity.
  - repeat constructor; try discriminate; reflexivity.
  - reflexivity.
Defined.

(** ** Wiener *)

Lemma wiener_test_sound key k d :
  wiener_test key k d = true ->
  exists p q, p * q = key_n key /\ q < p /\ (p - 1) * (q - 1) * k = key_e key * d - 1.
Proof.
  unfold wiener_test, isqrt.
  destruct (Z.eqb_spec k 0) as [|Hk]; cbn [negb andb]; [discriminate|].
  destruct (Z.eqb_spec ((key_e key * d - 1) mod k) 0) as [Hmod|]; [|discriminate].
  set (phi := (key_e key * d - 1) / k).
  set (b := key_n key - phi + 1).
  set (delta := b * b - 4 * key_n key).
  destruct (Z.gtb_spec delta 0) as [Hd|]; [|discriminate].
  set (s := Z.sqrt delta).
  destruct (Z.eqb_spec (s * s) delta) as [Hs|]; cbn [andb]; [|discriminate].
  destruct (Z.eqb_spec (s mod 2) 0) as [Hs2|]; [|discriminate].
  intros _.
  assert (Hphi : key_e key * d - 1 = k * phi).
  { pose proof (Z.div_mod (key_e key * d - 1) k Hk). unfold phi. lia. }
  assert (Hs0 : 0 <= s) by apply Z.sqrt_nonneg.
  assert (Hs' : s = 2 * (s / 2)) by (pose proof (Z.div_mod s 2); lia).
  assert (Hb2 : b mod 2 = 0).
  { pose proof (Z.mod_pos_bound b 2 ltac:(lia)).
    pose proof (Z.div_mod b 2 ltac:(lia)).
    assert (b mod 2 = 0 \/ b mod 2 = 1) as [E|E] by lia; [exact E|].
    exfalso. set (h := b / 2) in *. set (t := s / 2) in *.
    assert (b * b = 4 * (h * h + h) + 1) by nia.
    assert (s * s = 4 * (t * t)) by nia. unfold delta in Hs. lia. }
  assert (Hb' : b = 2 * (b / 2)) by (pose proof (Z.div_mod b 2); lia).
  exists (b / 2 + s / 2), (b / 2 - s / 2).
  set (h := b / 2) in *. set (t := s / 2) in *.
  assert (Hn : (h + t) * (h - t) = key_n key).
  { unfold delta in Hs. nia. }
  split; [exact Hn|]. split; [nia|].
  replace ((h + t - 1) * (h - t - 1)) with ((h + t) * (h - t) - 2 * h + 1) by ring.
  rewrite Hn, <- Hb'. unfold b. rewrite Hphi. ring.
Qed.

Lemma wiener_search_sound key convs d :
  wiener_search key convs = Some d ->
  exists k, In (k, d) convs /\ wiener_test key k d = true.
Proof.
  induction convs as [|[k' d'] convs IH]; simpl; [discriminate|].
  destruct (wiener_test key k' d') eqn:E.
  - intros H. injection H as <-. exists k'. split; [left; reflexivity|exact E].
  - intros H. destruct (IH H) as (k & Hin & Ht). exists k. split; [right; exact Hin|exact Ht].
Qed.

Lemma init_fields obj_id draws n e d p q ts id key rest :
  RSA.init obj_id draws n e d p q ts id = Ok (key, rest) ->
  key_n key = n /\ key_e key = e /\ texts key = ts /\ 0 < n /\
  (nonzero d = true -> key_d key = d).
Proof.
  unfold RSA.init.
  match goal with
  | |- Py.bind ?c _ = _ -> _ => destruct c as [[[[d' p'] q'] draws']|err] eqn:E
  end; cbn [Py.bind]; [|discriminate].
  destruct (Z.leb_spec n 0) as [|Hn]; [discriminate|].
  intros H. injection H as <- <-. cbn. repeat split; try lia.
  intros Hd. rewrite Hd in E. cbn [orb negb] in E.
  destruct (nonzero p || nonzero q).
  - destruct (if nonzero p then floordiv n (int_of p) else Ok (int_of q)) as [q1|];
      cbn [Py.bind] in E; [|discriminate].
    destruct (floordiv n q1); cbn [Py.bind] in E; [|discriminate].
    injection E as <- _ _ _. reflexivity.
  - destruct (factors_from_d draws n e (int_of d)) as [f|]; cbn [Py.bind] in E; [|discriminate].
    injection E as <- _ _ _. reflexivity.
Qed.

(** X4: a key that [wiener] returns has the modulus and the public exponent
    of the given key, shares its text pairs, and its private exponent [d]
    is right for an integer factorisation [n = p * q]:
    [(p - 1) * (q - 1)] divides [e * d - 1]. *)
Theorem wiener_sound obj_id draws key new_key :
  wiener obj_id draws key = Ok (Some new_key) ->
  key_n new_key = key_n key /\ key_e new_key = key_e key /\ texts new_key = texts key /\
  exists d p q k, key_d new_key = Some d /\ p * q = key_n key /\ q < p /\
                  (p - 1) * (q - 1) * k = key_e key * d - 1.
Proof.
  unfold wiener.
  destruct (wiener_search key _) as [d|] eqn:E; [|discriminate].
  apply wiener_search_sound in E. destruct E as (k & _ & Ht).
  apply wiener_test_sound in Ht. destruct Ht as (p & q & H1 & H2 & H3).
  destruct (construct _ _ _ _ _ _ _ _ _) as [[k' rest]|] eqn:E; cbn [Py.bind]; [|discriminate].
  intros H. injection H as <-.
  apply init_fields in E. destruct E as (En & Ee & _ & Hn & Ed).
  cbn [set_texts key_n key_e key_d texts].
  repeat split; try assumption.
  exists d, p, q, k. repeat split; try assumption.
  destruct (Z.eqb_spec d 0) as [->|Hd].
  - exfalso. rewrite Z.mul_0_r in H3. simpl in H3.
    assert (Hk : (k | 1)) by (exists (- ((p - 1) * (q - 1))); lia).
    assert (Hp : (p - 1 | 1)) by (exists (- ((q - 1) * k)); lia).
    apply Z.divide_1_r in Hk, Hp. nia.
  - apply Ed. simpl. destruct (Z.eqb_spec d 0); [contradiction|reflexivity].
Qed.

Lemma wiener_sound_witness :
  exists new_key,
    wiener "w" [2] (public_key 90581 17993 [] "k") = Ok (Some new_key) /\
    (key_n new_key = 90581 /\ key_e new_key = 17993 /\ texts new_key = [] /\
     exists d p q k, key_d new_key = Some d /\ p * q = 90581 /\ q < p /\
                     (p - 1) * (q - 1) * k = 17993 * d - 1).
Proof.
  exists {| key_n := 90581; key_e := 17993; key_d := Some 5; key_p := Some 239;
            key_q := Some 379; key_size := 24; identifier := "k-private"; texts := [] |}.
  split; [vm_compute; reflexivity|].
  apply (wiener_sound "w" [2] (public_key 90581 17993 [] "k")). vm_compute. reflexivity.
Defined.

(** ** Keys and their text pairs *)

Lemma index_last {A} (l : list A) (x : A) : index (l ++ [x]) (-1) = Some x.
Proof.
  unfold index, len. rewrite length_app. simpl length.
  replace (-1 <? 0) with true by reflexivity.
  replace (Z.of_nat (length l + 1) + -1) with (Z.of_nat (length l)) by lia.
  destruct (Z.leb_spec 0 (Z.of_nat (length l))); [|lia].
  destruct (Z.ltb_spec (Z.of_nat (length l)) (Z.of_nat (length l + 1))); [|lia].
  simpl. rewrite Nat2Z.id, nth_error_app2, Nat.sub_diag by lia. reflexivity.
Qed.

(** X5: [add_ciphertext(c)] followed by [add_plaintext(m, position=-1)]
    gives the key exactly one new dictionary, which holds both values; the
    dictionaries that existed are unchanged. *)
Theorem add_plaintext_completes_last_pair st key c m :
  (let* r := add_ciphertext st key (VInt c) None in
   add_plaintext (fst r) (snd r) (VInt m) (Some (-1)))
  = Ok (st ++ [{| cipher := Some c; plain := Some m |}],
        set_texts key (texts key ++ [length st])).
Proof.
  unfold add_ciphertext, add_plaintext, append_pair, update_pair, to_number.
  cbn [Py.bind fst snd set_texts texts].
  rewrite index_last. cbn [of_option Py.bind].
  rewrite lookup_app_r, Nat.sub_diag by lia. cbn [lookup list_lookup of_option Py.bind].
  f_equal. f_equal.
  rewrite insert_app_r_alt, Nat.sub_diag by lia. reflexivity.
Qed.

Lemma append_nonempty (s t : string) :
  t <> EmptyString -> String.eqb (s ++ t)%string EmptyString = false.
Proof. intros Ht. destruct s; simpl; [|reflexivity]. destruct t; [contradiction|reflexivity]. Qed.

(** X6: [RSAKey(n, e, p=p)] for a proper factor [p] of [n] with [e] prime
    to [(p - 1) * (n/p - 1)] is a private key with the factors [p] and
    [n/p], whose [d] inverts [e] modulo [(p - 1) * (n/p - 1)]; no random
    value is drawn. *)
Theorem init_from_factor obj_id draws n e p ts id :
  1 < p < n -> (p | n) -> Z.gcd e ((p - 1) * (n / p - 1)) = 1 ->
  exists key d,
    RSA.init obj_id draws n e None (Some p) None ts id = Ok (key, draws) /\
    key_n key = n /\ key_e key = e /\ key_p key = Some p /\ key_q key = Some (n / p) /\
    key_d key = Some d /\ p * (n / p) = n /\ 0 <= d < (p - 1) * (n / p - 1) /\
    (e * d) mod ((p - 1) * (n / p - 1)) = 1 mod ((p - 1) * (n / p - 1)) /\
    texts key = ts.
Proof.
  intros Hp [c Hc] Hg.
  assert (Hq : n / p = c) by (rewrite Hc; apply Z.div_mul; lia).
  assert (Hc1 : 1 < c) by nia.
  assert (Hpp : n / c = p) by (rewrite Hc, Z.mul_comm; apply Z.div_mul; lia).
  rewrite Hq in *.
  destruct (invmod_complete e ((p - 1) * (c - 1)) ltac:(nia) Hg) as (d & Hd & Hr & Hm).
  unfold RSA.init. cbn [nonzero int_of orb negb].
  destruct (Z.eqb_spec p 0) as [|_]; [lia|]. cbn [negb orb].
  unfold floordiv.
  destruct (Z.eqb_spec p 0) as [|_]; [lia|]. cbn [Py.bind]. rewrite Hq.
  destruct (Z.eqb_spec c 0) as [|_]; [lia|]. cbn [Py.bind]. rewrite Hpp, Hd. cbn [Py.bind].
  destruct (Z.leb_spec n 0); [lia|].
  eexists _, d. split; [reflexivity|]. cbn.
  repeat split; try lia; try assumption; try reflexivity.
Qed.

Lemma init_from_factor_witness :
  exists key d,
    RSA.init "id" [] 55 3 None (Some 5) None [] "" = Ok (key, []) /\
    key_n key = 55 /\ key_e key = 3 /\ key_p key = Some 5 /\ key_q key = Some (55 / 5) /\
    key_d key = Some d /\ 5 * (55 / 5) = 55 /\ 0 <= d < (5 - 1) * (55 / 5 - 1) /\
    (3 * d) mod ((5 - 1) * (55 / 5 - 1)) = 1 mod ((5 - 1) * (55 / 5 - 1)) /\
    texts key = [].
Proof.
  apply (init_from_factor "id" [] 55 3 5 [] "").
  - split; reflexivity.
  - exists 11. reflexivity.
  - reflexivity.
Defined.

(** ** Copies of a key *)

Lemma deepcopy_texts_spec (st0 : store) : forall ts st memo st' ts',
  (forall a, In a ts -> (a < length st0)%nat) ->
  (exists ext, st = st0 ++ ext) ->
  memo_ok st0 st memo ->
  deepcopy_texts st memo ts = Ok (st', ts') ->
  exists memo',
    (exists ext, st' = st ++ ext) /\ memo_ok st0 st' memo' /\
    (forall a a', copy_of memo a = Some a' -> copy_of memo' a = Some a') /\
    Forall2 (fun a a' => copy_of memo' a = Some a') ts ts'.
Proof.
  induction ts as [|a ts IH]; intros st memo st' ts' Hts Hst Hm H; cbn [deepcopy_texts] in H.
  - injection H as <- <-. exists memo. split; [exists []; now rewrite app_nil_r|].
    split; [exact Hm|]. split; [auto|constructor].
  - destruct (List.find (fun m => Nat.eqb (fst m) a) memo) as [m|] eqn:F.
    + destruct (deepcopy_texts st memo ts) as [[st1 ts1]|] eqn:E; cbn [Py.bind] in H;
        [|discriminate].
      injection H as <- <-. cbn [fst snd].
      destruct (IH st memo st1 ts1 ltac:(intros; apply Hts; now right) Hst Hm E)
        as (memo' & Hext & Hm' & Hsub & HF).
      exists memo'. split; [exact Hext|]. split; [exact Hm'|]. split; [exact Hsub|].
      constructor; [|exact HF]. apply Hsub. unfold copy_of. rewrite F. reflexivity.
    + destruct (st !! a) as [t|] eqn:L; cbn [of_option Py.bind] in H; [|discriminate].
      destruct (deepcopy_texts (st ++ [t]) ((a, length st) :: memo) ts) as [[st1 ts1]|] eqn:E;
        cbn [Py.bind] in H; [|discriminate].
      injection H as <- <-. cbn [fst snd].
      assert (Ha : (a < length st0)%nat) by (apply Hts; now left).
      destruct Hst as [ext0 Hst0].
      assert (L0 : st0 !! a = Some t).
      { rewrite Hst0, lookup_app_l in L by exact Ha. exact L. }
      assert (Hnone : copy_of memo a = None) by (unfold copy_of; now rewrite F).
      assert (Hstep : forall x, copy_of ((a, length st) :: memo) x =
                                if Nat.eqb a x then Some (length st) else copy_of memo x).
      { intros x. unfold copy_of. cbn [List.find fst]. destruct (Nat.eqb a x); reflexivity. }
      assert (Hm1 : memo_ok st0 (st ++ [t]) ((a, length st) :: memo)).
      { destruct Hm as [Hm1 Hm2]. split.
        - intros x x'. rewrite Hstep. destruct (Nat.eqb_spec a x) as [<-|Hx].
          + intros [= <-]. rewrite length_app. simpl length.
            assert (length st0 <= length st)%nat by (rewrite Hst0, length_app; lia).
            split; [lia|]. split; [exact Ha|].
            rewrite lookup_app_r, Nat.sub_diag by lia. simpl. now rewrite L0.
          + intros Hc. destruct (Hm1 x x' Hc) as (B1 & B2 & B3).
            rewrite length_app. simpl length. split; [lia|]. split; [exact B2|].
            rewrite lookup_app_l by lia. exact B3.
        - intros x y z. rewrite !Hstep.
          destruct (Nat.eqb_spec a x) as [<-|Hx], (Nat.eqb_spec a y) as [<-|Hy].
          + reflexivity.
          + intros [= <-] Hc. destruct (Hm1 _ _ Hc). lia.
          + intros Hc [= <-]. destruct (Hm1 _ _ Hc). lia.
          + apply Hm2. }
      destruct (IH (st ++ [t]) ((a, length st) :: memo) st1 ts1
                   ltac:(intros; apply Hts; now right)
                   ltac:(exists (ext0 ++ [t]); now rewrite Hst0, app_assoc) Hm1 E)
        as (memo' & [ext1 Hext] & Hm' & Hsub & HF).
      exists memo'. split; [exists ([t] ++ ext1); now rewrite Hext, app_assoc|].
      split; [exact Hm'|]. split.
      * intros x x' Hc. apply Hsub. rewrite Hstep.
        destruct (Nat.eqb_spec a x) as [<-|Hx]; [congruence|exact Hc].
      * constructor; [|exact HF]. apply Hsub. rewrite Hstep, Nat.eqb_refl. reflexivity.
Qed.

Lemma deepcopy_texts_total : forall ts st memo,
  (forall a, In a ts -> (a < length st)%nat) ->
  exists r, deepcopy_texts st memo ts = Ok r.
Proof.
  induction ts as [|a ts IH]; intros st memo Hts; cbn [deepcopy_texts].
  - eexists; reflexivity.
  - destruct (List.find _ memo) as [m|].
    + destruct (IH st memo ltac:(intros; apply Hts; now right)) as [r ->].
      eexists; reflexivity.
    + destruct (lookup_lt_is_Some_2 st a ltac:(apply Hts; now left)) as [t ->].
      cbn [of_option Py.bind].
      destruct (IH (st ++ [t]) ((a, length st) :: memo)) as [r ->].
      { intros b Hb. rewrite length_app. specialize (Hts b ltac:(now right)). lia. }
      eexists; reflexivity.
Qed.

Lemma pairs_of_ext st1 st2 key1 key2 :
  Forall2 (fun a a' => st1 !! a = st2 !! a') (texts key1) (texts key2) ->
  pairs_of st1 key1 = pairs_of st2 key2.
Proof.
  unfold pairs_of. induction 1 as [|a a' l l' Ha _ IH]; [reflexivity|].
  cbn [fold_right]. rewrite IH, Ha. reflexivity.
Qed.

(** The dictionaries of a copy made by [deepcopy]. *)
Lemma deepcopy_texts_fresh st ts st' ts' :
  (forall a, In a ts -> (a < length st)%nat) ->
  deepcopy_texts st [] ts = Ok (st', ts') ->
  (exists ext, st' = st ++ ext) /\
  Forall2 (fun a a' => (length st <= a' < length st')%nat /\ st' !! a' = st !! a) ts ts' /\
  (forall i j a b a' b',
     ts !! i = Some a -> ts !! j = Some b -> ts' !! i = Some a' -> ts' !! j = Some b' ->
     a = b <-> a' = b').
Proof.
  intros Hts H.
  destruct (deepcopy_texts_spec st ts st [] st' ts' Hts
              ltac:(exists []; now rewrite app_nil_r)
              ltac:(split; intros; discriminate) H)
    as (memo' & Hext & [Hm1 Hm2] & _ & HF).
  split; [exact Hext|]. split.
  - apply (Forall2_impl _ _ _ _ HF). intros a a' Hc. cbv beta in Hc.
    destruct (Hm1 a a' Hc) as (B1 & _ & B3). exact (conj B1 B3).
  - intros i j a b a' b' Hi Hj Hi' Hj'.
    assert (Ca : copy_of memo' a = Some a').
    { exact (Forall2_lookup_lr _ _ _ i a a' HF Hi Hi'). }
    assert (Cb : copy_of memo' b = Some b').
    { exact (Forall2_lookup_lr _ _ _ j b b' HF Hj Hj'). }
    split.
    + intros <-. congruence.
    + intros <-. eapply Hm2; eauto.
Qed.

(** X7: [copy] is deep. The dictionaries that existed are unchanged; the
    copy's dictionaries are new ones with the contents of the key's, in
    the same order and shared among positions exactly as the key's are; the
    modulus and the public exponent are the key's. *)
Theorem copy_is_deep obj_id draws st key id st' key' :
  texts_valid st key ->
  copy obj_id draws st key id = Ok (st', key') ->
  (exists ext, st' = st ++ ext) /\
  Forall (fun a' => (length st <= a' < length st')%nat) (texts key') /\
  pairs_of st' key' = pairs_of st key /\
  (forall i j a b a' b',
     texts key !! i = Some a -> texts key !! j = Some b ->
     texts key' !! i = Some a' -> texts key' !! j = Some b' -> a = b <-> a' = b') /\
  key_n key' = key_n key /\ key_e key' = key_e key.
Proof.
  intros Hv. unfold copy.
  match goal with
  | |- Py.bind ?c _ = _ -> _ => destruct c as [[k rest]|] eqn:E
  end; cbn [Py.bind]; [|discriminate].
  destruct (deepcopy_texts st [] (texts key)) as [[st1 ts1]|] eqn:D; cbn [Py.bind];
    [|discriminate].
  intros H. injection H as <- <-. cbn [fst snd set_texts texts key_n key_e].
  destruct (deepcopy_texts_fresh _ _ _ _ Hv D) as (Hext & HF & Hshare).
  split; [exact Hext|]. split.
  { clear - HF. induction HF as [|a a' l l' [Ha _] _ IH]; constructor; assumption. }
  split.
  { apply pairs_of_ext. cbn [texts]. apply Forall2_flip.
    apply (Forall2_impl _ _ _ _ HF). intros a a' [_ Hc]. exact Hc. }
  split; [exact Hshare|].
  destruct (has_private key); apply init_fields in E; destruct E as (En & Ee & _); auto.
Qed.

(** X8: the copy is independent: setting a plaintext of the copy, at any
    position, leaves the text pairs of the original key as they were. *)
Theorem copy_is_independent obj_id draws st key id st' key' m pos st'' key'' :
  texts_valid st key ->
  copy obj_id draws st key id = Ok (st', key') ->
  add_plaintext st' key' (VInt m) (Some pos) = Ok (st'', key'') ->
  pairs_of st'' key = pairs_of st key.
Proof.
  intros Hv. unfold copy.
  match goal with
  | |- Py.bind ?c _ = _ -> _ => destruct c as [[k rest]|] eqn:E
  end; cbn [Py.bind]; [|discriminate].
  destruct (deepcopy_texts st [] (texts key)) as [[st1 ts1]|] eqn:D; cbn [Py.bind];
    [|discriminate].
  intros H. injection H as <- <-. cbn [fst snd].
  destruct (deepcopy_texts_fresh _ _ _ _ Hv D) as ([ext Hext] & HF & _).
  unfold add_plaintext, update_pair. cbn [to_number Py.bind set_texts texts].
  destruct (index ts1 pos) as [a'|] eqn:I; cbn [of_option Py.bind]; [|discriminate].
  destruct (st1 !! a') as [t|]; cbn [of_option Py.bind]; [|discriminate].
  intros H. injection H as <- _.
  assert (Ha' : (length st <= a')%nat).
  { unfold index in I. destruct (_ && _); [|discriminate].
    apply nth_error_In in I.
    assert (HA : Forall (fun a' => (length st <= a')%nat) ts1).
    { clear - HF. induction HF as [|a b l l' [Ha _] _ IH]; constructor; [lia|assumption]. }
    rewrite List.Forall_forall in HA. exact (HA _ I). }
  apply pairs_of_ext. apply Forall2_same_length_lookup_2; [reflexivity|].
  intros i a b Hi Hj. rewrite Hi in Hj. injection Hj as <-.
  assert (Ha : (a < length st)%nat).
  { apply Hv. apply list_elem_of_In. eapply list_elem_of_lookup_2. exact Hi. }
  rewrite list_lookup_insert_ne by lia.
  rewrite Hext, lookup_app_l by exact Ha. reflexivity.
Qed.

(** X9: [publickey] of a key with a positive modulus and valid text pairs
    returns a key without private part, so that [decrypt] raises on it; it
    has the modulus and the public exponent of the key and the identifier
    extended by [' - publickey']. Its text pairs are copies: the
    dictionaries that existed are unchanged, those of the new key are new
    ones with the contents of the key's, in the same order and shared among
    positions exactly as the key's are. *)
Theorem publickey_has_no_private_part obj_id st key id :
  0 < key_n key -> texts_valid st key ->
  exists st' key',
    publickey obj_id st key id = Ok (st', key') /\
    has_private key' = false /\ (forall c, RSA.decrypt key' c = Err PyException) /\
    key_n key' = key_n key /\ key_e key' = key_e key /\
    identifier key' = (id ++ " - publickey")%string /\
    (exists ext, st' = st ++ ext) /\
    Forall (fun a' => (length st <= a' < length st')%nat) (texts key') /\
    pairs_of st' key' = pairs_of st key /\
    (forall i j a b a' b',
       texts key !! i = Some a -> texts key !! j = Some b ->
       texts key' !! i = Some a' -> texts key' !! j = Some b' -> a = b <-> a' = b').
Proof.
  intros Hn Hv. unfold publickey, RSA.init. cbn [nonzero orb Py.bind].
  destruct (Z.leb_spec (key_n key) 0); [lia|].
  rewrite append_nonempty by discriminate. cbn [Py.bind fst].
  destruct (deepcopy_texts_total (texts key) st [] Hv) as [[st1 ts1] D].
  rewrite D. cbn [Py.bind fst snd].
  eexists _, _. split; [reflexivity|].
  do 5 (split; [reflexivity|]).
  destruct (deepcopy_texts_fresh _ _ _ _ Hv D) as (Hext & HF & Hshare).
  split; [exact Hext|]. split.
  { cbn [texts set_texts]. clear - HF.
    induction HF as [|a a' l l' [Ha _] _ IH]; constructor; assumption. }
  split; [|exact Hshare].
  apply pairs_of_ext. cbn [texts set_texts]. apply Forall2_flip.
  apply (Forall2_impl _ _ _ _ HF). intros a a' [_ Hc]. exact Hc.
Qed.

Lemma alias_key_valid : texts_valid alias_store alias_key.
Proof. intros a [<-|[<-|[<-|[]]]]; simpl; lia. Qed.

Lemma copy_is_deep_witness :
  exists st' key',
    copy "c" [] alias_store alias_key "" = Ok (st', key') /\
    ((exists ext, st' = alias_store ++ ext) /\
     Forall (fun a' => (length alias_store <= a' < length st')%nat) (texts key') /\
     pairs_of st' key' = pairs_of alias_store alias_key /\
     (forall i j a b a' b',
        texts alias_key !! i = Some a -> texts alias_key !! j = Some b ->
        texts key' !! i = Some a' -> texts key' !! j = Some b' -> a = b <-> a' = b') /\
     key_n key' = key_n alias_key /\ key_e key' = key_e alias_key).
Proof.
  eexists _, _. split; [reflexivity|].
  exact (copy_is_deep "c" [] alias_store alias_key "" _ _ alias_key_valid eq_refl).
Defined.

Lemma copy_is_independent_witness :
  exists st' key' st'' key'',
    copy "c" [] alias_store alias_key "" = Ok (st', key') /\
    add_plaintext st' key' (VInt 2) (Some 0) = Ok (st'', key'') /\
    pairs_of st'' alias_key = pairs_of alias_store alias_key.
Proof.
  eexists _, _, _, _. split; [reflexivity|]. split; [reflexivity|].
  exact (copy_is_independent "c" [] alias_store alias_key "" _ _ 2 0 _ _
           alias_key_valid eq_refl eq_refl).
Defined.

Lemma publickey_has_no_private_part_witness :
  exists st' key',
    publickey "c" alias_store alias_key "k" = Ok (st', key') /\
    has_private key' = false /\ (forall c, RSA.decrypt key' c = Err PyException) /\
    key_n key' = key_n alias_key /\ key_e key' = key_e alias_key /\
    identifier key' = "k - publickey" /\
    (exists ext, st' = alias_store ++ ext) /\
    Forall (fun a' => (length alias_store <= a' < length st')%nat) (texts key') /\
    pairs_of st' key' = pairs_of alias_store alias_key /\
    (forall i j a b a' b',
       texts alias_key !! i = Some a -> texts alias_key !! j = Some b ->
       texts key' !! i = Some a' -> texts key' !! j = Some b' -> a = b <-> a' = b').
Proof.
  exact (publickey_has_no_private_part "c" alias_store alias_key "k" eq_refl alias_key_valid).
Defined.

(** ** Faulty signatures *)

Lemma gcd_proper_factor x n p :
  0 < n -> Z.gcd x n = p -> p <> 1 -> p <> n -> (p | n) /\ 1 < p < n.
Proof.
  intros Hn <- H1 Hne.
  pose proof (Z.gcd_divide_r x n) as Hd. pose proof (Z.gcd_nonneg x n).
  split; [exact Hd|].
  assert (Z.gcd x n <> 0) by (intros E; rewrite E in Hd; destruct Hd; lia).
  apply Z.divide_pos_le in Hd; lia.
Qed.

Lemma faulty_pairs_gcd padding key ps p :
  faulty_pairs padding key ps = Some p ->
  exists x, Z.gcd x (key_n key) = p /\ p <> 1 /\ p <> key_n key.
Proof.
  induction ps as [|t ps IH]; cbn [faulty_pairs]; [discriminate|].
  destruct (plain t) as [m|]; [|exact IH].
  destruct (cipher t) as [s|]; [|exact IH].
  match goal with |- context [Z.gcd ?x _] => set (g := Z.gcd x (key_n key)); pose (y := x) end.
  destruct (Z.eqb_spec g 1); cbn [negb andb]; [exact IH|].
  destruct (Z.eqb_spec g (key_n key)); cbn [negb]; [exact IH|].
  intros [= <-]. exists y. auto.
Qed.

Lemma faulty_signatures_gcd key ps p :
  faulty_signatures key ps = Some p ->
  exists x, Z.gcd x (key_n key) = p /\ p <> 1 /\ p <> key_n key.
Proof.
  induction ps as [|[s s'] ps IH]; cbn [faulty_signatures]; [discriminate|].
  set (g := Z.gcd (s - s') (key_n key)).
  destruct (Z.eqb_spec g 1); cbn [negb andb]; [exact IH|].
  destruct (Z.eqb_spec g (key_n key)); cbn [negb]; [exact IH|].
  intros [= <-]. exists (s - s'). auto.
Qed.

Lemma faulty_key_sound obj_id key x p new_key :
  Z.gcd x (key_n key) = p -> p <> 1 -> p <> key_n key ->
  faulty_key obj_id key p = Ok (Some new_key) ->
  exists q d,
    key_p new_key = Some p /\ key_q new_key = Some q /\ key_d new_key = Some d /\
    p * q = key_n key /\ 1 < p < key_n key /\
    (key_e key * d) mod ((p - 1) * (q - 1)) = 1 mod ((p - 1) * (q - 1)) /\
    key_n new_key = key_n key /\ key_e new_key = key_e key /\ texts new_key = texts key.
Proof.
  intros Hg H1 Hne. unfold faulty_key.
  destruct (construct _ _ _ _ _ _ _ _ _) as [[k rest]|] eqn:E; cbn [Py.bind]; [|discriminate].
  intros [= <-].
  pose proof (init_fields _ _ _ _ _ _ _ _ _ _ _ E) as (_ & _ & _ & Hn & _).
  destruct (gcd_proper_factor x _ p Hn Hg H1 Hne) as [[c Hc] Hp].
  assert (Hq : key_n key / p = c) by (rewrite Hc; apply Z.div_mul; lia).
  assert (Hc1 : 1 < c) by nia.
  assert (Hpp : key_n key / c = p) by (rewrite Hc, Z.mul_comm; apply Z.div_mul; lia).
  unfold construct, RSA.init in E. cbn [nonzero int_of orb negb] in E.
  destruct (Z.eqb_spec p 0) as [|_]; [lia|]. cbn [negb orb] in E.
  unfold floordiv in E.
  destruct (Z.eqb_spec p 0) as [|_]; [lia|]. cbn [Py.bind] in E. rewrite Hq in E.
  destruct (Z.eqb_spec c 0) as [|_]; [lia|]. cbn [Py.bind] in E. rewrite Hpp in E.
  destruct (invmod (key_e key) ((p - 1) * (c - 1))) as [d|] eqn:I; cbn [Py.bind] in E;
    [|discriminate].
  destruct (Z.leb_spec (key_n key) 0); [lia|].
  injection E as <- _.
  exists c, d. cbn. repeat split; try lia.
  apply invmod_sound; [nia|exact I].
Qed.

(** X10: a key that [faulty] returns holds a proper factor [p] of the
    modulus, the cofactor [q = n / p], and a private exponent that inverts
    [e] modulo [(p - 1) * (q - 1)]; it shares the text pairs of the key. *)
Theorem faulty_sound obj_id st key padding new_key :
  faulty obj_id st key padding = Ok (Some new_key) ->
  exists p q d,
    key_p new_key = Some p /\ key_q new_key = Some q /\ key_d new_key = Some d /\
    p * q = key_n key /\ 1 < p < key_n key /\
    (key_e key * d) mod ((p - 1) * (q - 1)) = 1 mod ((p - 1) * (q - 1)) /\
    key_n new_key = key_n key /\ key_e new_key = key_e key /\ texts new_key = texts key.
Proof.
  unfold faulty.
  destruct (pairs_of st key) as [ps|]; cbn [Py.bind]; [|discriminate].
  destruct (faulty_pairs padding key ps) as [p|] eqn:F.
  - apply faulty_pairs_gcd in F. destruct F as (x & Hg & H1 & Hne).
    intros H. exists p. exact (faulty_key_sound _ _ _ _ _ Hg H1 Hne H).
  - destruct (faulty_signatures key _) as [p|] eqn:G; [|discriminate].
    apply faulty_signatures_gcd in G. destruct G as (x & Hg & H1 & Hne).
    intros H. exists p. exact (faulty_key_sound _ _ _ _ _ Hg H1 Hne H).
Qed.

Lemma gcd_semiprime x p q :
  0 < p -> Z.prime q -> (p | x) -> ~ (q | x) -> Z.gcd x (p * q) = p.
Proof.
  intros Hp Hq Hpx Hqx.
  pose proof (Z.gcd_nonneg x (p * q)) as Hnn.
  pose proof (Z.gcd_divide_l x (p * q)) as Hl.
  pose proof (Z.gcd_divide_r x (p * q)) as Hr.
  assert (Hpg : (p | Z.gcd x (p * q))).
  { apply Z.gcd_greatest; [exact Hpx|]. exists q. ring. }
  destruct Hpg as [h Hh]. rewrite Hh in *.
  assert (Hhq : (h | q)).
  { apply (Z.mul_divide_cancel_r h q p); [lia|]. rewrite (Z.mul_comm q p). exact Hr. }
  assert (0 <= h) by nia.
  pose proof (Z.prime_ge_2 q Hq).
  destruct (Z.divide_prime_r h q Hq Hhq) as [E|[E|[E|E]]]; try lia.
  exfalso. apply Hqx. rewrite <- E. etransitivity; [|exact Hl]. exists p. ring.
Qed.

(** X11: Boneh-DeMillo-Lipton. When the first text pair of a key with
    [n = p * q] holds a message and a signature [s] that is right modulo [p]
    and wrong modulo [q] ([s^e = padding(m)] mod [p], not mod [q]), and [e]
    is prime to [(p - 1) * (q - 1)], then [faulty] returns the private key
    with the factors [p] and [q]. *)
Theorem faulty_recovers_factors obj_id st key padding p q s m rest :
  Z.prime p -> Z.prime q -> key_n key = p * q ->
  Z.gcd (key_e key) ((p - 1) * (q - 1)) = 1 ->
  pairs_of st key = Ok ({| cipher := Some s; plain := Some m |} :: rest) ->
  (p | s ^ key_e key - padded padding m) ->
  ~ (q | s ^ key_e key - padded padding m) ->
  exists new_key d,
    faulty obj_id st key padding = Ok (Some new_key) /\
    key_p new_key = Some p /\ key_q new_key = Some q /\ key_d new_key = Some d /\
    (key_e key * d) mod ((p - 1) * (q - 1)) = 1 mod ((p - 1) * (q - 1)) /\
    texts new_key = texts key.
Proof.
  intros Hp Hq Hn He Hps Hpx Hqx.
  pose proof (Z.prime_ge_2 p Hp). pose proof (Z.prime_ge_2 q Hq).
  assert (Hg : Z.gcd (s ^ key_e key - padded padding m) (key_n key) = p).
  { rewrite Hn. apply gcd_semiprime; auto; lia. }
  assert (Hqn : key_n key / p = q) by (rewrite Hn, Z.mul_comm; apply Z.div_mul; lia).
  unfold faulty. rewrite Hps. cbn [Py.bind faulty_pairs plain cipher].
  fold (padded padding m). rewrite Hg.
  destruct (Z.eqb_spec p 1); [lia|]. destruct (Z.eqb_spec p (key_n key)); [nia|].
  cbn [negb andb]. unfold faulty_key, construct.
  destruct (init_from_factor obj_id [] (key_n key) (key_e key) p []
              (identifier key ++ "-private")%string)
    as (k & d & E & _ & _ & Kp & Kq & Kd & _ & _ & Hd & _).
  { nia. } { exists q. lia. } { rewrite Hqn. exact He. }
  rewrite E. cbn [Py.bind fst].
  exists (set_texts k (texts key)), d. rewrite Hqn in *.
  repeat split; assumption.
Qed.

Lemma prime_5 : Z.prime 5.
Proof.
  split; [lia|]. intros n Hn [c Hc].
  assert (n = 2 \/ n = 3 \/ n = 4) as [-> | [-> | ->]] by lia; lia.
Qed.

Lemma prime_11 : Z.prime 11.
Proof.
  split; [lia|]. intros n Hn [c Hc].
  assert (n = 2 \/ n = 3 \/ n = 4 \/ n = 5 \/ n = 6 \/ n = 7 \/ n = 8 \/ n = 9 \/ n = 10)
    as [-> | [-> | [-> | [-> | [-> | [-> | [-> | [-> | ->]]]]]]]] by lia; lia.
Qed.

Lemma faulty_recovers_factors_witness :
  exists new_key d,
    faulty "f" [{| cipher := Some 3; plain := Some 2 |}] (public_key 55 3 [0%nat] "k") None
    = Ok (Some new_key) /\
    key_p new_key = Some 5 /\ key_q new_key = Some 11 /\ key_d new_key = Some d /\
    (3 * d) mod ((5 - 1) * (11 - 1)) = 1 mod ((5 - 1) * (11 - 1)) /\
    texts new_key = [0%nat].
Proof.
  apply (faulty_recovers_factors "f" [{| cipher := Some 3; plain := Some 2 |}]
           (public_key 55 3 [0%nat] "k") None 5 11 3 2 []).
  - exact prime_5.
  - exact prime_11.
  - reflexivity.
  - reflexivity.
  - reflexivity.
  - exists 5. reflexivity.
  - intros [c Hc]. simpl in Hc. lia.
Defined.

Lemma faulty_sound_witness :
  exists new_key,
    faulty "f" [{| cipher := Some 3; plain := Some 2 |}] (public_key 55 3 [0%nat] "k") None
    = Ok (Some new_key) /\
    exists p q d,
      key_p new_key = Some p /\ key_q new_key = Some q /\ key_d new_key = Some d /\
      p * q = 55 /\ 1 < p < 55 /\
      (3 * d) mod ((p - 1) * (q - 1)) = 1 mod ((p - 1) * (q - 1)) /\
      key_n new_key = 55 /\ key_e new_key = 3 /\ texts new_key = [0%nat].
Proof.
  exists {| key_n := 55; key_e := 3; key_d := Some 27; key_p := Some 5; key_q := Some 11;
            key_size := 8; identifier := "k-private"; texts := [0%nat] |}.
  split; [vm_compute; reflexivity|].
  apply (faulty_sound "f" [{| cipher := Some 3; plain := Some 2 |}]
           (public_key 55 3 [0%nat] "k") None).
  vm_compute. reflexivity.
Defined.

(** ** Blinding *)

Lemma unblind n e d r x i :
  1 < n -> 0 <= e -> 0 <= d -> rsa_inverts n e d ->
  (r * i) mod n = 1 mod n ->
  (i * pow_mod ((x * pow_mod r e n) mod n) d n) mod n = pow_mod x d n.
Proof.
  intros Hn He Hd Hinv Hi.
  rewrite !pow_mod_spec by lia.
  rewrite Z.mod_pow_l, Z.pow_mul_l.
  assert (Hr : ((r ^ e mod n) ^ d) mod n = r mod n).
  { rewrite <- (Z.mod_pow_l r e n). apply Hinv. apply Z.mod_pos_bound. lia. }
  rewrite Z.mul_mod_idemp_r by lia.
  rewrite (Z.mul_comm i), <- Z.mul_assoc.
  rewrite <- Z.mul_mod_idemp_r by lia.
  rewrite <- (Z.mul_mod_idemp_l ((r ^ e mod n) ^ d)) by lia.
  rewrite Hr, Z.mul_mod_idemp_l, Hi by lia.
  rewrite Z.mod_1_l by lia. rewrite Z.mul_1_r. reflexivity.
Qed.

Lemma fold_left_Err {A B} (body : A -> B -> result A) (l : list B) err :
  fold_left (fun r x => let* acc := r in body acc x) l (Err err) = Err err.
Proof. induction l as [|x l IH]; [reflexivity|exact IH]. Qed.

Section Blinding.

Variables (rand : nat -> Z) (st : store) (key : RSAKey) (d : Z).
Variables (have want : text_pair -> option Z) (put : text_pair -> Z -> text_pair).

Hypothesis Hn : 1 < key_n key.
Hypothesis He : 0 <= key_e key.
Hypothesis Hd : 0 <= d.
Hypothesis Hinv : rsa_inverts (key_n key) (key_e key) d.
Hypothesis Hrand : forall i, Z.gcd (rand i) (key_n key) = 1.
Hypothesis Hnodup : NoDup (texts key).
Hypothesis Hvalid : texts_valid st key.
Hypothesis Hnonzero : forall a t x,
  In a (texts key) -> st !! a = Some t -> have t = Some x -> want t = None ->
  pow_mod x d (key_n key) <> 0.

Lemma blinding_loop_inv (k : nat) :
  (k <= length (texts key))%nat ->
  exists recovered st' drawn,
    fold_left (fun r text_no =>
                 let* acc' := r in blinding_body rand (power_oracle (key_n key) d) key have want put acc' text_no)
              (seq 0 k) (Ok ([], st, 0%nat)) = Ok (recovered, st', drawn) /\
    blinded have want put (power_oracle (key_n key) d) st key k recovered st'.
Proof.
  induction k as [|k IH]; intros Hk.
  - exists [], st, 0%nat. split; [reflexivity|].
    split; [reflexivity|]. split; [reflexivity|]. split.
    + intros i a t Hi. lia.
    + intros i y [].
  - destruct (IH ltac:(lia)) as (rec & stk & drawn & Hrun & Hlen & Hframe & Hdone & Hidx).
    rewrite seq_S, fold_left_app, Hrun. cbn [fold_left Py.bind Nat.add].
    destruct (lookup_lt_is_Some_2 (texts key) k ltac:(lia)) as [a Ha].
    assert (Hin : In a (texts key)).
    { apply list_elem_of_In. eapply list_elem_of_lookup_2. exact Ha. }
    destruct (lookup_lt_is_Some_2 st a (Hvalid a Hin)) as [t Ht].
    assert (Hfresh : forall i, (i < k)%nat -> texts key !! i <> Some a).
    { intros i Hi Hia. pose proof (NoDup_lookup _ _ _ _ Hnodup Hia Ha).
      lia. }
    assert (Hta : stk !! a = Some t) by (rewrite Hframe by exact Hfresh; exact Ht).
    unfold blinding_body. rewrite Ha. cbn [of_option Py.bind]. rewrite Hta. cbn [of_option Py.bind].
    assert (Hkeep : forall st2 rec2,
              length st2 = length st ->
              (forall b, b <> a -> st2 !! b = stk !! b) ->
              (forall i y, In (i, y) rec -> In (i, y) rec2) ->
              (forall i, (i < k)%nat -> In i (map fst rec2) -> In i (map fst rec)) ->
              (forall i y, In (i, y) rec2 -> (i < S k)%nat) ->
              match have t, want t with
              | Some x, None => st2 !! a = Some (put t (power_oracle (key_n key) d x)) /\ In (k, power_oracle (key_n key) d x) rec2
              | _, _ => st2 !! a = Some t /\ ~ In k (map fst rec2)
              end ->
              blinded have want put (power_oracle (key_n key) d) st key (S k) rec2 st2).
    { intros st2 rec2 L2 F2 I2 N2 X2 K2. split; [exact L2|]. split; [|split; [|exact X2]].
      - intros b Hb. rewrite F2.
        + apply Hframe. intros i Hi. apply Hb. lia.
        + intros ->. apply (Hb k); [lia|exact Ha].
      - intros i b tb Hi Hib Hb.
        destruct (Nat.eq_dec i k) as [->|Hik].
        + rewrite Ha in Hib. injection Hib as <-. rewrite Ht in Hb. injection Hb as <-.
          exact K2.
        + assert (Hba : b <> a).
          { intros ->. apply (Hfresh i); [lia|exact Hib]. }
          specialize (Hdone i b tb ltac:(lia) Hib Hb). rewrite F2 by exact Hba.
          destruct (have tb) as [x|]; [destruct (want tb)|];
            destruct Hdone as [D1 D2]; (split; [exact D1|]); auto.
          all: intros Hc; apply D2, N2; [lia|exact Hc]. }
    destruct (have t) as [x|] eqn:Hh; [destruct (want t) as [w|] eqn:Hw|].
    + eexists _, _, _. split; [reflexivity|].
      apply Hkeep; [exact Hlen|reflexivity|auto|auto| |].
      { intros i y Hc. apply Hidx in Hc. lia. }
      split; [exact Hta|].
      intros Hc. apply in_map_iff in Hc. destruct Hc as ([i y] & Hi & Hc). simpl in Hi. subst i.
      apply Hidx in Hc. lia.
    + destruct (invmod_complete (rand drawn) (key_n key) ltac:(lia) (Hrand drawn))
        as (inv & Hi & _ & Hm).
      pose proof (unblind (key_n key) (key_e key) d (rand drawn) x inv Hn He Hd Hinv Hm) as Hy.
      unfold encrypt.
      set (answer := power_oracle (key_n key) d ((x * pow_mod (rand drawn) (key_e key) (key_n key)) mod key_n key)).
      change (pow_mod ((x * pow_mod (rand drawn) (key_e key) (key_n key)) mod key_n key) d
                      (key_n key)) with answer in Hy.
      change (pow_mod x d (key_n key)) with (power_oracle (key_n key) d x) in Hy.
      destruct (Z.eqb_spec answer 0) as [E|_].
      { exfalso. rewrite E, Z.mul_0_r, Z.mod_0_l in Hy by lia.
        apply (Hnonzero a t x Hin Ht Hh Hw). symmetry. exact Hy. }
      rewrite Hi. cbn [Py.bind]. rewrite Hy.
      eexists _, _, _. split; [reflexivity|].
      apply Hkeep.
      * rewrite length_insert. exact Hlen.
      * intros b Hb. apply list_lookup_insert_ne. auto.
      * intros i y Hc. apply in_or_app. left. exact Hc.
      * intros i Hik Hc. rewrite map_app in Hc. apply in_app_or in Hc.
        destruct Hc as [Hc|[Hc|[]]]; [exact Hc|simpl in Hc; lia].
      * intros i y Hc. apply in_app_or in Hc. destruct Hc as [Hc|[[= <- <-]|[]]]; [|lia].
        apply Hidx in Hc. lia.
      * split; [|apply in_or_app; right; left; reflexivity].
        apply list_lookup_insert_eq. apply lookup_lt_Some in Hta. exact Hta.
    + eexists _, _, _. split; [reflexivity|].
      apply Hkeep; [exact Hlen|reflexivity|auto|auto| |].
      { intros i y Hc. apply Hidx in Hc. lia. }
      split; [exact Hta|].
      intros Hc. apply in_map_iff in Hc. destruct Hc as ([i y] & Hi & Hc). simpl in Hi. subst i.
      apply Hidx in Hc. lia.
Qed.

Lemma blinding_loop_spec :
  exists recovered st' drawn,
    blinding_loop rand (power_oracle (key_n key) d) key have want put ([], st, 0%nat) = Ok (recovered, st', drawn) /\
    blinded have want put (power_oracle (key_n key) d) st key (length (texts key)) recovered st'.
Proof. exact (blinding_loop_inv (length (texts key)) ltac:(lia)). Qed.

End Blinding.

(** ** Decryption inverts encryption *)

Lemma fermat_power p x k :
  Z.prime p -> 0 <= k -> (x ^ (1 + k * (p - 1))) mod p = x mod p.
Proof.
  intros Hp Hk. pose proof (Z.prime_ge_2 p Hp).
  rewrite Z.pow_add_r, Z.pow_1_r by nia.
  destruct (Z.eq_dec (x mod p) 0) as [E|E].
  - rewrite <- Z.mul_mod_idemp_l, E by lia. reflexivity.
  - replace (k * (p - 1)) with ((p - 1) * k) by ring.
    rewrite Z.pow_mul_r by lia.
    rewrite <- Z.mul_mod_idemp_r by lia.
    rewrite <- (Z.mod_pow_l (x ^ (p - 1)) k p).
    rewrite (ZmodInv.Z.fermat_nz p x Hp E), Z.pow_1_l by lia.
    rewrite Z.mul_mod_idemp_r, Z.mul_1_r by lia. reflexivity.
Qed.

Lemma rsa_correct p q e d :
  Z.prime p -> Z.prime q -> p <> q -> 0 <= e -> 0 <= d ->
  (e * d) mod ((p - 1) * (q - 1)) = 1 ->
  rsa_inverts (p * q) e d.
Proof.
  intros Hp Hq Hpq He Hd Hed x Hx.
  pose proof (Z.prime_ge_2 p Hp). pose proof (Z.prime_ge_2 q Hq).
  assert (Hphi : 0 < (p - 1) * (q - 1)) by nia.
  rewrite Z.mod_pow_l, <- Z.pow_mul_r by lia.
  pose proof (Z.div_mod (e * d) ((p - 1) * (q - 1)) ltac:(lia)) as Hk.
  rewrite Hed in Hk.
  assert (Hk0 : 0 <= e * d / ((p - 1) * (q - 1))) by (apply Z.div_pos; nia).
  set (k := e * d / ((p - 1) * (q - 1))) in *.
  assert (Hmp : (x ^ (e * d)) mod p = x mod p).
  { replace (e * d) with (1 + (k * (q - 1)) * (p - 1)) by lia.
    apply fermat_power; [exact Hp|nia]. }
  assert (Hmq : (x ^ (e * d)) mod q = x mod q).
  { replace (e * d) with (1 + (k * (p - 1)) * (q - 1)) by lia.
    apply fermat_power; [exact Hq|nia]. }
  assert (Dp : (p | x ^ (e * d) - x)).
  { apply Z.mod_divide; [lia|]. rewrite Zminus_mod, Hmp, Z.sub_diag. apply Z.mod_0_l. lia. }
  assert (Dq : (q | x ^ (e * d) - x)).
  { apply Z.mod_divide; [lia|]. rewrite Zminus_mod, Hmq, Z.sub_diag. apply Z.mod_0_l. lia. }
  assert (Dn : (p * q | x ^ (e * d) - x)).
  { destruct Dp as [c Hc]. rewrite Hc in Dq |- *. rewrite Z.mul_comm in Dq.
    apply Z.gauss in Dq.
    - destruct Dq as [c' ->]. exists c'. ring.
    - apply Z.coprime_prime_l; [exact Hq|].
      intros Hd'. apply Hpq. symmetry. apply (Z.divide_prime_prime q p Hq Hp Hd'). }
  destruct Dn as [c Hc].
  replace (x ^ (e * d)) with (x + c * (p * q)) by lia.
  rewrite Z.mod_add by nia. apply Z.mod_small. exact Hx.
Qed.

(** X12: for distinct primes [p] and [q] and an exponent [e >= 0] prime to
    [(p - 1) * (q - 1)], the key [RSAKey(p * q, e, p=p)] decrypts what it
    encrypts: [decrypt(encrypt(m)) = m] for every [0 <= m < n]. *)
Theorem decrypt_inverts_encrypt obj_id draws p q e ts id :
  Z.prime p -> Z.prime q -> p <> q -> 0 <= e ->
  Z.gcd e ((p - 1) * (q - 1)) = 1 ->
  exists key,
    RSA.init obj_id draws (p * q) e None (Some p) None ts id = Ok (key, draws) /\
    forall m, 0 <= m < p * q -> RSA.decrypt key (encrypt key m) = Ok m.
Proof.
  intros Hp Hq Hpq He Hg.
  pose proof (Z.prime_ge_2 p Hp). pose proof (Z.prime_ge_2 q Hq).
  assert (Hqn : p * q / p = q) by (rewrite Z.mul_comm; apply Z.div_mul; lia).
  destruct (init_from_factor obj_id draws (p * q) e p ts id)
    as (key & d & E & Kn & Ke & Kp & Kq & Kd & _ & Hd & Hm & _).
  { nia. } { exists q. ring. } { rewrite Hqn. exact Hg. }
  rewrite Hqn in *.
  exists key. split; [exact E|].
  intros m Hm'.
  assert (Hpriv : has_private key = true).
  { unfold has_private. rewrite Kp. cbn [nonzero].
    destruct (Z.eqb_spec p 0); [lia|]. cbn [negb]. rewrite orb_true_r. reflexivity. }
  unfold RSA.decrypt, encrypt. rewrite Hpriv, Kd, Kn, Ke. cbn [int_of]. f_equal.
  rewrite !pow_mod_spec by nia.
  apply (rsa_correct p q e d); auto; try lia.
  rewrite Hm. apply Z.mod_small. nia.
Qed.

Lemma decrypt_inverts_encrypt_witness :
  exists key,
    RSA.init "id" [] (5 * 11) 3 None (Some 5) None [] "k" = Ok (key, []) /\
    forall m, 0 <= m < 5 * 11 -> RSA.decrypt key (encrypt key m) = Ok m.
Proof.
  apply (decrypt_inverts_encrypt "id" [] 5 11 3 [] "k").
  - exact prime_5.
  - exact prime_11.
  - discriminate.
  - discriminate.
  - reflexivity.
Defined.

(** ** Blinding with an honest oracle *)



(** X15: the message 0 cannot be signed by blinding: its blinded form is 0,
    an oracle that answers 0 to 0, as an honest signer does, is taken to
    have failed, and the run ends in a critical error. *)
Theorem blinding_rejects_zero rand st key oracle a rest :
  texts key = a :: rest ->
  st !! a = Some {| cipher := None; plain := Some 0 |} ->
  oracle 0 = 0 ->
  blinding rand st key (Some oracle) None = Err InvalidArgument.
Proof.
  intros Ht Ha Ho. unfold blinding, blinding_loop. rewrite Ht.
  cbn [length seq fold_left Py.bind]. unfold blinding_body at 2.
  rewrite Ht. cbn [lookup list_lookup of_option Py.bind]. rewrite Ha.
  cbn [of_option Py.bind plain cipher].
  rewrite Z.mul_0_l, Zmod_0_l, Ho. cbn [Z.eqb].
  rewrite fold_left_Err. reflexivity.
Qed.



Lemma blinding_rejects_zero_witness :
  blinding (fun _ => 2) [{| cipher := None; plain := Some 0 |}]
           (public_key 55 3 [0%nat] "k") (Some (power_oracle 55 27)) None
  = Err InvalidArgument.
Proof.
  exact (blinding_rejects_zero (fun _ => 2) [{| cipher := None; plain := Some 0 |}]
           (public_key 55 3 [0%nat] "k") (power_oracle 55 27) 0%nat []
           eq_refl eq_refl eq_refl).
Defined.

(** ** The parity attack under any oracle *)

Lemma parity_loop_any oracle n two (fuel : nat) : forall calls0 s k,
  0 < n -> parity_frame n calls0 s k -> n <= 2 ^ (k + Z.of_nat fuel) ->
  exists s' k',
    parity_loop fuel oracle n two s = Ok s' /\ parity_frame n calls0 s' k' /\
    k <= k' <= k + Z.of_nat fuel.
Proof.
  induction fuel as [|fuel IH]; intros calls0 s k Hn HI Hle.
  - exists s, k. rewrite Z.add_0_r in Hle.
    destruct HI as (Hk & Hden & Hnum & Hl & Hu & Hcalls).
    pose proof (bounds_close n (numerator s) k Hk Hle ltac:(lia)) as Hcl.
    rewrite <- Hl, <- Hu in Hcl.
    simpl. destruct (Z.ltb_spec (lower_bound s + 1) (upper_bound s)); [lia|].
    split; [reflexivity|]. split; [|lia]. repeat split; auto; lia.
  - cbn [parity_loop].
    destruct (Z.ltb_spec (lower_bound s + 1) (upper_bound s)) as [Hlt|Hge].
    + destruct HI as (Hk & Hden & Hnum & Hl & Hu & Hcalls).
      match goal with
      | |- exists s' k', parity_loop fuel oracle n two ?s1 = _ /\ _ =>
          destruct (IH calls0 s1 (k + 1) Hn) as (s' & k' & Hrun & HI' & Hk')
      end.
      { unfold parity_frame. cbn [denominator numerator lower_bound upper_bound calls].
        assert (HP : 0 < 2 ^ k) by (apply Z.pow_pos_nonneg; lia).
        rewrite Hden, Z.pow_add_r, Z.pow_1_r by lia.
        unfold len in *. cbn [length]. rewrite Nat2Z.inj_succ.
        destruct (negb (oracle _ =? 0)); repeat split; try lia. }
      { replace (k + 1 + Z.of_nat fuel) with (k + Z.of_nat (S fuel)) by lia. exact Hle. }
      exists s', k'. split; [exact Hrun|]. split; [exact HI'|]. lia.
    + exists s, k. split; [reflexivity|]. split; [exact HI|]. lia.
Qed.

Lemma parity_frame_bounds n calls0 s k :
  0 < n -> parity_frame n calls0 s k -> 0 <= upper_bound s <= n.
Proof.
  intros Hn (Hk & Hden & Hnum & Hl & Hu & Hcalls).
  assert (HP : 0 < 2 ^ k) by (apply Z.pow_pos_nonneg; lia).
  rewrite Hu. split.
  - apply Z.div_pos; nia.
  - apply Z.div_le_upper_bound; nia.
Qed.

Lemma parity_changes_refl n st : parity_changes n st st.
Proof. split; [reflexivity|]. intros a t Ht. left. exact Ht. Qed.

Lemma parity_fold oracle st key (k : nat) :
  0 < key_n key -> texts_valid st key -> (k <= length (texts key))%nat ->
  exists recovered st' calls,
    fold_left (fun acc text_no => let* a := acc in parity_body oracle key a text_no)
              (seq 0 k) (Ok ([], st, [1])) = Ok (recovered, st', calls) /\
    parity_changes (key_n key) st st' /\
    len calls <= 1 + Z.of_nat k * Z.log2_up (key_n key) /\
    Forall (fun r => (fst r < k)%nat /\ 0 <= snd r <= key_n key) recovered.
Proof.
  intros Hn Hv. induction k as [|k IH]; intros Hk.
  - exists [], st, [1]. split; [reflexivity|]. split; [apply parity_changes_refl|].
    split; [unfold len; simpl; lia|constructor].
  - destruct (IH ltac:(lia)) as (rec & stk & calls0 & Hrun & [Hlen Hch] & Hcalls & Hrec).
    rewrite seq_S, fold_left_app, Hrun. cbn [fold_left Py.bind Nat.add].
    destruct (lookup_lt_is_Some_2 (texts key) k ltac:(lia)) as [a Ha].
    assert (Hin : In a (texts key)).
    { apply list_elem_of_In. eapply list_elem_of_lookup_2. exact Ha. }
    destruct (lookup_lt_is_Some_2 stk a ltac:(rewrite Hlen; exact (Hv a Hin))) as [t Ht].
    assert (Hweak : Forall (fun r => (fst r < S k)%nat /\ 0 <= snd r <= key_n key) rec).
    { eapply Forall_impl; [exact Hrec|]. intros r [H1 H2]. split; [lia|exact H2]. }
    assert (Hlog : 0 <= Z.log2_up (key_n key)) by apply Z.log2_up_nonneg.
    unfold parity_body. rewrite Ha. cbn [of_option Py.bind]. rewrite Ht. cbn [of_option Py.bind].
    destruct (cipher t) as [c|] eqn:Hc; [destruct (plain t) as [m|] eqn:Hp|].
    + exists rec, stk, calls0. split; [reflexivity|]. split; [split; assumption|].
      split; [lia|exact Hweak].
    + match goal with
      | |- context [parity_loop ?f oracle ?n ?two ?s0] =>
          destruct (parity_loop_any oracle n two f calls0 s0 0 Hn) as (s' & k' & Hloop & HI & Hk')
      end.
      { unfold parity_frame. cbn [denominator numerator lower_bound upper_bound calls].
        change (2 ^ 0) with 1. rewrite !Z.div_1_r. repeat split; lia. }
      { rewrite Z.add_0_l, Z2Nat.id by exact Hlog.
        destruct (Z.eq_dec (key_n key) 1) as [E|];
          [rewrite E; change (Z.log2_up 1) with 0; simpl; lia|].
        apply Z.log2_up_spec. lia. }
      rewrite Hloop. cbn [Py.bind].
      pose proof (parity_frame_bounds _ _ _ _ Hn HI) as Hub.
      rewrite Z2Nat.id in Hk' by exact Hlog.
      eexists _, _, _. split; [reflexivity|]. split; [|split].
      * split; [rewrite length_insert; exact Hlen|].
        intros b tb Hb. destruct (Nat.eq_dec b a) as [->|Hba].
        -- right. destruct (Hch a tb Hb) as [Hsame|(c' & m' & _ & _ & Hnew)].
           ++ rewrite Hsame in Ht. injection Ht as ->.
              exists c, (upper_bound s'). destruct t as [tc tp]. simpl in Hc, Hp. subst tc tp.
              split; [reflexivity|]. split; [exact Hub|].
              apply list_lookup_insert_eq. apply lookup_lt_Some in Hsame. exact Hsame.
           ++ rewrite Hnew in Ht. injection Ht as <-. simpl in Hp. discriminate.
        -- rewrite list_lookup_insert_ne by auto. apply Hch. exact Hb.
      * destruct HI as (_ & _ & _ & _ & _ & HL). rewrite HL. nia.
      * apply Forall_app. split; [exact Hweak|].
        constructor; [|constructor]. cbn [fst snd]. split; [lia|exact Hub].
    + exists rec, stk, calls0. split; [reflexivity|]. split; [split; assumption|].
      split; [lia|exact Hweak].
Qed.

(** X16: whatever the oracle answers, [parity] on a key with a positive
    modulus and valid text pairs returns; it calls the oracle at most
    [1 + len(texts) * ceil(log2 n)] times; every value that it recovers lies
    in [[0, n]]; and the only change to the store is that dictionaries with
    a ciphertext and no plaintext may have got a plaintext in [[0, n]]. *)
Theorem parity_ends oracle st key :
  0 < key_n key -> texts_valid st key ->
  exists recovered st' calls,
    parity oracle st key = Ok (recovered, st', calls) /\
    parity_changes (key_n key) st st' /\
    len calls <= 1 + len (texts key) * Z.log2_up (key_n key) /\
    Forall (fun r => (fst r < length (texts key))%nat /\ 0 <= snd r <= key_n key) recovered.
Proof.
  intros Hn Hv.
  destruct (parity_fold oracle st key (length (texts key)) Hn Hv ltac:(lia))
    as (rec & st' & calls & Hrun & Hch & Hcalls & Hrec).
  exists rec, st', (rev calls). unfold parity. rewrite Hrun. cbn [Py.bind].
  split; [reflexivity|]. split; [exact Hch|]. split; [|exact Hrec].
  unfold len in *. rewrite length_rev. exact Hcalls.
Qed.

Lemma parity_ends_witness :
  exists recovered st' calls,
    parity (fun _ => 1) alias_store alias_key = Ok (recovered, st', calls) /\
    parity_changes (key_n alias_key) alias_store st' /\
    len calls <= 1 + len (texts alias_key) * Z.log2_up (key_n alias_key) /\
    Forall (fun r => (fst r < length (texts alias_key))%nat /\ 0 <= snd r <= key_n alias_key)
           recovered.
Proof. exact (parity_ends (fun _ => 1) alias_store alias_key eq_refl alias_key_valid). Defined.

(** ** Common primes *)

(** X17: when no two of the moduli share a factor, [common_primes] returns
    the empty list, and draws no random value. *)
Theorem common_primes_coprime obj_id draws keys :
  (forall k0 k1, In (k0, k1) (combinations2 keys) -> Z.gcd (key_n k0) (key_n k1) = 1) ->
  common_primes obj_id draws keys = Ok [].
Proof.
  unfold common_primes. generalize (combinations2 keys) as pairs.
  induction pairs as [|[k0 k1] pairs IH]; intros H; [reflexivity|].
  cbn [common_primes_loop]. rewrite (H k0 k1) by (left; reflexivity).
  cbn [Z.eqb negb]. apply IH. intros a b Hin. apply H. right. exact Hin.
Qed.

Lemma common_primes_coprime_witness :
  common_primes "c" [] [public_key 55 3 [] "a"; public_key 21 3 [] "b"; public_key 221 3 [] "c"]
  = Ok [].
Proof.
  apply common_primes_coprime.
  intros k0 k1 [[= <- <-]|[[= <- <-]|[[= <- <-]|[]]]]; reflexivity.
Defined.

Lemma small_e_msg_sound_witness :
  exists cs, get_mutable_texts alias_store alias_key = Ok cs /\
    Forall (fun m => exists c k, In c cs /\ 0 <= k < 100 /\
                                 m ^ key_e alias_key = c + k * key_n alias_key /\
                                 encrypt alias_key m = c) [2; 2].
Proof.
  apply (small_e_msg_sound alias_store alias_key [2; 2]). vm_compute. reflexivity.
Defined.

(** ** The padding-oracle engine: termination and arguments *)

Section EngineRuns.

Context {R : Type} (none : R) (oracle : list Z -> list Z -> R -> bool * R)
        (self : PaddingOracle).

Lemma guess_body_position blocks payload_prefix payload_decrypt (s s' : state R) g :
  guess_body oracle self blocks payload_prefix payload_decrypt s g = Ok (Break s') ->
  position s' <= position s.
Proof.
  unfold guess_body.
  destruct (query self payload_prefix payload_decrypt s g) as [iv payload].
  destruct (oracle payload iv (resp s)) as [correct r1].
  destruct correct; [|discriminate].
  destruct (index (payload_modify s) (position s)) as [c|]; cbn [of_option Py.bind];
    [|discriminate].
  unfold chr at 1.
  match goal with
  | |- context [Z.lxor (Z.lxor c g) ?p] => set (dc := Z.lxor (Z.lxor c g) p)
  end.
  destruct (Z.leb_spec 0 dc) as [Hdc|]; cbn [andb]; [|discriminate].
  destruct (dc <? 256); cbn [Py.bind]; [|discriminate].
  destruct (is_correct s).
  - destruct (index blocks (-2)) as [b2|]; cbn [of_option Py.bind]; [|discriminate].
    destruct (index b2 (-1)) as [lc|]; cbn [of_option Py.bind]; [|discriminate].
    destruct (g =? lc); [discriminate|].
    destruct (Z.eqb_spec dc 0) as [|Hnz]; cbn [orb]; [discriminate|].
    destruct (dc >? block_size self); [discriminate|].
    destruct (chr (dc + 1)); cbn [Py.bind]; [|discriminate].
    intros [= <-]. cbn [position]. lia.
  - assert (Hacc : forall r,
              (let* cp := chr (block_size self - position s) in
               let* cp1 := chr (block_size self - position s + 1) in
               Ok (Break {| payload_modify :=
                              slice_to (payload_modify s) (position s)
                              ++ xor [[g] ++ slice_from (payload_modify s) (position s + 1);
                                      [cp]; [cp1]];
                            position := position s;
                            plaintext := dc :: plaintext s;
                            is_correct := false;
                            resp := r |})) = Ok (Break s') ->
              position s' <= position s).
    { intros r. destruct (chr (block_size self - position s)); cbn [Py.bind]; [|discriminate].
      destruct (chr (block_size self - position s + 1)); cbn [Py.bind]; [|discriminate].
      intros [= <-]. cbn [position]. lia. }
    destruct (position s =? block_size self - 1); [|apply Hacc].
    destruct (recheck_query self iv payload) as [iv2 payload2].
    destruct (oracle payload2 iv2 r1) as [correct2 r2].
    destruct correct2; cbn [negb]; [apply Hacc|discriminate].
Qed.

Lemma guess_loop_position guesses blocks payload_prefix payload_decrypt :
  forall (s : state R) found s',
    guess_loop oracle self guesses blocks payload_prefix payload_decrypt s = Ok (found, s') ->
    position s' <= position s.
Proof.
  induction guesses as [|g guesses IH]; intros s found s'; cbn [guess_loop].
  - intros [= <- <-]. lia.
  - destruct (guess_body oracle self blocks payload_prefix payload_decrypt s g) as [[r|s1]|] eqn:E;
      cbn [Py.bind]; [| |discriminate].
    + intros H. apply IH in H. exact H.
    + intros [= <- <-]. eapply guess_body_position. exact E.
Qed.

Lemma after_guesses_position found (s s' : state R) :
  after_guesses found s = Ok s' -> position s' = position s - 1.
Proof.
  unfold after_guesses. destruct found; [intros [= <-]; reflexivity|].
  destruct (is_correct s); [|discriminate].
  cbn. intros [= <-]. reflexivity.
Qed.

Lemma position_loop_ends (fuel : nat) blocks payload_prefix payload_decrypt :
  forall s : state R,
    position s + 1 <= Z.of_nat fuel ->
    position_loop oracle self fuel blocks payload_prefix payload_decrypt s <> Err Diverges.
Proof.
  induction fuel as [|fuel IH]; intros s Hf; cbn [position_loop];
    destruct (Z.ltb_spec (position s) 0) as [Hneg|Hpos]; try discriminate; [lia|].
  destruct (guess_loop oracle self (range 0 256) blocks payload_prefix payload_decrypt s)
    as [[found s1]|e] eqn:G; cbn [Py.bind fst snd].
  - apply guess_loop_position in G.
    destruct (after_guesses found s1) as [s2|e] eqn:A; cbn [Py.bind].
    + apply after_guesses_position in A. apply IH. lia.
    + unfold after_guesses in A. destruct found; [discriminate|].
      destruct (is_correct s1); [|injection A as <-; discriminate].
      cbn in A. discriminate.
  - intros H. injection H as ->.
    revert G. generalize (range 0 256) as guesses. intros guesses. revert s Hf Hpos.
    induction guesses as [|g guesses IHg]; intros s Hf Hpos; cbn [guess_loop]; [discriminate|].
    destruct (guess_body oracle self blocks payload_prefix payload_decrypt s g) as [[r|s1]|e] eqn:E;
      cbn [Py.bind].
    + apply IHg; cbn [position set_resp]; assumption.
    + discriminate.
    + intros [= ->]. revert E. unfold guess_body.
      destruct (query self payload_prefix payload_decrypt s g) as [iv payload].
      destruct (oracle payload iv (resp s)) as [correct r1].
      destruct correct; [|discriminate].
      destruct (index (payload_modify s) (position s)); cbn [of_option Py.bind]; [|discriminate].
      unfold chr.
      repeat match goal with
             | |- context [if ?b then _ else _] => destruct b; cbn [Py.bind of_option negb]
             | |- context [of_option ?o] => destruct o; cbn [Py.bind of_option]
             | |- context [let '(_, _) := ?p in _] => destruct p
             end; discriminate.
Qed.

Lemma block_loop_ends blocks counts : forall c : carry R,
  block_loop oracle self blocks counts c <> Err Diverges.
Proof.
  induction counts as [|count counts IH]; intros c; cbn [block_loop]; [discriminate|].
  destruct (block_body oracle self blocks c count) as [c'|e] eqn:E; cbn [Py.bind];
    [apply IH|].
  intros [= ->]. revert E. unfold block_body.
  destruct (index blocks (count - 1)); cbn [of_option Py.bind]; [|discriminate].
  destruct (index blocks count); cbn [of_option Py.bind]; [|discriminate].
  match goal with
  | |- context [position_loop oracle self ?f ?b ?pp ?pd ?s] =>
      pose proof (position_loop_ends f b pp pd s) as H;
      destruct (position_loop oracle self f b pp pd s) as [s'|e]
  end; cbn [Py.bind]; [discriminate|].
  intros [= ->]. apply H; [|reflexivity]. cbn [position]. lia.
Qed.

Lemma decrypt_ends ciphertext iv ic amount known_plaintext :
  decrypt none oracle self ciphertext iv ic amount known_plaintext <> Err Diverges.
Proof.
  unfold decrypt.
  repeat match goal with
         | |- context [if ?b then _ else _] => destruct b; cbn [Py.bind of_option negb]
         | |- context [of_option ?o] => destruct o; cbn [Py.bind of_option]
         | |- context [chr ?x] => unfold chr
         | |- context [block_loop oracle self ?b ?cs ?c] =>
             pose proof (block_loop_ends b cs c);
             destruct (block_loop oracle self b cs c); cbn [Py.bind]
         end; congruence.
Qed.

Lemma fake_loop_ends counts : forall blocks new_pl_blocks new_ct_blocks op oc,
  fake_loop none oracle self counts blocks new_pl_blocks new_ct_blocks op oc <> Err Diverges.
Proof.
  induction counts as [|count counts IH]; intros blocks npl nct op oc; cbn [fake_loop];
    [discriminate|].
  destruct (fake_body none oracle self blocks npl nct op oc count) as [nct'|e] eqn:E;
    cbn [Py.bind]; [apply IH|].
  intros [= ->]. revert E. unfold fake_body.
  match goal with
  | |- context [Py.bind ?d _] =>
      assert (Hd : d <> Err Diverges)
        by (repeat match goal with
                   | |- context [if ?b then _ else _] => destruct b
                   end; apply decrypt_ends);
      destruct d as [pt|e]
  end; cbn [Py.bind]; [|congruence].
  repeat match goal with
         | |- context [of_option ?o] => destruct o; cbn [Py.bind of_option]
         end; discriminate.
Qed.

(** X19: the engine ends. The loop [while position >= 0] of [decrypt] lowers
    [position] in every turn (by the padding value found, or by one), so
    that the [position + 1] turns which the model gives it for each block
    always suffice: no run of [decrypt], and none of [fake_ciphertext],
    which calls it once for each block, is cut off. *)
Theorem engine_terminates :
  (forall ciphertext iv ic amount known_plaintext,
      decrypt none oracle self ciphertext iv ic amount known_plaintext <> Err Diverges) /\
  (forall new_plaintext original_ciphertext iv original_plaintext,
      fake_ciphertext none oracle self new_plaintext original_ciphertext iv original_plaintext
      <> Err Diverges).
Proof.
  split; [exact decrypt_ends|].
  intros np oc iv op. unfold fake_ciphertext.
  repeat match goal with
         | |- context [if ?b then _ else _] => destruct b; cbn [Py.bind negb]
         | |- context [fake_loop none oracle self ?a ?b ?c ?d ?e ?f] =>
             pose proof (fake_loop_ends a b c d e f);
             destruct (fake_loop none oracle self a b c d e f); cbn [Py.bind]
         end; congruence.
Qed.

End EngineRuns.

Lemma chunks_fuel_length (B : nat) : forall (k fuel : nat) (s : list Z),
  (0 < B)%nat -> length s = (k * B)%nat -> (length s <= fuel)%nat ->
  length (chunks_fuel fuel s B) = k.
Proof.
  induction k as [|k IH]; intros fuel s HB Hs Hf.
  - destruct s; [|discriminate]. destruct fuel; reflexivity.
  - destruct fuel as [|fuel]; [simpl in Hs; lia|].
    destruct s as [|x s]; [simpl in Hs; lia|].
    cbn [chunks_fuel length]. f_equal. apply IH; [exact HB| |].
    + rewrite length_skipn, Hs. simpl. lia.
    + rewrite length_skipn. simpl in Hf |- *. lia.
Qed.

Lemma chunks_len s B :
  0 < B -> len s mod B = 0 -> len (chunks s B) = len s / B.
Proof.
  intros HB Hm. unfold chunks, len in *.
  pose proof (Z.div_mod (Z.of_nat (length s)) B ltac:(lia)) as Hd. rewrite Hm in Hd.
  assert (Hq : 0 <= Z.of_nat (length s) / B) by (apply Z.div_pos; lia).
  assert (Hl : length s = (Z.to_nat (Z.of_nat (length s) / B) * Z.to_nat B)%nat).
  { apply Nat2Z.inj. rewrite Nat2Z.inj_mul, !Z2Nat.id by lia. lia. }
  rewrite (chunks_fuel_length (Z.to_nat B) (Z.to_nat (Z.of_nat (length s) / B)) (length s) s
             ltac:(lia) Hl ltac:(lia)).
  lia.
Qed.

Section EngineArguments.

Context {R : Type} (none : R) (oracle : list Z -> list Z -> R -> bool * R)
        (self : PaddingOracle).

Hypothesis HB : 0 < block_size self.

Lemma decrypt_blocks_count ciphertext iv :
  len ciphertext mod block_size self = 0 ->
  len (if truthy iv then bytes_of iv :: chunks ciphertext (block_size self)
       else chunks ciphertext (block_size self)) = block_count self ciphertext iv.
Proof.
  intros Hc. unfold block_count. destruct (truthy iv).
  - unfold len at 1. cbn [length]. rewrite Nat2Z.inj_succ.
    fold (len (chunks ciphertext (block_size self))). rewrite chunks_len by assumption. lia.
  - rewrite chunks_len by assumption. lia.
Qed.



End EngineArguments.

(** ** The suffix variant of the signature forgery, over a key (C5) *)

Lemma suffix_loop_forged hashlib st key asn1 hash_function (k : nat) :
  0 < key_e key -> key_n key <> 0 ->
  NoDup (texts key) -> texts_valid st key ->
  (k <= length (texts key))%nat ->
  exists signatures st',
    fold_left (fun acc text_no =>
                 let* a := acc in suffix_body hashlib key asn1 hash_function a text_no)
              (seq 0 k) (Ok ([], st)) = Ok (signatures, st') /\
    suffix_forged hashlib asn1 hash_function st key k signatures st'.
Proof.
  intros He Hn Hnodup Hvalid. induction k as [|k IH]; intros Hk.
  - exists [], st. split; [reflexivity|].
    split; [reflexivity|]. split; [reflexivity|]. split; [intros i a t Hi; lia|].
    split; [intros i y []|constructor].
  - destruct (IH ltac:(lia)) as (rec & stk & Hrun & Hlen & Hframe & Hdone & Hidx & Hnd).
    rewrite seq_S, fold_left_app, Hrun. cbn [fold_left Py.bind Nat.add].
    destruct (lookup_lt_is_Some_2 (texts key) k ltac:(lia)) as [a Ha].
    assert (Hin : In a (texts key)).
    { apply list_elem_of_In. eapply list_elem_of_lookup_2. exact Ha. }
    destruct (lookup_lt_is_Some_2 st a (Hvalid a Hin)) as [t Ht].
    assert (Hfresh : forall i, (i < k)%nat -> texts key !! i <> Some a).
    { intros i Hi Hia. pose proof (NoDup_lookup _ _ _ _ Hnodup Hia Ha). lia. }
    assert (Hta : stk !! a = Some t) by (rewrite Hframe by exact Hfresh; exact Ht).
    assert (Hknew : ~ In k (map fst rec)).
    { intros Hc. apply in_map_iff in Hc. destruct Hc as ([i y] & Hi & Hc).
      simpl in Hi. subst i. apply Hidx in Hc. lia. }
    unfold suffix_body. rewrite Ha. cbn [of_option Py.bind]. rewrite Hta. cbn [of_option Py.bind].
    assert (Hkeep : forall st2 rec2,
              length st2 = length st ->
              (forall b, b <> a -> st2 !! b = stk !! b) ->
              (forall i y, In (i, y) rec -> In (i, y) rec2) ->
              (forall i, (i < k)%nat -> In i (map fst rec2) -> In i (map fst rec)) ->
              (forall i y, In (i, y) rec2 -> (i < S k)%nat) ->
              NoDup (map fst rec2) ->
              match plain t, cipher t with
              | Some m, None =>
                  let plaintext_prefix := suffix_plaintext_prefix hashlib asn1 hash_function m in
                  let s := fst (iroot (suffix_target key plaintext_prefix) (key_e key)) in
                  (exists before delta rest,
                      suffix_window = before ++ delta :: rest
                      /\ Forall (fun r => ~ begins_with_prefix key plaintext_prefix (s + r))
                                before
                      /\ begins_with_prefix key plaintext_prefix (s + delta)
                      /\ suffix_forge hashlib key asn1 hash_function m
                         = (Some (s + delta), map (Z.add s) (before ++ [delta]))
                      /\ st2 !! a = Some (set_cipher t (s + delta))
                      /\ In (k, s + delta) rec2)
                  \/ (Forall (fun r => ~ begins_with_prefix key plaintext_prefix (s + r))
                             suffix_window
                      /\ suffix_forge hashlib key asn1 hash_function m
                         = (None, map (Z.add s) suffix_window)
                      /\ st2 !! a = Some t
                      /\ ~ In k (map fst rec2))
              | _, _ => st2 !! a = Some t /\ ~ In k (map fst rec2)
              end ->
              suffix_forged hashlib asn1 hash_function st key (S k) rec2 st2).
    { intros st2 rec2 L2 F2 I2 N2 X2 D2 K2. split; [exact L2|].
      split; [|split; [|split; [exact X2|exact D2]]].
      - intros b Hb. rewrite F2.
        + apply Hframe. intros i Hi. apply Hb. lia.
        + intros ->. apply (Hb k); [lia|exact Ha].
      - intros i b tb Hi Hib Hb.
        destruct (Nat.eq_dec i k) as [->|Hik].
        + rewrite Ha in Hib. injection Hib as <-. rewrite Ht in Hb. injection Hb as <-.
          exact K2.
        + assert (Hba : b <> a).
          { intros ->. apply (Hfresh i); [lia|exact Hib]. }
          specialize (Hdone i b tb ltac:(lia) Hib Hb). rewrite F2 by exact Hba.
          destruct (plain tb) as [m|]; [destruct (cipher tb)|].
          * destruct Hdone as [D1 D2']. split; [exact D1|].
            intros Hc. apply D2', N2; [lia|exact Hc].
          * cbv zeta in Hdone |- *.
            destruct Hdone as [(before & delta & rest & E1 & E2 & E3 & E4 & E5 & E6)
                              |(E1 & E2 & E3 & E4)].
            -- left. exists before, delta, rest. repeat split; auto.
            -- right. repeat split; auto. intros Hc. apply E4, N2; [lia|exact Hc].
          * destruct Hdone as [D1 D2']. split; [exact D1|].
            intros Hc. apply D2', N2; [lia|exact Hc]. }
    destruct (plain t) as [m|] eqn:Hp; [destruct (cipher t) as [c|] eqn:Hc|].
    + exists rec, stk. split; [reflexivity|].
      apply Hkeep; [exact Hlen|reflexivity|auto|auto| |exact Hnd|].
      { intros i y Hi. apply Hidx in Hi. lia. }
      split; [exact Hta|exact Hknew].
    + unfold suffix_forge at 1.
      pose proof (suffix_search_spec key (suffix_plaintext_prefix hashlib asn1 hash_function m)
                    (suffix_target key (suffix_plaintext_prefix hashlib asn1 hash_function m))
                    suffix_window ltac:(lia) Hn) as Hs.
      cbv zeta in Hs.
      change (range (-5) 5) with suffix_window.
      fold (suffix_target key (suffix_plaintext_prefix hashlib asn1 hash_function m)).
      destruct Hs as [(before & delta & rest & E & Hb & Hd & Hs)|[Hall Hs]]; rewrite Hs;
        cbn [fst].
      * eexists _, _. split; [reflexivity|].
        apply Hkeep.
        -- rewrite length_insert. exact Hlen.
        -- intros b Hb'. apply list_lookup_insert_ne. auto.
        -- intros i y Hi. apply in_or_app. left. exact Hi.
        -- intros i Hik Hi. rewrite map_app in Hi. apply in_app_or in Hi.
           destruct Hi as [Hi|[Hi|[]]]; [exact Hi|simpl in Hi; lia].
        -- intros i y Hi. apply in_app_or in Hi. destruct Hi as [Hi|[[= <- <-]|[]]]; [|lia].
           apply Hidx in Hi. lia.
        -- rewrite map_app. cbn [map fst]. apply NoDup_app. split; [exact Hnd|].
           split; [|apply NoDup_singleton].
           intros x Hx Hx'. apply list_elem_of_In in Hx'. destruct Hx' as [<-|[]].
           apply Hknew. apply list_elem_of_In. exact Hx.
        -- left. exists before, delta, rest.
           split; [exact E|]. split; [exact Hb|]. split; [exact Hd|].
           split; [unfold suffix_forge; exact Hs|].
           split; [|apply in_or_app; right; left; reflexivity].
           apply list_lookup_insert_eq. apply lookup_lt_Some in Hta. exact Hta.
      * exists rec, stk. split; [reflexivity|].
        apply Hkeep; [exact Hlen|reflexivity|auto|auto| |exact Hnd|].
        { intros i y Hi. apply Hidx in Hi. lia. }
        right. split; [exact Hall|]. split; [unfold suffix_forge; exact Hs|].
        split; [exact Hta|exact Hknew].
    + exists rec, stk. split; [reflexivity|].
      apply Hkeep; [exact Hlen|reflexivity|auto|auto| |exact Hnd|].
      { intros i y Hi. apply Hidx in Hi. lia. }
      split; [exact Hta|exact Hknew].
Qed.

(** C5, amended: for a key with a public exponent [e > 0] whose text pairs
    are distinct dictionaries, and a hash function of the table,
    [bleichenbacher_signature_forgery] with [garbage = 'suffix'] returns, and
    for every pair that holds [plain] but not [cipher] it has tested the
    candidates [s + delta] for [delta = -5, -4, ..., 4] in this order, where
    [(s, _) = iroot(prefix_as_int, e)]: the first one whose [e]-th power mod
    [n], encoded in [size/8] bytes, begins with the prefix ended the search,
    is in the [cipher] field of the pair in the store that the call leaves,
    and is the value of the returned dictionary at the index of the pair;
    when none of the ten passes, the pair has no [cipher] and the dictionary
    no entry for it. Nothing else is changed or returned. *)
Theorem suffix_forgery_tests_minus_5_to_4
        (hashlib : string -> list Z -> list Z) (st : store) (key : RSAKey)
        (hash_function : string) (asn1 : list Z) :
  0 < key_e key -> key_n key <> 0 ->
  hash_asn1 hash_function = Some asn1 ->
  NoDup (texts key) -> texts_valid st key ->
  exists signatures st',
    bleichenbacher_signature_forgery hashlib st key "suffix" hash_function
    = Ok (signatures, st') /\
    suffix_forged hashlib asn1 hash_function st key (length (texts key)) signatures st'.
Proof.
  intros He Hn Hh Hnodup Hvalid.
  destruct (suffix_loop_forged hashlib st key asn1 hash_function (length (texts key))
              He Hn Hnodup Hvalid ltac:(lia)) as (sigs & st' & Hrun & Hf).
  exists sigs, st'. split; [|exact Hf].
  unfold bleichenbacher_signature_forgery. rewrite Hh.
  cbn [String.eqb Ascii.eqb Bool.eqb negb andb]. exact Hrun.
Qed.

Lemma hello_store_valid : texts_valid hello_store long_key.
Proof. intros a [<-|[]]. simpl. lia. Qed.

(** The theorem at the 1024-bit key and the plaintext "hello". *)
Lemma suffix_forgery_tests_minus_5_to_4_witness :
  exists signatures st',
    bleichenbacher_signature_forgery sample_hashlib hello_store long_key "suffix" "sha1"
    = Ok (signatures, st') /\
    suffix_forged sample_hashlib asn1_sha1 "sha1" hello_store long_key
                  (length (texts long_key)) signatures st'.
Proof.
  apply (suffix_forgery_tests_minus_5_to_4 sample_hashlib hello_store long_key "sha1" asn1_sha1).
  - reflexivity.
  - discriminate.
  - reflexivity.
  - apply NoDup_singleton.
  - exact hello_store_valid.
Defined.

(** ** Errors of [decrypt], over its runs (C7) *)

Lemma range_cons a b : a < b -> range a b = a :: range (a + 1) b.
Proof.
  intros H. unfold range.
  replace (Z.to_nat (b - a)) with (S (Z.to_nat (b - (a + 1)))) by lia.
  cbn [seq map]. rewrite <- seq_shift, map_map. f_equal; [lia|].
  apply map_ext. intros i. lia.
Qed.

Lemma range_snoc a : 0 <= a -> range 0 (a + 1) = range 0 a ++ [a].
Proof.
  intros H. unfold range.
  replace (Z.to_nat (a + 1 - 0)) with (S (Z.to_nat (a - 0))) by lia.
  rewrite seq_S, map_app. cbn [map]. f_equal. f_equal. lia.
Qed.

Lemma range_nil a b : b <= a -> range a b = [].
Proof. intros H. unfold range. replace (Z.to_nat (b - a)) with 0%nat by lia. reflexivity. Qed.

Lemma set_resp_resp {R} (s : state R) : set_resp s (resp s) = s.
Proof. destruct s. reflexivity. Qed.

Lemma first_true (f : Z -> bool) (n : nat) :
  (forall g, 0 <= g < Z.of_nat n -> f g = false) \/
  (exists g, 0 <= g < Z.of_nat n /\ f g = true /\ forall g', 0 <= g' < g -> f g' = false).
Proof.
  induction n as [|n IH].
  - left. intros g Hg. lia.
  - destruct IH as [IH|(g & Hg & Hf & Hb)].
    + destruct (f (Z.of_nat n)) eqn:E.
      * right. exists (Z.of_nat n). split; [lia|]. split; [exact E|]. intros g' Hg'. apply IH. lia.
      * left. intros g Hg. destruct (Z.eq_dec g (Z.of_nat n)) as [->|]; [exact E|]. apply IH. lia.
    + right. exists g. split; [lia|]. split; [exact Hf|exact Hb].
Qed.

Section DecryptRuns.

Context {R : Type} (oracle : list Z -> list Z -> R -> bool * R) (self : PaddingOracle).

Lemma position_loop_fuel blocks pp pd (f1 : nat) : forall (f2 : nat) (s : state R),
  position s + 1 <= Z.of_nat f1 -> position s + 1 <= Z.of_nat f2 ->
  position_loop oracle self f1 blocks pp pd s = position_loop oracle self f2 blocks pp pd s.
Proof.
  induction f1 as [|f1 IH]; intros f2 s H1 H2.
  - destruct f2; cbn [position_loop]; destruct (Z.ltb_spec (position s) 0); try reflexivity; lia.
  - destruct f2 as [|f2]; cbn [position_loop];
      destruct (Z.ltb_spec (position s) 0) as [|Hpos]; try reflexivity; [lia|].
    destruct (guess_loop oracle self (range 0 256) blocks pp pd s) as [[found s1]|e] eqn:G;
      cbn [Py.bind fst snd]; [|reflexivity].
    apply guess_loop_position in G.
    destruct (after_guesses found s1) as [s2|e] eqn:A; cbn [Py.bind]; [|reflexivity].
    apply after_guesses_position in A. apply IH; lia.
Qed.

(** *** While [is_correct] is false *)

Lemma guess_body_plain blocks pp pd (s : state R) g :
  is_correct s = false ->
  guess_body oracle self blocks pp pd s g <> Err BadPadding /\
  forall s', guess_body oracle self blocks pp pd s g = Ok (Break s') ->
             is_correct s' = false /\ exists pre, plaintext s' = pre ++ plaintext s.
Proof.
  intros Hic. split.
  - intros H. apply guess_body_bad_padding in H. destruct H as (_ & H & _). congruence.
  - unfold guess_body.
    destruct (query self pp pd s g) as [iv payload].
    destruct (oracle payload iv (resp s)) as [correct r1].
    destruct correct; [|discriminate].
    destruct (index (payload_modify s) (position s)) as [c|]; cbn [of_option Py.bind];
      [|discriminate].
    destruct (chr _) as [dc|]; cbn [Py.bind]; [|discriminate].
    rewrite Hic.
    assert (Hacc : forall r (s' : state R),
              (let* cp := chr (block_size self - position s) in
               let* cp1 := chr (block_size self - position s + 1) in
               Ok (Break {| payload_modify :=
                              slice_to (payload_modify s) (position s)
                              ++ xor [[g] ++ slice_from (payload_modify s) (position s + 1);
                                      [cp]; [cp1]];
                            position := position s;
                            plaintext := dc :: plaintext s;
                            is_correct := false;
                            resp := r |})) = Ok (Break s') ->
              is_correct s' = false /\ exists pre, plaintext s' = pre ++ plaintext s).
    { intros r s'. destruct (chr (block_size self - position s)); cbn [Py.bind]; [|discriminate].
      destruct (chr (block_size self - position s + 1)); cbn [Py.bind]; [|discriminate].
      intros [= <-]. cbn [is_correct plaintext]. split; [reflexivity|]. exists [dc]. reflexivity. }
    intros s'. destruct (position s =? block_size self - 1); [|apply Hacc].
    destruct (recheck_query self iv payload) as [iv2 payload2].
    destruct (oracle payload2 iv2 r1) as [correct2 r2].
    destruct correct2; cbn [negb]; [apply Hacc|discriminate].
Qed.

Lemma guess_loop_plain blocks pp pd guesses : forall s : state R,
  is_correct s = false ->
  guess_loop oracle self guesses blocks pp pd s <> Err BadPadding /\
  forall found s', guess_loop oracle self guesses blocks pp pd s = Ok (found, s') ->
                   is_correct s' = false /\ exists pre, plaintext s' = pre ++ plaintext s.
Proof.
  induction guesses as [|g guesses IH]; intros s Hic; cbn [guess_loop].
  - split; [discriminate|]. intros found s' [= <- <-]. split; [exact Hic|]. exists []. reflexivity.
  - destruct (guess_body_plain blocks pp pd s g Hic) as [Hnb Hbr].
    destruct (guess_body oracle self blocks pp pd s g) as [[r|s1]|e]; cbn [Py.bind].
    + apply (IH (set_resp s r)). exact Hic.
    + split; [discriminate|]. intros found s' [= <- <-]. apply Hbr. reflexivity.
    + split; [|discriminate]. congruence.
Qed.

Lemma after_guesses_plain found (s : state R) :
  is_correct s = false ->
  after_guesses found s <> Err BadPadding /\
  forall s', after_guesses found s = Ok s' ->
             is_correct s' = false /\ plaintext s' = plaintext s.
Proof.
  intros Hic. unfold after_guesses. rewrite Hic. destruct found.
  - split; [discriminate|]. intros s' [= <-]. cbn. auto.
  - split; discriminate.
Qed.

Lemma position_loop_plain blocks pp pd (fuel : nat) : forall s : state R,
  is_correct s = false ->
  position_loop oracle self fuel blocks pp pd s <> Err BadPadding /\
  forall s', position_loop oracle self fuel blocks pp pd s = Ok s' ->
             is_correct s' = false /\ exists pre, plaintext s' = pre ++ plaintext s.
Proof.
  induction fuel as [|fuel IH]; intros s Hic; cbn [position_loop];
    destruct (position s <? 0).
  - split; [discriminate|]. intros s' [= <-]. split; [exact Hic|]. exists []. reflexivity.
  - split; discriminate.
  - split; [discriminate|]. intros s' [= <-]. split; [exact Hic|]. exists []. reflexivity.
  - destruct (guess_loop_plain blocks pp pd (range 0 256) s Hic) as [Hnb Hok].
    destruct (guess_loop oracle self (range 0 256) blocks pp pd s) as [[found s1]|e];
      cbn [Py.bind fst snd]; [|split; [congruence|discriminate]].
    destruct (Hok found s1 eq_refl) as [Hic1 [pre1 Hp1]].
    destruct (after_guesses_plain found s1 Hic1) as [Hnb2 Hok2].
    destruct (after_guesses found s1) as [s2|e]; cbn [Py.bind];
      [|split; [congruence|discriminate]].
    destruct (Hok2 s2 eq_refl) as [Hic2 Hp2].
    destruct (IH s2 Hic2) as [Hnb3 Hok3]. split; [exact Hnb3|].
    intros s' Hs'. destruct (Hok3 s' Hs') as [Hic' [pre Hp]]. split; [exact Hic'|].
    exists (pre ++ pre1). rewrite Hp, Hp2, Hp1, app_assoc. reflexivity.
Qed.

Lemma block_loop_plain blocks counts : forall c : carry R,
  c_is_correct c = false ->
  block_loop oracle self blocks counts c <> Err BadPadding /\
  forall c', block_loop oracle self blocks counts c = Ok c' ->
             exists pre, c_plaintext c' = pre ++ c_plaintext c.
Proof.
  induction counts as [|count counts IH]; intros c Hic; cbn [block_loop].
  - split; [discriminate|]. intros c' [= <-]. exists []. reflexivity.
  - unfold block_body.
    destruct (index blocks (count - 1)) as [pm|]; cbn [of_option Py.bind];
      [|split; discriminate].
    destruct (index blocks count) as [pd|]; cbn [of_option Py.bind]; [|split; discriminate].
    match goal with
    | |- context [position_loop oracle self ?f blocks ?pp pd ?s] =>
        destruct (position_loop_plain blocks pp pd f s Hic) as [Hnb Hok];
        destruct (position_loop oracle self f blocks pp pd s) as [s'|e]
    end; cbn [Py.bind]; [|split; [congruence|discriminate]].
    destruct (Hok s' eq_refl) as [Hic' [pre1 Hp1]]. cbn [plaintext] in Hp1.
    match goal with
    | |- context [block_loop oracle self blocks counts ?c1] =>
        destruct (IH c1 Hic') as [Hnb2 Hok2]
    end.
    split; [exact Hnb2|]. intros c' Hc'. destruct (Hok2 c' Hc') as [pre Hp].
    cbn [c_plaintext] in Hp. exists (pre ++ pre1). rewrite Hp, Hp1, app_assoc. reflexivity.
Qed.

Lemma run_from_plain blocks counts (s : state R) :
  is_correct s = false ->
  run_from oracle self blocks (counts, s) <> Err BadPadding /\
  forall pt, run_from oracle self blocks (counts, s) = Ok pt ->
             exists pre, pt = pre ++ plaintext s.
Proof.
  intros Hic. unfold run_from. cbn [fst snd]. destruct counts as [|count rest].
  - split; [discriminate|]. intros pt [= <-]. exists []. reflexivity.
  - destruct (index blocks count) as [pd|]; cbn [of_option Py.bind]; [|split; discriminate].
    match goal with
    | |- context [position_loop oracle self ?f blocks ?pp pd s] =>
        destruct (position_loop_plain blocks pp pd f s Hic) as [Hnb Hok];
        destruct (position_loop oracle self f blocks pp pd s) as [s'|e]
    end; cbn [Py.bind]; [|split; [congruence|discriminate]].
    destruct (Hok s' eq_refl) as [Hic' [pre1 Hp1]].
    match goal with
    | |- context [block_loop oracle self blocks rest ?c1] =>
        destruct (block_loop_plain blocks rest c1 Hic') as [Hnb2 Hok2];
        destruct (block_loop oracle self blocks rest c1) as [c'|e]
    end; cbn [Py.bind]; [|split; [congruence|discriminate]].
    split; [discriminate|]. intros pt [= <-].
    destruct (Hok2 c' eq_refl) as [pre Hp]. cbn [c_plaintext] in Hp.
    exists (pre ++ pre1). rewrite Hp, Hp1, app_assoc. reflexivity.
Qed.

(** *** From one point of the run to the next *)

Lemma comes_to_run blocks c1 c2 :
  comes_to oracle self blocks c1 c2 ->
  run_from oracle self blocks c1 = run_from oracle self blocks c2.
Proof.
  induction 1 as [c|count rest s pd found s1 s2 c' Hpos Hpd Hg Ha _ IH
                   |count count' rest s pd pm' c' Hneg Hpd Hpm _ IH].
  - reflexivity.
  - rewrite <- IH. unfold run_from. cbn [fst snd]. rewrite Hpd. cbn [of_option Py.bind].
    replace (Z.to_nat (position s + 1)) with (S (Z.to_nat (position s))) by lia.
    cbn [position_loop]. destruct (Z.ltb_spec (position s) 0); [lia|].
    rewrite Hg. cbn [Py.bind fst snd]. rewrite Ha. cbn [Py.bind].
    apply guess_loop_position in Hg. apply after_guesses_position in Ha.
    rewrite (position_loop_fuel blocks _ pd (Z.to_nat (position s))
               (Z.to_nat (position s2 + 1)) s2) by lia.
    reflexivity.
  - rewrite <- IH. unfold run_from. cbn [fst snd]. rewrite Hpd. cbn [of_option Py.bind].
    assert (Hl : forall f pp, position_loop oracle self f blocks pp pd s = Ok s).
    { intros f pp. destruct f; cbn [position_loop];
        destruct (Z.ltb_spec (position s) 0); try reflexivity; lia. }
    rewrite Hl. cbn [Py.bind block_loop]. unfold block_body. rewrite Hpm.
    cbn [of_option Py.bind c_plaintext c_is_correct c_resp c_position_known].
    unfold block_start. cbn [position]. rewrite Z.sub_0_r.
    destruct (index blocks count') as [pd'|]; cbn [of_option Py.bind]; [|reflexivity].
    destruct (position_loop oracle self _ blocks _ pd' _); reflexivity.
Qed.

End DecryptRuns.

Lemma range_down_cons a b : b < a -> range_down a b = a :: range_down (a - 1) b.
Proof.
  intros H. unfold range_down.
  replace (Z.to_nat (a - b)) with (S (Z.to_nat (a - 1 - b))) by lia.
  cbn [seq map]. rewrite <- seq_shift, map_map. f_equal; [lia|].
  apply map_ext. intros i. lia.
Qed.

Lemma index_app_at {A} (l1 l2 : list A) (i : Z) :
  0 <= i - len l1 < len l2 -> index (l1 ++ l2) i = index l2 (i - len l1).
Proof.
  intros H. unfold index, len in *. rewrite length_app, Nat2Z.inj_add.
  destruct (Z.ltb_spec i 0); [lia|].
  destruct (Z.ltb_spec (i - Z.of_nat (length l1)) 0); [lia|].
  destruct (Z.leb_spec 0 i); [|lia].
  destruct (Z.ltb_spec i (Z.of_nat (length l1) + Z.of_nat (length l2))); [|lia].
  destruct (Z.leb_spec 0 (i - Z.of_nat (length l1))); [|lia].
  destruct (Z.ltb_spec (i - Z.of_nat (length l1)) (Z.of_nat (length l2))); [|lia].
  cbn [andb]. rewrite nth_error_app2 by lia. f_equal. lia.
Qed.

Lemma index_from_end {A} (l : list A) (i : Z) :
  - len l <= i < 0 -> index l i = index l (len l + i).
Proof.
  intros H. unfold index.
  destruct (Z.ltb_spec i 0); [|lia]. destruct (Z.ltb_spec (len l + i) 0); [lia|]. reflexivity.
Qed.

Lemma slice_to_app {A} (l1 l2 : list A) : slice_to (l1 ++ l2) (len l1) = l1.
Proof.
  unfold slice_to, bound, len. destruct (Z.ltb_spec (Z.of_nat (length l1)) 0); [lia|].
  rewrite Nat2Z.id, firstn_app, Nat.sub_diag, firstn_all. cbn [firstn]. apply app_nil_r.
Qed.

Section FirstTurn.

Context {R : Type} (oracle : list Z -> list Z -> R -> bool * R) (self : PaddingOracle).
Variables (blocks : list (list Z)) (pp pd : list Z) (s : state R).

Lemma resp_before_0 : resp_before oracle self pp pd s 0 = resp s.
Proof. reflexivity. Qed.

Lemma resp_before_S g :
  0 <= g ->
  resp_before oracle self pp pd s (g + 1)
  = snd (oracle (snd (query self pp pd s g)) (fst (query self pp pd s g))
                (resp_before oracle self pp pd s g)).
Proof.
  intros Hg. unfold resp_before. rewrite range_snoc by exact Hg.
  rewrite fold_left_app. reflexivity.
Qed.

(** The guess [g] is passed over: the loop goes on to the next guess. *)
Lemma guess_body_rejected_at g :
  0 <= g ->
  accepts oracle self pp pd s g = false ->
  guess_body oracle self blocks pp pd (set_resp s (resp_before oracle self pp pd s g)) g
  = Ok (Continue (resp_before oracle self pp pd s (g + 1))).
Proof.
  intros Hg. rewrite resp_before_S by exact Hg. unfold accepts, verdict, guess_body.
  change (query self pp pd (set_resp s ?r) g) with (query self pp pd s g).
  destruct (query self pp pd s g) as [iv payload]. cbn [fst snd set_resp resp].
  destruct (oracle payload iv (resp_before oracle self pp pd s g)) as [correct r1].
  cbn [fst snd]. intros ->. reflexivity.
Qed.

Lemma guess_body_replay g b2 :
  0 <= g ->
  is_correct s = true ->
  index (payload_modify s) (position s) = Some g ->
  block_size self - position s = 1 ->
  index blocks (-2) = Some b2 -> index b2 (-1) = Some g ->
  guess_body oracle self blocks pp pd (set_resp s (resp_before oracle self pp pd s g)) g
  = Ok (Continue (resp_before oracle self pp pd s (g + 1))).
Proof.
  intros Hg Hic Hc Hpad Hb2 Hlast.
  destruct (accepts oracle self pp pd s g) eqn:Hacc;
    [|apply guess_body_rejected_at; assumption].
  rewrite resp_before_S by exact Hg. revert Hacc. unfold accepts, verdict, guess_body.
  change (query self pp pd (set_resp s ?r) g) with (query self pp pd s g).
  destruct (query self pp pd s g) as [iv payload].
  cbn [fst snd set_resp resp payload_modify position is_correct].
  destruct (oracle payload iv (resp_before oracle self pp pd s g)) as [correct r1].
  cbn [fst snd]. intros ->. rewrite Hc, Hpad. cbn [of_option Py.bind].
  rewrite Z.lxor_nilpotent. cbn [Z.lxor chr Z.leb Z.ltb Z.compare andb Py.bind].
  rewrite Hic, Hb2. cbn [of_option Py.bind]. rewrite Hlast. cbn [of_option Py.bind].
  rewrite Z.eqb_refl. reflexivity.
Qed.

Lemma guess_loop_from (k : nat) : forall a,
  0 <= a <= 256 -> Z.to_nat (256 - a) = k ->
  (forall g, a <= g < 256 ->
     guess_body oracle self blocks pp pd (set_resp s (resp_before oracle self pp pd s g)) g
     = Ok (Continue (resp_before oracle self pp pd s (g + 1)))) ->
  guess_loop oracle self (range a 256) blocks pp pd
             (set_resp s (resp_before oracle self pp pd s a))
  = Ok (false, set_resp s (resp_before oracle self pp pd s 256)).
Proof.
  induction k as [|k IH]; intros a Ha Hk Hskip.
  - assert (a = 256) by lia. subst a. rewrite range_nil by lia. reflexivity.
  - rewrite range_cons by lia. cbn [guess_loop]. rewrite Hskip by lia. cbn [Py.bind].
    change (set_resp (set_resp s ?r) ?r') with (set_resp s r').
    apply IH; [lia|lia|]. intros g Hg. apply Hskip. lia.
Qed.

Lemma guess_loop_until (k : nat) : forall a g,
  0 <= a <= g -> g < 256 -> Z.to_nat (g - a) = k ->
  (forall g', a <= g' < g ->
     guess_body oracle self blocks pp pd (set_resp s (resp_before oracle self pp pd s g')) g'
     = Ok (Continue (resp_before oracle self pp pd s (g' + 1)))) ->
  guess_loop oracle self (range a 256) blocks pp pd
             (set_resp s (resp_before oracle self pp pd s a))
  = guess_loop oracle self (range g 256) blocks pp pd
               (set_resp s (resp_before oracle self pp pd s g)).
Proof.
  induction k as [|k IH]; intros a g Ha Hg Hk Hskip.
  - assert (a = g) by lia. subst a. reflexivity.
  - rewrite range_cons by lia. cbn [guess_loop]. rewrite Hskip by lia. cbn [Py.bind].
    change (set_resp (set_resp s ?r) ?r') with (set_resp s r').
    apply IH; [lia|lia|lia|]. intros g' Hg'. apply Hskip. lia.
Qed.

Lemma after_guesses_assume r :
  is_correct s = true ->
  after_guesses false (set_resp s r) = Ok (assume_padding_1 s r).
Proof.
  intros Hic. unfold after_guesses, assume_padding_1.
  cbn [set_resp position is_correct payload_modify plaintext resp]. rewrite Hic.
  cbn [chr andb Z.leb Z.ltb Z.compare Z.add Pos.add Py.bind].
  replace (position s - 1 + 1) with (position s) by lia. reflexivity.
Qed.

(** What a guess that the oracle accepts under [is_correct], and that is
    not the replay, leads to. *)
Lemma guess_body_found g r :
  is_correct s = true ->
  forall x, guess_body oracle self blocks pp pd (set_resp s r) g = Ok x ->
            (exists r', x = Continue r') \/ (exists s', x = Break s' /\ is_correct s' = false).
Proof.
  intros Hic x. unfold guess_body.
  change (query self pp pd (set_resp s r) g) with (query self pp pd s g).
  destruct (query self pp pd s g) as [iv payload].
  cbn [set_resp resp payload_modify position is_correct]. rewrite Hic.
  destruct (oracle payload iv r) as [correct r1].
  destruct correct; [|intros [= <-]; left; eauto].
  destruct (index (payload_modify s) (position s)); cbn [of_option Py.bind]; [|discriminate].
  destruct (chr _) as [dc|]; cbn [Py.bind]; [|discriminate].
  destruct (index blocks (-2)) as [b2|]; cbn [of_option Py.bind]; [|discriminate].
  destruct (index b2 (-1)) as [lc|]; cbn [of_option Py.bind]; [|discriminate].
  destruct (g =? lc); [intros [= <-]; left; eauto|].
  destruct ((dc =? 0) || (dc >? block_size self)); [discriminate|].
  destruct (chr (dc + 1)); cbn [Py.bind]; [|discriminate].
  intros [= <-]. right. eexists. split; reflexivity.
Qed.

End FirstTurn.

Section DecryptErrors.

Context {R : Type} (none : R) (oracle : list Z -> list Z -> R -> bool * R)
        (self : PaddingOracle).

Hypothesis HB : 0 < block_size self.

Variables (ciphertext : list Z) (iv : option (list Z)) (ic : bool) (amount : Z)
          (known_plaintext : option (list Z)) (prefix : list (list Z)) (pm target : list Z).

Hypothesis Hlen : len ciphertext mod block_size self = 0.
Hypothesis Hiv : truthy iv = false \/ len (bytes_of iv) mod block_size self = 0.
Hypothesis Hblocks : decrypt_blocks self ciphertext iv = prefix ++ [pm; target].
Hypothesis Hpm : len pm = block_size self.
Hypothesis Hamount : 0 <= amount <= len prefix + 1.
Hypothesis Hkp : truthy known_plaintext = false.

Lemma blocks_len : len (prefix ++ [pm; target]) = len prefix + 2.
Proof. unfold len. rewrite length_app. simpl. lia. Qed.

Lemma blocks_pm : index (prefix ++ [pm; target]) (len prefix + 1 - 1) = Some pm.
Proof.
  rewrite index_app_at by (unfold len; simpl; lia).
  replace (len prefix + 1 - 1 - len prefix) with 0 by lia. reflexivity.
Qed.

Lemma blocks_target : index (prefix ++ [pm; target]) (len prefix + 1) = Some target.
Proof.
  rewrite index_app_at by (unfold len; simpl; lia).
  replace (len prefix + 1 - len prefix) with 1 by lia. reflexivity.
Qed.

Lemma blocks_prefix :
  concat (slice_to (prefix ++ [pm; target]) (len prefix + 1 - 1)) = concat prefix.
Proof. replace (len prefix + 1 - 1) with (len prefix) by lia. now rewrite slice_to_app. Qed.

Lemma blocks_minus_2 : index (prefix ++ [pm; target]) (-2) = Some pm.
Proof.
  rewrite index_from_end by (rewrite blocks_len; unfold len; lia).
  rewrite blocks_len. replace (len prefix + 2 + -2) with (len prefix + 1 - 1) by lia.
  apply blocks_pm.
Qed.

Lemma pm_last c : index pm (-1) = Some c -> index pm (block_size self - 1) = Some c.
Proof.
  intros Hc. rewrite index_from_end in Hc by lia. rewrite Hpm in Hc.
  replace (block_size self + -1) with (block_size self - 1) in Hc by lia. exact Hc.
Qed.

Lemma pm_has_last : exists c, index pm (-1) = Some c.
Proof.
  rewrite index_from_end by lia. unfold index. rewrite Hpm.
  destruct (Z.ltb_spec (block_size self + -1) 0); [lia|].
  destruct (Z.leb_spec 0 (block_size self + -1)); [|lia].
  destruct (Z.ltb_spec (block_size self + -1) (block_size self)); [|lia]. cbn [andb].
  destruct (nth_error pm (Z.to_nat (block_size self + -1))) as [c|] eqn:E; [eauto|].
  apply nth_error_None in E. unfold len in Hpm. lia.
Qed.

Lemma counts_cons :
  decrypt_counts (prefix ++ [pm; target]) amount
  = (len prefix + 1)
      :: range_down (len prefix)
           (if negb (amount =? 0) then len prefix + 2 - amount - 1 else amount).
Proof.
  unfold decrypt_counts. rewrite blocks_len.
  replace (len prefix + 2 - 1) with (len prefix + 1) by lia.
  rewrite range_down_cons.
  - f_equal. f_equal. lia.
  - assert (0 <= len prefix) by (unfold len; lia).
    destruct (Z.eqb_spec amount 0); cbn [negb]; lia.
Qed.

(** [decrypt] is the run from the first position of the last block. *)
Lemma decrypt_run :
  decrypt none oracle self ciphertext iv ic amount known_plaintext
  = run_from oracle self (prefix ++ [pm; target])
             (decrypt_counts (prefix ++ [pm; target]) amount, block_start self pm [] ic none).
Proof.
  unfold decrypt. rewrite Hlen. cbn [Z.eqb negb].
  assert (Hb :
    (if truthy iv
     then if negb (len (bytes_of iv) mod block_size self =? 0)
          then Err InvalidIv
          else Ok (bytes_of iv :: chunks ciphertext (block_size self))
     else Ok (chunks ciphertext (block_size self)))
    = Ok (prefix ++ [pm; target])).
  { rewrite <- Hblocks. unfold decrypt_blocks.
    pose proof Hiv as Hiv'.
    destruct (truthy iv); [|reflexivity]. destruct Hiv' as [H'|H']; [discriminate|].
    rewrite H'. reflexivity. }
  rewrite Hb. cbn [Py.bind]. rewrite Hkp.
  fold (decrypt_counts (prefix ++ [pm; target]) amount).
  assert (Hok : ((if negb (amount =? 0) then len (prefix ++ [pm; target]) - amount - 1
                  else amount) <? 0)
                || ((if negb (amount =? 0) then len (prefix ++ [pm; target]) - amount - 1
                     else amount) >=? len (prefix ++ [pm; target])) = false).
  { rewrite blocks_len. assert (0 <= len prefix) by (unfold len; lia).
    apply orb_false_iff. rewrite Z.geb_leb.
    destruct (Z.eqb_spec amount 0); cbn [negb]; split;
      try (apply Z.ltb_ge; lia); apply Z.leb_gt; lia. }
  rewrite Hok. rewrite counts_cons.
  unfold run_from. cbn [fst snd block_loop]. unfold block_body.
  rewrite blocks_pm, blocks_target.
  cbn [of_option Py.bind c_plaintext c_is_correct c_resp c_position_known].
  unfold block_start. cbn [position]. rewrite Z.sub_0_r.
  destruct (position_loop oracle self _ _ _ target _); reflexivity.
Qed.

Lemma exhausted_run count rest (s : state R) payload_decrypt :
  0 <= position s -> is_correct s = false ->
  index (prefix ++ [pm; target]) count = Some payload_decrypt ->
  (forall g, 0 <= g < 256 ->
     accepts oracle self (concat (slice_to (prefix ++ [pm; target]) (count - 1)))
             payload_decrypt s g = false) ->
  run_from oracle self (prefix ++ [pm; target]) (count :: rest, s) = Err OracleExhausted.
Proof.
  intros Hpos Hic Hpd Hrej. unfold run_from. cbn [fst snd]. rewrite Hpd.
  cbn [of_option Py.bind].
  replace (Z.to_nat (position s + 1)) with (S (Z.to_nat (position s))) by lia.
  cbn [position_loop]. destruct (Z.ltb_spec (position s) 0); [lia|].
  pose proof (guess_loop_from oracle self (prefix ++ [pm; target])
                (concat (slice_to (prefix ++ [pm; target]) (count - 1))) payload_decrypt s
                256 0 ltac:(lia) eq_refl) as Hl.
  rewrite resp_before_0, set_resp_resp in Hl. rewrite Hl.
  - cbn [Py.bind fst snd]. unfold after_guesses. cbn [set_resp is_correct]. rewrite Hic.
    reflexivity.
  - intros g Hg. apply guess_body_rejected_at; [lia|]. apply Hrej. exact Hg.
Qed.

Lemma fallback_turn c :
  ic = true -> index pm (-1) = Some c ->
  (forall g, 0 <= g < 256 ->
     accepts oracle self (concat prefix) target (block_start self pm [] true none) g = true ->
     g = c) ->
  comes_to oracle self (prefix ++ [pm; target])
           (decrypt_counts (prefix ++ [pm; target]) amount, block_start self pm [] ic none)
           (decrypt_counts (prefix ++ [pm; target]) amount,
            {| payload_modify := slice_to pm (-1) ++ [Z.lxor (Z.lxor c 1) 2];
               position := block_size self - 2; plaintext := [1]; is_correct := false;
               resp := resp_before oracle self (concat prefix) target
                                   (block_start self pm [] true none) 256 |}).
Proof.
  intros -> Hc Hrep. rewrite counts_cons.
  set (s0 := block_start self pm [] true none).
  set (r' := resp_before oracle self (concat prefix) target s0 256).
  apply (comes_turn oracle self _ _ _ s0 target false (set_resp s0 r') (assume_padding_1 s0 r')).
  - unfold s0. cbn [block_start position]. lia.
  - apply blocks_target.
  - rewrite blocks_prefix.
    pose proof (guess_loop_from oracle self (prefix ++ [pm; target]) (concat prefix) target s0
                  256 0 ltac:(lia) eq_refl) as Hl.
    rewrite resp_before_0, set_resp_resp in Hl. apply Hl.
    intros g Hg.
    destruct (accepts oracle self (concat prefix) target s0 g) eqn:Ha.
    + pose proof (Hrep g Hg Ha) as ->.
      apply (guess_body_replay oracle self _ _ _ s0 c pm); try reflexivity; try lia.
      * unfold s0. cbn [block_start payload_modify position]. apply pm_last. exact Hc.
      * unfold s0. cbn [block_start position]. lia.
      * apply blocks_minus_2.
      * exact Hc.
    + apply guess_body_rejected_at; [lia|exact Ha].
  - apply after_guesses_assume. reflexivity.
  - assert (E : assume_padding_1 s0 r'
                = {| payload_modify := slice_to pm (-1) ++ [Z.lxor (Z.lxor c 1) 2];
                     position := block_size self - 2; plaintext := [1]; is_correct := false;
                     resp := r' |}).
    { pose proof (assume_padding_1_last_byte s0 r' (block_size self) c HB Hpm eq_refl Hc) as E.
      unfold assume_padding_1 in *. cbn [payload_modify] in E. rewrite E.
      unfold s0. cbn [block_start position]. f_equal. lia. }
    rewrite E. apply comes_here.
Qed.

Lemma bad_padding_run :
  decrypt none oracle self ciphertext iv ic amount known_plaintext = Err BadPadding
  <-> ic = true /\
      exists g c,
        0 <= g < 256 /\ index pm (-1) = Some c /\ g <> c /\
        accepts oracle self (concat prefix) target (block_start self pm [] true none) g = true /\
        (forall g', 0 <= g' < g ->
           accepts oracle self (concat prefix) target (block_start self pm [] true none) g'
           = true -> g' = c) /\
        let dc := Z.lxor (Z.lxor c g) 1 in
        0 <= dc < 256 /\ (dc = 0 \/ dc > block_size self).
Proof.
  rewrite decrypt_run.
  set (blocks := prefix ++ [pm; target]).
  set (s0 := block_start self pm [] true none).
  assert (Hturn : forall g c,
            ic = true -> 0 <= g < 256 -> index pm (-1) = Some c ->
            (forall g', 0 <= g' < g ->
               accepts oracle self (concat prefix) target s0 g' = true -> g' = c) ->
            guess_loop oracle self (range 0 256) blocks (concat prefix) target s0
            = guess_loop oracle self (range g 256) blocks (concat prefix) target
                (set_resp s0 (resp_before oracle self (concat prefix) target s0 g))).
  { intros g c Hic Hg Hc Hbefore.
    pose proof (guess_loop_until oracle self blocks (concat prefix) target s0
                  (Z.to_nat g) 0 g ltac:(lia) ltac:(lia) ltac:(lia)) as Hl.
    rewrite resp_before_0, set_resp_resp in Hl. apply Hl.
    intros g' Hg'.
    destruct (accepts oracle self (concat prefix) target s0 g') eqn:Ha.
    + pose proof (Hbefore g' ltac:(lia) Ha) as ->.
      apply (guess_body_replay oracle self _ _ _ s0 c pm); try reflexivity; try lia.
      * unfold s0. cbn [block_start payload_modify position]. apply pm_last. exact Hc.
      * unfold s0. cbn [block_start position]. lia.
      * apply blocks_minus_2.
      * exact Hc.
    + apply guess_body_rejected_at; [lia|exact Ha]. }
  assert (Hbody : forall g c,
            index pm (-1) = Some c ->
            (guess_body oracle self blocks (concat prefix) target
               (set_resp s0 (resp_before oracle self (concat prefix) target s0 g)) g
             = Err BadPadding
             <-> accepts oracle self (concat prefix) target s0 g = true /\ g <> c /\
                 let dc := Z.lxor (Z.lxor c g) 1 in
                 0 <= dc < 256 /\ (dc = 0 \/ dc > block_size self))).
  { intros g c Hc. rewrite guess_body_bad_padding.
    unfold accepts, verdict.
    change (query self (concat prefix) target (set_resp s0 ?r) g)
      with (query self (concat prefix) target s0 g).
    cbn [set_resp resp is_correct payload_modify position s0 block_start].
    replace (block_size self - (block_size self - 1)) with 1 by lia.
    split.
    - intros (Hv & _ & c' & b2 & lc & E1 & E2 & E3 & Hne & Hdc).
      rewrite (pm_last c Hc) in E1. injection E1 as <-.
      unfold blocks in E2. rewrite blocks_minus_2 in E2. injection E2 as <-.
      rewrite Hc in E3. injection E3 as <-. auto.
    - intros (Hv & Hne & Hdc). split; [exact Hv|]. split; [reflexivity|].
      exists c, pm, c. split; [apply pm_last; exact Hc|].
      split; [apply blocks_minus_2|]. auto. }
  split.
  - intros Hrun.
    destruct ic eqn:Eic.
    + split; [reflexivity|]. fold s0 in Hrun.
      destruct pm_has_last as [c Hc].
      destruct (first_true (fun g => accepts oracle self (concat prefix) target s0 g
                                     && negb (g =? c)) 256)
        as [Hnone|(g & Hg & Hf & Hbefore)].
      * exfalso.
        pose proof (fallback_turn c Eic Hc) as Hcome.
        rewrite Eic in Hcome.
        assert (Hrep : forall g, 0 <= g < 256 ->
                  accepts oracle self (concat prefix) target s0 g = true -> g = c).
        { intros g Hg Ha. specialize (Hnone g ltac:(lia)). cbv beta in Hnone.
          rewrite Ha in Hnone. cbn [andb] in Hnone.
          destruct (Z.eqb_spec g c); [assumption|discriminate]. }
        specialize (Hcome Hrep). apply comes_to_run in Hcome. fold blocks in Hcome.
        fold s0 in Hcome. rewrite Hcome in Hrun.
        match type of Hrun with
        | run_from _ _ _ (?cs, ?s1) = _ =>
            destruct (run_from_plain oracle self blocks cs s1 eq_refl) as [Hnb _]
        end.
        exact (Hnb Hrun).
      * apply andb_true_iff in Hf. destruct Hf as [Ha Hne].
        assert (Hgc : g <> c) by (destruct (Z.eqb_spec g c); [discriminate|assumption]).
        assert (Hbefore' : forall g', 0 <= g' < g ->
                  accepts oracle self (concat prefix) target s0 g' = true -> g' = c).
        { intros g' Hg' Ha'. specialize (Hbefore g' Hg'). cbv beta in Hbefore.
          rewrite Ha' in Hbefore. cbn [andb] in Hbefore.
          destruct (Z.eqb_spec g' c); [assumption|discriminate]. }
        exists g, c. split; [lia|]. split; [exact Hc|]. split; [exact Hgc|].
        split; [exact Ha|]. split; [exact Hbefore'|].
        set (sg := set_resp s0 (resp_before oracle self (concat prefix) target s0 g)).
        destruct (guess_body oracle self blocks (concat prefix) target sg g) as [x|e] eqn:Gb.
        -- exfalso.
           destruct (guess_body_found oracle self blocks (concat prefix) target s0 g _
                       eq_refl x Gb)
             as [[r' ->]|(s' & -> & Hs')].
           ++ (* the guess is accepted and is not the replay *)
              revert Gb. unfold sg, guess_body.
              change (query self (concat prefix) target (set_resp s0 ?r) g)
                with (query self (concat prefix) target s0 g).
              revert Ha. unfold accepts, verdict.
              destruct (query self (concat prefix) target s0 g) as [ivq payload].
              cbn [fst snd set_resp resp payload_modify position is_correct s0 block_start].
              destruct (oracle payload ivq _) as [correct r1]. cbn [fst]. intros ->.
              rewrite (pm_last c Hc). cbn [of_option Py.bind].
              destruct (chr _) as [dc|]; cbn [Py.bind]; [|discriminate].
              unfold blocks. rewrite blocks_minus_2. cbn [of_option Py.bind].
              rewrite Hc. cbn [of_option Py.bind].
              destruct (Z.eqb_spec g c); [contradiction|].
              destruct ((dc =? 0) || (dc >? block_size self)); [discriminate|].
              destruct (chr (dc + 1)); cbn [Py.bind]; discriminate.
           ++ (* the turn ends, and [is_correct] is cleared *)
              assert (Hcome : comes_to oracle self blocks
                                (decrypt_counts blocks amount, s0)
                                (decrypt_counts blocks amount,
                                 {| payload_modify := payload_modify s';
                                    position := position s' - 1;
                                    plaintext := plaintext s'; is_correct := is_correct s';
                                    resp := resp s' |})).
              { unfold blocks. rewrite counts_cons. fold blocks.
                eapply (comes_turn oracle self blocks _ _ s0 target true s').
                - unfold s0. cbn [block_start position]. lia.
                - apply blocks_target.
                - unfold blocks. rewrite blocks_prefix. fold blocks.
                  rewrite (Hturn g c eq_refl ltac:(lia) Hc Hbefore').
                  rewrite range_cons by lia. cbn [guess_loop]. fold sg. rewrite Gb.
                  reflexivity.
                - reflexivity.
                - apply comes_here. }
              apply comes_to_run in Hcome. rewrite Hcome in Hrun.
              match type of Hrun with
              | run_from _ _ _ (?cs, ?s1) = _ =>
                  destruct (run_from_plain oracle self blocks cs s1 Hs') as [Hnb _]
              end.
              exact (Hnb Hrun).
        -- assert (He : e = BadPadding \/ e <> BadPadding)
             by (destruct e; ((left; reflexivity) || (right; discriminate))).
           destruct He as [He|Hne']; [subst e|].
           ++ apply (Hbody g c Hc) in Gb. destruct Gb as (_ & _ & Hdc). exact Hdc.
           ++ exfalso. revert Hrun. unfold run_from. cbn [fst snd].
              unfold blocks. rewrite counts_cons, blocks_target, blocks_prefix. fold blocks.
              cbn [of_option Py.bind].
              replace (Z.to_nat (position s0 + 1)) with (S (Z.to_nat (position s0)))
                by (unfold s0; cbn [block_start position]; lia).
              cbn [position_loop].
              destruct (Z.ltb_spec (position s0) 0);
                [unfold s0 in *; cbn [block_start position] in *; lia|].
              rewrite (Hturn g c eq_refl ltac:(lia) Hc Hbefore').
              rewrite range_cons by lia. cbn [guess_loop]. fold sg. rewrite Gb.
              cbn [Py.bind]. congruence.
    + exfalso.
      match type of Hrun with
      | run_from _ _ _ (?cs, ?s1) = _ =>
          destruct (run_from_plain oracle self (prefix ++ [pm; target]) cs s1 eq_refl)
            as [Hnb _]
      end.
      exact (Hnb Hrun).
  - intros (-> & g & c & Hg & Hc & Hgc & Ha & Hbefore & Hdc).
    unfold run_from. cbn [fst snd].
    unfold blocks. rewrite counts_cons, blocks_target, blocks_prefix. fold blocks.
    cbn [of_option Py.bind]. fold s0.
    replace (Z.to_nat (position s0 + 1)) with (S (Z.to_nat (position s0)))
      by (unfold s0; cbn [block_start position]; lia).
    cbn [position_loop].
    destruct (Z.ltb_spec (position s0) 0);
      [unfold s0 in *; cbn [block_start position] in *; lia|].
    rewrite (Hturn g c eq_refl Hg Hc Hbefore).
    rewrite range_cons by lia. cbn [guess_loop].
    rewrite (proj2 (Hbody g c Hc)) by auto. reflexivity.
Qed.

End DecryptErrors.




